(** * BrainStat: mesh topology extraction and the SurfStat linear model fitter

    A shallow embedding of
      - [brainstat/mesh/utils.py]  ([mesh_edges], [_mask_edges],
        [_make_contiguous], [mesh_average]), and
      - [surfstat/python/SurfStatLinMod.py]  ([py_SurfStatLinMod]),
    together with the properties the specification states about them.

    Conventions.
      - Integer arrays are numpy [int64] arrays: entries are [Z] and the one
        arithmetic step applied to caller data ([edg - 1]) wraps around.
      - Python exceptions are values of [exn]; a call returns [exn + A].
      - Floating point arrays are idealised as arrays of exact rationals. *)

From Stdlib Require Import ZArith QArith Lia.
From stdpp Require Import base list sorting strings gmap.

#[local] Open Scope Z_scope.
#[local] Set Warnings "-clear-no-such-hyp".

(** ** Python exceptions *)

Inductive exn :=
| SystemExit (msg : string)
| ValueError (msg : string)
| TypeError (msg : string)
| IndexError (msg : string)
| NameError (msg : string)
| NotModelled (what : string).

#[global] Instance exn_ret : MRet (sum exn) := λ A x, inr x.
#[global] Instance exn_bind : MBind (sum exn) := λ A B f m,
  match m with
  | inl e => inl e
  | inr a => f a
  end.

(** ** [np.unique]: sort, then drop repeated neighbours *)

Section np_unique.
Context {A : Type} `{EqDecision A}.
Context (R : relation A) `{∀ x y, Decision (R x y)}.

Fixpoint uniq_adj (l : list A) : list A :=
  match l with
  | [] => []
  | x :: l' =>
      match l' with
      | [] => [x]
      | y :: _ => if decide (x = y) then uniq_adj l' else x :: uniq_adj l'
      end
  end.

Definition np_unique (l : list A) : list A := uniq_adj (merge_sort R l).

End np_unique.

(** ** Integer arrays

    [np.sort], [np.unique] and the comparisons work on [int64] entries;
    [wrap64] is the two's complement reduction numpy applies to the result of
    integer arithmetic on such arrays. *)

Definition int64 (z : Z) : Prop := - 2 ^ 63 ≤ z < 2 ^ 63.

Definition wrap64 (z : Z) : Z := (z + 2 ^ 63) `mod` 2 ^ 64 - 2 ^ 63.

Abbreviation edge := (Z * Z)%type.
Abbreviation triangle := (Z * Z * Z)%type.

Definition int64_edge (e : edge) : Prop := int64 e.1 ∧ int64 e.2.
Definition int64_triangle (t : triangle) : Prop :=
  int64 t.1.1 ∧ int64 t.1.2 ∧ int64 t.2.

(** Row order used by [np.unique(..., axis=0)]: lexicographic. *)
Definition row_le (e1 e2 : edge) : Prop :=
  e1.1 < e2.1 ∨ (e1.1 = e2.1 ∧ e1.2 ≤ e2.2).

#[global] Instance row_le_dec e1 e2 : Decision (row_le e1 e2).
Proof. unfold row_le. apply _. Defined.

(** [np.sort(tri, axis=1)] on one row of a (t x 3) array. *)
Definition sort3 (t : triangle) : triangle :=
  let '(a, b, c) := t in
  if decide (a ≤ b) then
    if decide (b ≤ c) then (a, b, c)
    else if decide (a ≤ c) then (a, c, b) else (c, a, b)
  else
    if decide (a ≤ c) then (b, a, c)
    else if decide (b ≤ c) then (b, c, a) else (c, b, a).

(** [edg - 1] on an int64 array. *)
Definition sub1 (e : edge) : edge := (wrap64 (e.1 - 1), wrap64 (e.2 - 1)).

(** The triangle branch of [mesh_edges] (lines 47-55):
<<
    tri = np.sort(surf["tri"], axis=1)
    edg = np.unique(np.concatenate((np.concatenate(
              (tri[:, [0, 1]], tri[:, [0, 2]])), tri[:, [1, 2]])), axis=0)
    edg = edg - 1
>> *)
Definition tri_pairs (tris : list triangle) : list edge :=
  let tri := sort3 <$> tris in
  (((λ t, (t.1.1, t.1.2)) <$> tri) ++ ((λ t, (t.1.1, t.2)) <$> tri))
    ++ ((λ t, (t.1.2, t.2)) <$> tri).

Definition tri_unique (tris : list triangle) : list edge :=
  np_unique row_le (tri_pairs tris).

Definition tri_edges (tris : list triangle) : list edge :=
  sub1 <$> tri_unique tris.

(** ** numpy indexing helpers *)

(** [np.where(b)[0]]: the positions that hold [True]. *)
Definition np_where (b : list bool) : list Z :=
  Z.of_nat <$> filter (λ p, b !! p = Some true) (seq 0 (length b)).

(** [a[m]] for a boolean mask [m] of the length of [a]. *)
Fixpoint bool_index {A} (m : list bool) (a : list A) : list A :=
  match m, a with
  | b :: m, x :: a => if b then x :: bool_index m a else bool_index m a
  | _, _ => []
  end.

(** One integer subscript into an axis of length [len]: negative subscripts
    count from the end, anything outside [-len, len) raises [IndexError]. *)
Definition py_index (len : nat) (i : Z) : exn + nat :=
  if decide (0 ≤ i < Z.of_nat len) then inr (Z.to_nat i)
  else if decide (- Z.of_nat len ≤ i < 0) then inr (Z.to_nat (i + Z.of_nat len))
  else inl (IndexError "index is out of bounds").

(** [a[i]] for an integer subscript. *)
Definition py_get {A} (a : list A) (i : Z) : exn + A :=
  p ← py_index (length a) i;
  match a !! p with
  | Some x => inr x
  | None => inl (IndexError "index is out of bounds")
  end.

(** ** [_make_contiguous] and [_mask_edges] *)

(** The entries of an (e x 2) array in row-major order. *)
Definition flatten_edges (Y : list edge) : list Z := Y ≫= (λ e, [e.1; e.2]).

(** [Y[Y == v] = i] *)
Definition assign_where (v i : Z) (Y : list edge) : list edge :=
  (λ e, (if decide (e.1 = v) then i else e.1,
         if decide (e.2 = v) then i else e.2)) <$> Y.

(** <<
    val = np.unique(Y)
    for i in range(val.size):
        Y[Y == val[i]] = i
    return Y
>> *)
Definition _make_contiguous (Y : list edge) : list edge :=
  let val := np_unique Z.le (flatten_edges Y) in
  foldl (λ Y i,
           match val !! i with
           | Some v => assign_where v (Z.of_nat i) Y
           | None => Y
           end) Y (seq 0 (length val)).

(** <<
    missing_edges = np.where(~mask)
    remove_edges = np.zeros(edges.shape, dtype=bool)
    for i in range(edges.shape[0]):
        for j in range(edges.shape[1]):
            remove_edges[i, j] = (edges[i, j] == missing_edges).any()
    idx = ~np.any(remove_edges, axis=1)
    edges = edges[idx, :]
    edges = _make_contiguous(edges)
    return edges, idx
>> *)
Definition _mask_edges (edges : list edge) (mask : list bool)
  : list edge * list bool :=
  let missing_edges := np_where (negb <$> mask) in
  let remove_edges :=
    (λ e, (bool_decide (e.1 ∈ missing_edges),
           bool_decide (e.2 ∈ missing_edges))) <$> edges in
  let idx := (λ r : bool * bool, negb (r.1 || r.2)) <$> remove_edges in
  let edges := bool_index idx edges in
  let edges := _make_contiguous edges in
  (edges, idx).

(** ** Lattices

    A lattice is a numpy array of occupancy flags: its shape and its buffer
    in C (row-major) order, so that entry [(i, j, k)] of an array of shape
    [(I, J, K)] sits at position [(i * J + j) * K + k]. *)

Record lattice := Lattice { lat_shape : list nat; lat_buffer : list bool }.

Definition lat_wf (lat : lattice) : Prop :=
  length (lat_buffer lat) = foldr Nat.mul 1%nat (lat_shape lat).

(** [lat[i, j, k]] *)
Definition lat_get (J K : nat) (buf : list bool) (i j k : nat) : bool :=
  default false (buf !! ((i * J + j) * K + k)%nat).

(** [lat.T.flatten()]: the entries with the first subscript running fastest. *)
Definition T_flatten (I J K : nat) (buf : list bool) : list bool :=
  k ← seq 0 K; j ← seq 0 J; i ← seq 0 I; [lat_get J K buf i j k].

(** [np.cumsum] *)
Fixpoint cumsum_from (acc : Z) (l : list Z) : list Z :=
  match l with
  | [] => []
  | x :: l => (acc + x) :: cumsum_from (acc + x) l
  end.
Definition np_cumsum (l : list Z) : list Z := cumsum_from 0 l.

Definition b2z (b : bool) : Z := if b then 1 else 0.

(** [np.meshgrid(a, b)]: two arrays of shape [(len b, len a)]. *)
Definition meshgrid (a b : list Z) : list (list Z) * list (list Z) :=
  (replicate (length b) a, (λ y, replicate (length a) y) <$> b).

(** [m.T.flatten("F")]: column-major order of the transpose, that is the
    rows of [m] one after the other. *)
Definition T_flatten_F (m : list (list Z)) : list Z := concat m.

(** [np.arange(lo, hi)] *)
Definition np_arange (lo hi : Z) : list Z :=
  (λ t, lo + Z.of_nat t) <$> seq 0 (Z.to_nat (hi - lo)).

(** Modelled from the spec: [colon] of [brainstat/stats/utils.py] is not
    among the sources; the template is "tiled across all K-1 slice
    boundaries, alternating template assignment by parity", so
    [colon(start, stop, step)] is the inclusive range
    [start, start + step, ..., <= stop] (empty when [stop < start]). *)
Definition colon (start stop step : Z) : list Z :=
  (λ t, start + step * Z.of_nat t) <$> seq 0 (Z.to_nat ((stop - start) `div` step + 1)).

(** [c + d] on an index array *)
Definition vadd (c : list Z) (d : Z) : list Z := (λ x, x + d) <$> c.
(** [e + d] on an (e x 2) array *)
Definition eadd (edg : list edge) (d : Z) : list edge :=
  (λ e, (e.1 + d, e.2 + d)) <$> edg.

(** [np.block([[t1, t2, ...], [b1, b2, ...]]).T] *)
Definition block_T (top bot : list (list Z)) : list edge :=
  zip (concat top) (concat bot).

(** A loop whose body may raise. *)
Fixpoint for_each {S X} (xs : list X) (body : X → S → exn + S) (s : S)
  : exn + S :=
  match xs with
  | [] => inr s
  | x :: xs => s' ← body x s; for_each xs body s'
  end.

(** [edg[start + np.arange(0, n), :] = val]: the value must have as many
    rows as there are subscripts, or a single row that is broadcast. *)
Definition assign_rows (start n : Z) (val : list edge) (edg : list edge)
  : exn + list edge :=
  let idx := vadd (np_arange 0 n) start in
  if decide (length val = length idx) then
    pos ← mapM (py_index (length edg)) idx;
    inr (foldl (λ a pv, <[pv.1 := pv.2]> a) edg (zip pos val))
  else
    match val with
    | [v] =>
        pos ← mapM (py_index (length edg)) idx;
        inr (foldl (λ a p, <[p := v]> a) edg pos)
    | _ => inl (ValueError "shape mismatch: value array could not be broadcast")
    end.

(** The six index sets of one parity class. *)
Definition where_ij (i j : list Z) (P : Z → Z → bool) : list Z :=
  np_where (zip_with P i j).

Section template.
Context (I J K : Z).
Let IJ := I * J.

Definition n1 : Z := (I - 1) * (J - 1) * 6 + (I - 1) * 3 + (J - 1) * 3 + 1.
Definition n2 : Z := (I - 1) * (J - 1) * 3 + (I - 1) + (J - 1).

Definition grid_i : list Z :=
  T_flatten_F (meshgrid (np_arange 1 (I + 1)) (np_arange 1 (J + 1))).1.
Definition grid_j : list Z :=
  T_flatten_F (meshgrid (np_arange 1 (I + 1)) (np_arange 1 (J + 1))).2.

Definition par (f i j : Z) : bool := bool_decide ((i + j) `mod` 2 = f).

Definition c1 f := where_ij grid_i grid_j
  (λ i j, par f i j && bool_decide (i < I) && bool_decide (j < J)).
Definition c2 f := where_ij grid_i grid_j
  (λ i j, par f i j && bool_decide (i > 1) && bool_decide (j < J)).
Definition c11 f := where_ij grid_i grid_j
  (λ i j, par f i j && bool_decide (i = I) && bool_decide (j < J)).
Definition c21 f := where_ij grid_i grid_j
  (λ i j, par f i j && bool_decide (i = I) && bool_decide (j > 1)).
Definition c12 f := where_ij grid_i grid_j
  (λ i j, par f i j && bool_decide (i < I) && bool_decide (j = J)).
Definition c22 f := where_ij grid_i grid_j
  (λ i j, par f i j && bool_decide (i > 1) && bool_decide (j = J)).

(** bottom slice *)
Definition edg0 f : list edge :=
  let c1 := c1 f in let c2 := c2 f in let c11 := c11 f in
  let c21 := c21 f in let c12 := c12 f in let c22 := c22 f in
  eadd (block_T
    [c1; c1; c1; vadd c2 (-1); vadd c2 (-1); c2; c11; vadd c21 (- I); c12;
     vadd c22 (-1)]
    [vadd c1 1; vadd c1 I; vadd c1 (1 + I); c2; vadd c2 (-1 + I);
     vadd c2 (-1 + I); vadd c11 I; c21; vadd c12 1; c22]) 1.

(** between slices *)
Definition edg1 f : list edge :=
  let c1 := c1 f in let c11 := c11 f in let c12 := c12 f in
  eadd (block_T
    [c1; c1; c1; c11; c11; c12; c12]
    [vadd c1 IJ; vadd c1 (1 + IJ); vadd c1 (I + IJ); vadd c11 IJ;
     vadd c11 (I + IJ); vadd c12 IJ; vadd c12 (1 + IJ)]) 1.

Definition edg2 f : list edge :=
  let c2 := c2 f in let c21 := c21 f in let c22 := c22 f in
  eadd (block_T
    [vadd c2 (-1); c2; vadd c2 (-1 + I); vadd c21 (- I); c21; vadd c22 (-1);
     c22]
    [vadd c2 (-1 + IJ); vadd c2 (-1 + IJ); vadd c2 (-1 + IJ);
     vadd c21 (- I + IJ); vadd c21 (- I + IJ); vadd c22 (-1 + IJ);
     vadd c22 (-1 + IJ)]) 1.

(** The body of [for f in range(0, 2)]. *)
Definition template_step (f : Z) (edg : list edge) : exn + list edge :=
  edg ←
    (if decide (f ≠ 0) then
       for_each (colon 2 (K - 1) 2) (λ k edg,
         assign_rows ((k - 1) * n1) n1
           (eadd (edg0 f ++ edg2 f ++ edg1 f ++ [(IJ, 2 * IJ)]) ((k - 1) * IJ))
           edg) edg
     else
       for_each (colon 1 (K - 1) 2) (λ k edg,
         assign_rows ((k - 1) * n1) n1
           (eadd (edg0 f ++ edg1 f ++ edg2 f ++ [(IJ, 2 * IJ)]) ((k - 1) * IJ))
           edg) edg);
  if decide ((K + 1) `mod` 2 = f) then
    (* top slice *)
    top ← mapM (py_get (edg0 f)) (np_arange 0 n2);
    assign_rows ((K - 1) * n1) n2 (eadd top ((K - 1) * IJ)) edg
  else inr edg.

(** The dense edge template, with 1-based voxel numbers. *)
Definition lat_template : exn + list edge :=
  let size := (K - 1) * n1 + n2 in
  if decide (size < 0) then
    inl (ValueError "negative dimensions are not allowed")
  else
    for_each (np_arange 0 2) template_step (replicate (Z.to_nat size) (0, 0)).

End template.

(** Lines 162-183: the template rows with both voxels inside the lattice,
    renumbered by [vid]. *)
Definition lat_inside (flat : list bool) (edg : list edge) : exn + list edge :=
  (* index by voxels in the "lat" *)
  let vid := zip_with Z.mul (np_cumsum (b2z <$> flat)) (b2z <$> flat) in
  (* only inside the lat *)
  in0 ← mapM (λ e : edge, py_get flat (e.1 - 1)) edg;
  in1 ← mapM (λ e : edge, py_get flat (e.2 - 1)) edg;
  let all_idx := zip_with andb in0 in1 in
  edg ← mapM (λ e : edge,
                a ← py_get vid (e.1 - 1);
                b ← py_get vid (e.2 - 1);
                inr (a, b)) (bool_index all_idx edg);
  inr (eadd edg (-1)).

(** The lattice branch of [mesh_edges] (lines 57-183). *)
Definition lat_edges (lat : lattice) : exn + list edge :=
  let shape :=
    match lat_shape lat with
    | [ni; nj] => [ni; nj; 1%nat]    (* np.expand_dims(lat, axis=2) *)
    | sh => sh
    end in
  match shape with
  | [ni; nj; nk] =>
      edg ← lat_template (Z.of_nat ni) (Z.of_nat nj) (Z.of_nat nk);
      lat_inside (T_flatten ni nj nk (lat_buffer lat)) edg
  | _ => inl (ValueError "not enough values to unpack (expected 3)")
  end.

(** ** [mesh_edges] *)

(** The values a surface dictionary holds under its keys. *)
Inductive pyobj :=
| TriArray (tri : list triangle)
| LatArray (lat : lattice)
| OtherObj.

(** The objects [mesh_edges] is documented to accept: a dictionary, a
    BrainSpace [BSPolyData] (represented by what [get_edges] returns for it)
    or an [SLM] object with its attributes [tri], [lat] and [surf]. The
    class [SLM] itself is not among the sources; its instances are plain
    objects, not containers. *)
#[warnings="-register-all"]
Inductive surface :=
| SLM (tri : option (list triangle)) (lat : option lattice)
      (surf : option surface)
| BSPolyData (get_edges : list edge)
| Dict (d : gmap string pyobj).

Definition unsupported_msg : string :=
  "Input 'surf' must have 'lat' or 'tri' key, or be a mesh object.".

(** lines 47-186, once the [SLM] case has been unwrapped *)
Definition dict_edges (d : gmap string pyobj) (mask : option (list bool))
  : exn + list edge :=
  edg ←
    (match d !! "tri" with
     | Some (TriArray tri) => inr (tri_edges tri)
     | Some _ => inl (TypeError "surf['tri'] is not a (t x 3) index array")
     | None =>
         match d !! "lat" with
         | Some (LatArray lat) => lat_edges lat
         | Some _ => inl (TypeError "surf['lat'] is not an array")
         | None => inl (SystemExit unsupported_msg)
         end
     end);
  match mask with
  | Some mask => inr (_mask_edges edg mask).1
  | None => inr edg
  end.

Fixpoint mesh_edges (surf : surface) (mask : option (list bool))
  : exn + list edge :=
  match surf with
  | SLM (Some tri) _ _ => dict_edges {[ "tri" := TriArray tri ]} mask
  | SLM None (Some lat) _ => dict_edges {[ "lat" := LatArray lat ]} mask
  | SLM None None (Some surf) => mesh_edges surf None
  | SLM None None None =>
      (* the ValueError is built but not raised; the membership test on
         the SLM object fails *)
      inl (TypeError "argument of type 'SLM' is not iterable")
  | BSPolyData edg =>
      match mask with
      | Some mask => inr (_mask_edges edg mask).1
      | None => inr edg
      end
  | Dict d => dict_edges d mask
  end.

(** ** Floating point numbers, idealised

    The fitter computes with IEEE doubles. They are idealised as exact
    rationals, kept in lowest terms so that equal numbers are equal terms. *)

Definition qadd (a b : Q) : Q := Qred (a + b).
Definition qsub (a b : Q) : Q := Qred (a - b).
Definition qmul (a b : Q) : Q := Qred (a * b).
Definition qdiv (a b : Q) : Q := Qred (a / b).
Definition qzero (a : Q) : bool := Qeq_bool a 0.

(** [np.spacing(1)]: the gap between 1 and the next double. *)
Definition np_spacing_1 : Q := 1 # (2 ^ 52).

Abbreviation vector := (list Q).
Abbreviation matrix := (list (list Q)).

Definition qsum (l : vector) : Q := foldl qadd 0%Q l.
Definition dotprod (a b : vector) : Q := qsum (zip_with qmul a b).

(** The shape of a 2-D array given by its rows. An array without rows has
    no recoverable second dimension; the statements below keep to arrays
    with at least one row. *)
Definition ncols {A} (a : list (list A)) : nat :=
  match a with
  | [] => 0%nat
  | r :: _ => length r
  end.

(** Column [j] of a 2-D array, and its transpose. *)
Definition column (j : nat) (a : matrix) : vector :=
  (λ r, default 0%Q (r !! j)) <$> a.
Definition transpose (a : matrix) : matrix :=
  (λ j, column j a) <$> seq 0 (ncols a).

(** [np.dot] on 2-D arrays. *)
Definition matmul (a b : matrix) : matrix :=
  (λ r, (λ c, dotprod r c) <$> transpose b) <$> a.

(** ** [numpy.linalg]

    [numpy.linalg.pinv] and [numpy.linalg.matrix_rank] are library calls;
    the fitter takes them as parameters. For evaluation they are
    instantiated with the exact Moore-Penrose inverse and the exact rank,
    computed column by column (Greville's recursion): with [d = A+ a] and
    [c = a - A d] for the new column [a], the new last row of the inverse
    is [c / (c . c)] when [c] is not zero and [(d^T A+) / (1 + d . d)]
    otherwise, and the rank counts the columns with [c] not zero. *)

Definition vscale (x : Q) (a : vector) : vector := qmul x <$> a.
Definition vsub (a b : vector) : vector := zip_with qsub a b.
Definition vadd_q (a b : vector) : vector := zip_with qadd a b.

Definition greville_step (n : nat) (st : list vector * matrix * Z) (a : vector)
  : list vector * matrix * Z :=
  let '(cols, inv, rk) := st in
  let d := (λ r, dotprod r a) <$> inv in
  let c := foldl (λ acc dc, vsub acc (vscale dc.1 dc.2)) a (zip d cols) in
  let independent := negb (forallb qzero c) in
  let b :=
    if independent then vscale (qdiv 1 (dotprod c c)) c
    else vscale (qdiv 1 (qadd 1 (dotprod d d)))
           (foldl (λ acc dr, vadd_q acc (vscale dr.1 dr.2))
                  (replicate n 0%Q) (zip d inv)) in
  (cols ++ [a],
   zip_with (λ r di, vsub r (vscale di b)) inv d ++ [b],
   if independent then rk + 1 else rk).

Definition greville (a : matrix) : list vector * matrix * Z :=
  foldl (greville_step (length a)) ([], [], 0) (transpose a).

Definition exact_pinv (a : matrix) : matrix := (greville a).1.2.
Definition exact_rank (a : matrix) : Z := (greville a).2.

(** The four Penrose equations, which determine the pseudo-inverse. *)
Definition lowest_terms (a : matrix) : matrix :=
  (λ r : vector, Qred <$> r) <$> a.
Definition moore_penrose (a p : matrix) : Prop :=
  matmul (matmul a p) a = lowest_terms a ∧
  matmul (matmul p a) p = lowest_terms p ∧
  transpose (matmul a p) = matmul a p ∧
  transpose (matmul p a) = matmul p a.

(** ** Arrays, objects and the store

    A numpy array of floats of one, two or three dimensions, by its nested
    rows. Arrays are objects: a Python variable holds a reference into the
    store, an assignment to a subscript updates the object in place and is
    seen through every reference to it. An exception leaves the store as it
    is at the point of the [raise]. *)

Inductive ndarray :=
| Arr1 (a : vector)
| Arr2 (a : matrix)
| Arr3 (a : list matrix).

Definition np_shape (a : ndarray) : list nat :=
  match a with
  | Arr1 a => [length a]
  | Arr2 a => [length a; ncols a]
  | Arr3 a => [length a; ncols a; ncols (default [] (head a))]
  end.

Abbreviation loc := nat.

Record world := World { heap : list ndarray; stdout : list string }.

Definition py (A : Type) : Type := world → world * (exn + A).

#[global] Instance py_ret : MRet py := λ A x w, (w, inr x).
#[global] Instance py_bind : MBind py := λ A B f m w,
  match m w with
  | (w', inl e) => (w', inl e)
  | (w', inr a) => f a w'
  end.

Definition raise {A} (e : exn) : py A := λ w, (w, inl e).
Definition lift {A} (r : exn + A) : py A := λ w, (w, r).
Definition alloc (a : ndarray) : py loc := λ w,
  (World (heap w ++ [a]) (stdout w), inr (length (heap w))).
Definition load (l : loc) : py ndarray := λ w,
  (w, match heap w !! l with
      | Some a => inr a
      | None => inl (NameError "no such object")
      end).
Definition store (l : loc) (a : ndarray) : py unit := λ w,
  (World (<[l := a]> (heap w)) (stdout w), inr ()).
Definition print (s : string) : py unit := λ w,
  (World (heap w) (stdout w ++ [s]), inr ()).

(** What a caller may pass for [Y] and [M]: a number, an array, or
    something else. *)
Inductive pyarg :=
| ArgNum (x : Q)
| ArgArr (l : loc)
| ArgOther.

(** The values of the result dictionary [slm]. *)
Inductive pyval :=
| PyNone
| PyInt (z : Z)
| PyRef (l : loc).

(** ** numpy operations on arrays *)

(** Broadcasting of one dimension. *)
Definition bdim (x y : nat) : option nat :=
  if decide (x = y) then Some x
  else if decide (x = 1%nat) then Some y
  else if decide (y = 1%nat) then Some x
  else None.

Definition stretch {A} (n : nat) (l : list A) : list A :=
  match l with
  | [x] => replicate n x
  | _ => l
  end.

Definition broadcast_to (r c : nat) (a : matrix) : matrix :=
  stretch r (stretch c <$> a).

(** An elementwise binary operation on two 2-D arrays. *)
Definition broadcast2 (f : Q → Q → Q) (a b : matrix) : exn + matrix :=
  match bdim (length a) (length b), bdim (ncols a) (ncols b) with
  | Some r, Some c =>
      inr (zip_with (zip_with f) (broadcast_to r c a) (broadcast_to r c b))
  | _, _ => inl (ValueError "operands could not be broadcast together")
  end.

(** [np.dot] of two 2-D arrays. *)
Definition np_dot (a b : matrix) : exn + matrix :=
  if decide (ncols a = length b) then inr (matmul a b)
  else inl (ValueError "shapes not aligned").

Definition np_ones (r c : nat) : matrix := replicate r (replicate c 1%Q).
Definition np_zeros (r c : nat) : matrix := replicate r (replicate c 0%Q).
Definition np_zeros3 (r c d : nat) : list matrix :=
  replicate r (replicate c (replicate d 0%Q)).

(** [np.matlib.repmat(a, n, 1)] *)
Definition repmat_rows (a : matrix) (n : nat) : matrix :=
  concat (replicate n a).

Definition np_square (a : matrix) : matrix :=
  (λ r : vector, (λ x, qmul x x) <$> r) <$> a.

(** [a.mean() > np.spacing(1)]; the mean of an empty array is [nan], which
    compares false. *)
Definition mean_exceeds_spacing (a : matrix) : bool :=
  let xs := concat a in
  match xs with
  | [] => false
  | _ => negb (Qle_bool (qdiv (qsum xs) (inject_Z (Z.of_nat (length xs))))
                        np_spacing_1)
  end.

(** [np.sum(a, axis=0)] and [np.sum(a, axis=1)] of a 2-D array. *)
Definition sum_axis0 (a : matrix) : vector := qsum <$> transpose a.
Definition sum_axis1 (a : matrix) : vector := qsum <$> a.

(** Whether a value of shape [(r', c')] can be broadcast to [(r, c)]. *)
Definition fits (r c : nat) (val : matrix) : bool :=
  bool_decide (length val = r ∨ length val = 1%nat)
  && bool_decide (ncols val = c ∨ ncols val = 1%nat).

(** [a[:, lo:hi] = val] on a 2-D array. *)
Definition assign_cols (a : matrix) (lo hi : nat) (val : matrix)
  : exn + matrix :=
  let lo := Nat.min lo (ncols a) in
  let hi := Nat.min hi (ncols a) in
  let w := (hi - lo)%nat in
  if fits (length a) w val then
    inr (zip_with (λ row vrow, take lo row ++ vrow ++ drop (lo + w) row)
           a (broadcast_to (length a) w val))
  else inl (ValueError "could not broadcast input array").

(** [a[:, lo:hi, :] = val] on a 3-D array, for a value of the shape of the
    target (the only case the fitter produces). *)
Definition assign_cols3 (a : list matrix) (lo hi : nat) (val : list matrix)
  : exn + list matrix :=
  let lo := Nat.min lo (ncols a) in
  let hi := Nat.min hi (ncols a) in
  let w := (hi - lo)%nat in
  if bool_decide (np_shape (Arr3 val)
                  = [length a; w; ncols (default [] (head a))]) then
    inr (zip_with (λ row vrow, take lo row ++ vrow ++ drop (lo + w) row) a val)
  else inl (ValueError "could not broadcast input array").

(** [a[:, :, j]] *)
Definition slice_last (j : nat) (a : list matrix) : matrix :=
  (λ m : matrix, (λ cell, default 0%Q (cell !! j)) <$> m) <$> a.

(** [a[:, :, j] = val] *)
Definition assign_last (j : nat) (a : list matrix) (val : matrix)
  : exn + list matrix :=
  if fits (length a) (ncols a) val then
    inr (zip_with (zip_with (λ cell x, <[j := x]> cell)) a
           (broadcast_to (length a) (ncols a) val))
  else inl (ValueError "could not broadcast input array").

(** [a[j, :] = val] for a 1-D value. *)
Definition assign_row (j : nat) (a : matrix) (val : vector) : exn + matrix :=
  match a !! j with
  | None => inl (IndexError "index is out of bounds")
  | Some row =>
      if bool_decide (length val = length row ∨ length val = 1%nat) then
        inr (<[j := stretch (length row) val]> a)
      else inl (ValueError "could not broadcast input array")
  end.

(** A loop over a store. *)
Fixpoint for_py {S X} (xs : list X) (body : X → S → py S) (s : S) : py S :=
  match xs with
  | [] => mret s
  | x :: xs => s' ← body x s; for_py xs body s'
  end.

Definition load2 (l : loc) : py matrix :=
  a ← load l;
  match a with
  | Arr2 m => mret m
  | _ => raise (NotModelled "np.dot on an array that is not 2-D")
  end.

Definition load3 (l : loc) : py (list matrix) :=
  a ← load l;
  match a with
  | Arr3 m => mret m
  | _ => raise (IndexError "too many indices for array")
  end.

(** ** [py_SurfStatLinMod]

    The fit without a surface ([surf=None]); the block that follows for a
    surface calls the MATLAB engine and is not part of the model. *)

Definition warning : string := "Did you forget a constant term? :-)".

Section fitter.
Context (pinv : matrix → matrix) (matrix_rank : matrix → Z).

(** lines 12-21: [Y] and its shape [s]; nothing is bound for an argument
    that is neither a number nor an array. A 1-D array is replaced by a
    reshaped view, which is only ever read. *)
Definition bind_Y (Y : pyarg) : py (option (loc * list nat)) :=
  match Y with
  | ArgNum y => Yl ← alloc (Arr2 [[y]]); mret (Some (Yl, [1; 1]%nat))
  | ArgArr l =>
      a ← load l;
      match a with
      | Arr1 d => Yl ← alloc (Arr2 [d]); mret (Some (Yl, [1%nat; length d]))
      | _ => mret (Some (l, np_shape a))
      end
  | ArgOther => mret None
  end.

(** lines 33-47: [M] after its rebinding, [slm['X']], [pinvX] and [r]. *)
Definition bind_M (n : nat) (M : pyarg)
  : py (option (loc * loc * matrix * matrix)) :=
  match M with
  | ArgNum m =>
      Ml ← alloc (Arr2 [[m]]);
      let X := repmat_rows [[m]] n in
      Xl ← alloc (Arr2 X);
      let pinvX := pinv X in
      r ← lift (t ← broadcast2 qmul pinvX (np_ones n 1);
                d ← np_dot t X;
                broadcast2 qsub (np_ones n 1) d);
      mret (Some (Ml, Xl, pinvX, r))
  | ArgArr l =>
      a ← load l;
      match a with
      | Arr1 m =>
          let X := repmat_rows [m] n in
          Xl ← alloc (Arr2 X);
          let pinvX := pinv X in
          r ← lift (t ← np_dot pinvX (np_ones n 1);
                    d ← np_dot X t;
                    broadcast2 qsub (np_ones n 1) d);
          mret (Some (l, Xl, pinvX, r))
      | Arr2 X =>
          let pinvX := pinv X in
          r ← lift (t ← broadcast2 qmul pinvX (np_ones 1 n);
                    d ← np_dot X t;
                    broadcast2 qsub (np_ones n 1) d);
          mret (Some (l, l, pinvX, r))
      | Arr3 _ => raise (NotModelled "a design with three dimensions")
      end
  | ArgOther => mret None
  end.

(** lines 77-95: one chunk of the univariate fit. Returns the new [Y]. *)
Definition univariate (slm : gmap string pyval) (s : list nat)
    (Ml Xl : loc) (pinvX : matrix) (coefl ssel : loc) (lo v2 : nat) (Y : loc)
  : py loc :=
  match slm !! "V" with
  | None =>
      Ym ← load2 Y;
      M ← load Ml;
      coef ←
        (if bool_decide (s = [1; 1]%nat)
            && bool_decide (1 < default 0 (head (np_shape M)))%nat
         then
           y00 ← lift (r ← py_get Ym 0; py_get r 0);
           let coef := (λ r : vector, (λ x, qmul x y00) <$> r) <$> pinvX in
           print "s 1 1 ";;   (* followed by the text of [coef] *)
           mret coef
         else lift (np_dot pinvX Ym));
      X ← load2 Xl;
      res ← lift (d ← np_dot X coef; broadcast2 qsub Ym d);
      Y ← alloc (Arr2 res);
      let SSE := sum_axis0 (np_square res) in
      c ← load2 coefl;
      c ← lift (assign_cols c lo v2 coef);
      store coefl (Arr2 c);;
      e ← load2 ssel;
      e ← lift (assign_cols e lo v2 [SSE]);
      store ssel (Arr2 e);;
      mret Y
  | Some _ => raise (NameError "coef")
  end.

(** lines 97-117: one chunk of the multivariate fit. *)
Definition multivariate (slm : gmap string pyval) (p k : nat)
    (Xl : loc) (pinvX : matrix) (coefl ssel : loc) (lo v2 : nat) (Y : loc)
  : py loc :=
  print "multivariate ...";;
  match slm !! "V" with
  | None =>
      let vc := (v2 - lo)%nat in
      X ← load2 Xl;
      coef ← for_py (seq 0 k) (λ j coef,
        Y3 ← load3 Y;
        coef ← lift (c ← np_dot pinvX (slice_last j Y3); assign_last j coef c);
        Y3 ← load3 Y;
        Y3 ← lift (d ← np_dot X (slice_last j coef);
                   res ← broadcast2 qsub (slice_last j Y3) d;
                   assign_last j Y3 res);
        store Y (Arr3 Y3);;
        mret coef) (np_zeros3 p vc k);
      let k2 := (k * (k + 1) / 2)%nat in
      '(SSE, _) ← for_py (seq 0 k) (λ j1 st,
        for_py (seq 0 (j1 + 1)) (λ j2 '(SSE, j),
          Y3 ← load3 Y;
          SSE ← lift (prod ← broadcast2 qmul (slice_last j1 Y3) (slice_last j2 Y3);
                      assign_row j SSE (sum_axis1 prod));
          mret (SSE, S j)) st) (np_zeros k2 vc, 0%nat);
      c ← load3 coefl;
      c ← lift (assign_cols3 c lo v2 coef);
      store coefl (Arr3 c);;
      e ← load2 ssel;
      e ← lift (assign_cols e lo v2 SSE);
      store ssel (Arr2 e);;
      mret Y
  | Some _ => raise (NameError "X")
  end.

Definition py_SurfStatLinMod (Y M : pyarg) : py (gmap string pyval) :=
  Ys ← bind_Y Y;
  match Ys with
  | None => raise (NameError "s")
  | Some (Y, s) =>
      match s with
      | n :: v :: s2 =>
          let k := match s2 with [] => 1%nat | k :: _ => k end in
          let slm : gmap string pyval :=
            {[ "X" := PyNone; "df" := PyNone; "coef" := PyNone;
               "SSE" := PyNone ]} in
          Ms ← bind_M n M;
          match Ms with
          | None => raise (NameError "r")
          | Some (Ml, Xl, pinvX, r) =>
              let slm := <["X" := PyRef Xl]> slm in
              (if mean_exceeds_spacing (np_square r) then print warning
               else mret ());;
              X ← load2 Xl;
              let p := ncols X in
              let slm :=
                <["df" := PyInt (Z.of_nat n - matrix_rank X)]> slm in
              coefl ← alloc (if decide (k = 1%nat) then Arr2 (np_zeros p v)
                             else Arr3 (np_zeros3 p v k));
              let slm := <["coef" := PyRef coefl]> slm in
              ssel ← alloc (Arr2 (np_zeros (k * (k + 1) / 2) v));
              let slm := <["SSE" := PyRef ssel]> slm in
              let nc := 1%nat in
              let chunk := v in
              for_py (seq 0 nc) (λ ic Y,
                let lo := (ic * chunk)%nat in
                let v2 := Nat.min (lo + chunk) v in
                if decide (k = 1%nat) then
                  univariate slm s Ml Xl pinvX coefl ssel lo v2 Y
                else
                  multivariate slm p k Xl pinvX coefl ssel lo v2 Y) Y;;
              mret slm
          end
      | _ => raise (IndexError "tuple index out of range")
      end
  end.

End fitter.

(** What a caller sees of a call: the result or the exception, the store
    and the output afterwards. *)
Definition fit (Y M : pyarg) (w : world) : world * (exn + gmap string pyval) :=
  py_SurfStatLinMod exact_pinv exact_rank Y M w.

(** The array a key of [slm] refers to. *)
Definition slm_array (w : world) (slm : gmap string pyval) (key : string)
  : option ndarray :=
  match slm !! key with
  | Some (PyRef l) => heap w !! l
  | _ => None
  end.

(** ** [mesh_average]

    A BrainSpace surface as [mesh_average] reads it: the (c x 3) index array
    [get_cells] returns for a triangular mesh and the (n x 3) array of
    [get_points]. [read_surface] reads a file and [fun] is a numpy ufunc
    (by default [np.add]); they are parameters of the model, the ufunc
    through the function it applies to each pair of entries.
    [build_polydata] makes a surface of points and cells. The loop creates
    [np.empty(..., dtype=np.object)], which the NumPy releases that still
    provide the alias [np.object] accept. *)

Abbreviation point3 := (Q * Q * Q)%type.

Record polydata := PolyData {
  get_cells : list triangle;
  get_points : list point3
}.

(** An entry of the array [filenames]. *)
Inductive mesh_ref :=
| Surface (s : polydata)
| Filename (name : string).

(** The array [filenames]: the number of its dimensions and, for a 2-D
    array, its rows. *)
Record name_array := NameArray {
  names_ndim : nat;
  names_rows : list (list mesh_ref)
}.

(** What [mesh_average] returns: the SurfStat dictionary with its keys
    [tri] and [coord] (a (3 x n) array), or a BrainSpace surface. *)
Inductive mesh_out :=
| OutSurfStat (tri : list triangle) (coord : list (list Q))
| OutPolyData (s : polydata).

(** [enumerate]: the elements with their positions, as [range] and the
    subscripts [i], [j] visit them. *)
Definition enumerate {A} (l : list A) : list (nat * A) :=
  zip (seq 0 (length l)) l.

(** [tri + d] on an int64 array of triangles. *)
Definition tri_shift (d : Z) (t : triangle) : triangle :=
  (wrap64 (t.1.1 + d), wrap64 (t.1.2 + d), wrap64 (t.2 + d)).

Section mesh_average.
Context (read_surface : string → exn + polydata).
Context (f : Q → Q → Q).

Definition point_map2 (p q : point3) : point3 :=
  (f p.1.1 q.1.1, f p.1.2 q.1.2, f p.2 q.2).

(** [fun(a, b)] on two (n x 3) arrays, the first axis broadcast. *)
Definition fun_arrays (a b : list point3) : exn + list point3 :=
  match bdim (length a) (length b) with
  | Some n => inr (zip_with point_map2 (stretch n a) (stretch n b))
  | None => inl (ValueError "operands could not be broadcast together")
  end.

(** lines 233-236 *)
Definition surface_of (r : mesh_ref) : exn + polydata :=
  match r with
  | Surface s => inr s
  | Filename name => read_surface name
  end.

(** lines 230-246: one round of the loop over [j]. The names [tri] and
    [coord] are bound by the round with [j] 0. *)
Definition row_step (jr : nat * mesh_ref)
    (bound : option (list triangle * list point3))
  : exn + option (list triangle * list point3) :=
  s ← surface_of jr.2;
  if decide (jr.1 = 0%nat) then inr (Some (get_cells s, get_points s))
  else
    match bound with
    | Some (tri, coord) =>
        inr (Some (tri ++ (tri_shift (Z.of_nat (length coord)) <$> get_cells s),
                   coord ++ get_points s))
    | None => inl (NameError "tri")
    end.

Definition row_loop (bound : option (list triangle * list point3))
    (row : list mesh_ref) : exn + option (list triangle * list point3) :=
  for_each (enumerate row) row_step bound.

(** lines 227-253: one round of the loop over [i]; the state holds what
    [tri], [coord] and [m], [coord_all] are bound to, if anything. *)
Definition average_step (ir : nat * list mesh_ref)
    (st : option (list triangle * list point3) * option (Q * list point3))
  : exn + (option (list triangle * list point3) * option (Q * list point3)) :=
  bound ← row_loop st.1 ir.2;
  match bound with
  | None => inl (NameError "coord")
  | Some (tri, coord) =>
      if decide (ir.1 = 0%nat) then inr (bound, Some (1%Q, coord))
      else
        match st.2 with
        | Some (m, coord_all) =>
            coord_all ← fun_arrays coord_all coord;
            inr (bound, Some (f m 1%Q, coord_all))
        | None => inl (NameError "coord_all")
        end
  end.

Definition mesh_average (filenames : name_array) (output_surfstat : bool)
  : exn + mesh_out :=
  if decide (names_ndim filenames ≠ 2%nat) then
    inl (ValueError "Filenames must be a 2-dimensional array.")
  else
    st ← for_each (enumerate (names_rows filenames)) average_step (None, None);
    match st.2 with
    | None => inl (NameError "coord_all")
    | Some (m, coord_all) =>
        if qzero m then inl (NotModelled "division by zero")
        else
          let coord_all :=
            (λ p : point3, (qdiv p.1.1 m, qdiv p.1.2 m, qdiv p.2 m))
              <$> coord_all in
          match st.1 with
          | None => inl (NameError "tri")
          | Some (tri, _) =>
              if output_surfstat then
                inr (OutSurfStat (tri_shift 1 <$> tri)
                       [(λ p : point3, p.1.1) <$> coord_all;
                        (λ p : point3, p.1.2) <$> coord_all;
                        (λ p : point3, p.2) <$> coord_all])
              else inr (OutPolyData (PolyData tri coord_all))
          end
    end.

End mesh_average.

(** [np.fmin] and [np.fmax] on two numbers (neither of them a NaN): the
    functions the documentation of [mesh_average] names for [fun] besides
    [np.add]. *)
Definition np_fmin (a b : Q) : Q := if Qle_bool a b then a else b.
Definition np_fmax (a b : Q) : Q := if Qle_bool a b then b else a.

(** ** Vocabulary of the statements *)

(** The three sides of a triangle, as the caller wrote them. *)
Definition tri_sides (t : triangle) : list edge :=
  [(t.1.1, t.1.2); (t.1.1, t.2); (t.1.2, t.2)].

(** The canonical form of an unordered pair: smaller end first. *)
Definition canon (e : edge) : edge := (Z.min e.1 e.2, Z.max e.1 e.2).

(** The geometric edges of a triangle list, with repetitions. *)
Definition geometric_edges (tris : list triangle) : list edge :=
  canon <$> (tris ≫= tri_sides).

(** The vertices a triangle refers to. *)
Definition tri_vertices (t : triangle) : list Z := [t.1.1; t.1.2; t.2].

(** Triangle lists whose indices leave room for the shift by one. *)
Definition index_range (tris : list triangle) : Prop :=
  ∀ t v, t ∈ tris → v ∈ tri_vertices t → - 2 ^ 63 < v < 2 ^ 63.

(** The number of [True] entries of a mask. *)
Definition count_true (mask : list bool) : nat :=
  length (filter (λ b, b = true) mask).

(** Vertex [v] exists and the mask keeps it. *)
Definition mask_at (mask : list bool) (v : Z) : Prop :=
  0 ≤ v ∧ mask !! Z.to_nat v = Some true.

#[global] Instance mask_at_dec mask v : Decision (mask_at mask v).
Proof. unfold mask_at. apply _. Defined.

(** The edges refer to vertices the mask talks about. *)
Definition valid_edges (mask : list bool) (edges : list edge) : Prop :=
  ∀ e, e ∈ edges →
    0 ≤ e.1 < Z.of_nat (length mask) ∧ 0 ≤ e.2 < Z.of_nat (length mask).

(** The edges none of whose ends is masked out. *)
Definition surviving (mask : list bool) (edges : list edge) : list edge :=
  filter (λ e, mask_at mask e.1 ∧ mask_at mask e.2) edges.

(** The position of [v] among the distinct vertices of [Y], in ascending
    order: the number of distinct vertices of [Y] below [v]. *)
Definition renumber (Y : list edge) (v : Z) : Z :=
  Z.of_nat (length (filter (λ w, w < v) (remove_dups (flatten_edges Y)))).

(** The loop of [_make_contiguous], entry by entry. *)
Fixpoint relabel (k : Z) (val : list Z) (y : Z) : Z :=
  match val with
  | [] => y
  | v :: val => relabel (k + 1) val (if decide (y = v) then k else y)
  end.

(** The call raised. *)
Definition is_failure {A} (r : exn + A) : Prop := ∃ e, r = inl e.

(** An (n x m) array given by its rows. *)
Definition rect (n m : nat) (a : matrix) : Prop :=
  length a = n ∧ Forall (λ r, length r = m) a.

(** The call [m] started in [w] returns [a] (raises [e]) and leaves [w']. *)
Definition runs {A} (m : py A) (w w' : world) (a : A) : Prop :=
  m w = (w', inr a).
Definition fails {A} (m : py A) (w w' : world) (e : exn) : Prop :=
  m w = (w', inl e).

(** Residuals and their sums of squares, in the words of the
    specification: residuals = Y - X . coefficients, SSE = column-wise sum
    of squared residuals. *)
Definition residuals (Y X coef : matrix) : matrix :=
  zip_with (zip_with qsub) Y (matmul X coef).
Definition column_sse (res : matrix) : vector :=
  qsum <$> transpose (np_square res).

(** The dictionary the fitter returns. *)
Definition slm_result (Xl : loc) (df : Z) (coefl ssel : loc)
  : gmap string pyval :=
  <["SSE" := PyRef ssel]>
    (<["coef" := PyRef coefl]>
       (<["df" := PyInt df]>
          (<["X" := PyRef Xl]>
             {[ "X" := PyNone; "df" := PyNone; "coef" := PyNone;
                "SSE" := PyNone ]}))).

(** The packed SSE in the words of the specification: the row of the pair
    (j1, j2), j2 <= j1, holds for every vertex the inner product across
    observations of the residuals of components j1 and j2; the pairs come in
    the order (0,0), (1,0), (1,1), (2,0), ... The residuals are given as an
    (observations x vertices x components) array. *)
Definition spec_packed_SSE (k : nat) (res : list matrix) : matrix :=
  j1 ← seq 0 k; j2 ← seq 0 (S j1);
  [sum_axis0 (zip_with (zip_with qmul) (slice_last j1 res) (slice_last j2 res))].

(** The missing-intercept test in the words of the specification: the mean
    squared value of (I - X . pinv(X)) . 1 exceeds machine epsilon. *)
Definition spec_missing_intercept (X P : matrix) : bool :=
  let ones := np_ones (length X) 1 in
  mean_exceeds_spacing
    (np_square (zip_with (zip_with qsub) ones (matmul X (matmul P ones)))).

(** A template row: two voxel numbers in ascending order, between 1 and
    [hi]. *)
Definition good (hi : Z) (e : edge) : Prop := 1 ≤ e.1 ∧ e.1 < e.2 ∧ e.2 ≤ hi.

(** The rows [np.block] builds from an index set [c] and two offsets. *)
Definition pairs (t : list Z * Z * Z) : list edge :=
  (λ z, (z + t.1.2, z + t.2)) <$> t.1.1.

(** The index sets and offsets of the three blocks of the template. *)
Definition triples0 (I J f : Z) : list (list Z * Z * Z) :=
  [(c1 I J f, 0, 1); (c1 I J f, 0, I); (c1 I J f, 0, 1 + I);
   (c2 I J f, -1, 0); (c2 I J f, -1, -1 + I); (c2 I J f, 0, -1 + I);
   (c11 I J f, 0, I); (c21 I J f, - I, 0); (c12 I J f, 0, 1);
   (c22 I J f, -1, 0)].
Definition triples1 (I J f : Z) : list (list Z * Z * Z) :=
  [(c1 I J f, 0, I * J); (c1 I J f, 0, 1 + I * J); (c1 I J f, 0, I + I * J);
   (c11 I J f, 0, I * J); (c11 I J f, 0, I + I * J);
   (c12 I J f, 0, I * J); (c12 I J f, 0, 1 + I * J)].
Definition triples2 (I J f : Z) : list (list Z * Z * Z) :=
  [(c2 I J f, -1, -1 + I * J); (c2 I J f, 0, -1 + I * J);
   (c2 I J f, -1 + I, -1 + I * J);
   (c21 I J f, - I, - I + I * J); (c21 I J f, 0, - I + I * J);
   (c22 I J f, -1, -1 + I * J); (c22 I J f, 0, -1 + I * J)].

(** The parity class of the grid point with 0-based subscripts [x] and [y],
    as the template tests it on the 1-based ones. *)
Definition parity (f : Z) (x y : nat) : Prop :=
  (Z.of_nat x + 1 + (Z.of_nat y + 1)) `mod` 2 = f.

#[global] Instance parity_dec f x y : Decision (parity f x y).
Proof. unfold parity. apply _. Defined.

(** The extents of a lattice, a 2-D one counting as a single slice. *)
Definition lat_dims (lat : lattice) : option (nat * nat * nat) :=
  match lat_shape lat with
  | [ni; nj] => Some (ni, nj, 1%nat)
  | [ni; nj; nk] => Some (ni, nj, nk)
  | _ => None
  end.

(** The occupancy flags of a lattice in voxel order, the first subscript
    running fastest: voxel [i + I * (j + J * k)] is entry [(i, j, k)]. *)
Definition voxels (lat : lattice) : list bool :=
  match lat_dims lat with
  | Some (ni, nj, nk) => T_flatten ni nj nk (lat_buffer lat)
  | None => []
  end.

(** Voxel [q] exists and its flag is set. *)
Definition occupied (flat : list bool) (q : nat) : Prop :=
  flat !! q = Some true.

(** The compact 0-based number of voxel [q]: how many occupied voxels come
    before it. *)
Definition voxel_id (flat : list bool) (q : nat) : Z :=
  Z.of_nat (count_true (take q flat)).

(** The voxel a 1-based template entry stands for. *)
Definition voxel_of (z : Z) : nat := Z.to_nat (z - 1).

(** Both voxels of a template row are occupied. *)
Definition keep (flat : list bool) (e : edge) : bool :=
  default false (flat !! voxel_of e.1) && default false (flat !! voxel_of e.2).

(** A template row in compact numbers. *)
Definition compact (flat : list bool) (e : edge) : edge :=
  (voxel_id flat (voxel_of e.1), voxel_id flat (voxel_of e.2)).

(** Vertex [v] exists and the mask drops it. *)
Definition masked_out (mask : list bool) (v : Z) : Prop :=
  0 ≤ v ∧ mask !! Z.to_nat v = Some false.

#[global] Instance masked_out_dec mask v : Decision (masked_out mask v).
Proof. unfold masked_out. apply _. Defined.

(** The voxel with 0-based subscripts [p = (x, y, z)] of a lattice with
    extents [I], [J], [K], its number in voxel order and the 26-point
    neighbourhood. *)
Abbreviation point := (Z * Z * Z)%type.

Definition in_grid (I J K : Z) (p : point) : Prop :=
  0 ≤ p.1.1 < I ∧ 0 ≤ p.1.2 < J ∧ 0 ≤ p.2 < K.

Definition grid_number (I J : Z) (p : point) : Z :=
  p.1.1 + I * (p.1.2 + J * p.2).

Definition near (p q : point) : Prop :=
  -1 ≤ p.1.1 - q.1.1 ≤ 1 ∧ -1 ≤ p.1.2 - q.1.2 ≤ 1 ∧ -1 ≤ p.2 - q.2 ≤ 1.

(** A template row names two neighbouring voxels of the grid. *)
Definition neighbours (I J K : Z) (e : edge) : Prop :=
  ∃ p q, in_grid I J K p ∧ in_grid I J K q ∧ near p q ∧
         e.1 = 1 + grid_number I J p ∧ e.2 = 1 + grid_number I J q.

(** The cells of a row of surfaces after merging: those of each surface,
    with its vertex indices raised by the number of points of the surfaces
    before it ([off] for the first). *)
Fixpoint merged_cells (off : Z) (ss : list polydata) : list triangle :=
  match ss with
  | [] => []
  | s :: ss =>
      ((λ t : triangle, (t.1.1 + off, t.1.2 + off, t.2 + off)) <$> get_cells s)
        ++ merged_cells (off + Z.of_nat (length (get_points s))) ss
  end.

(** The cells of a surface refer to its own points. *)
Definition valid_cells (s : polydata) : Prop :=
  ∀ t v, t ∈ get_cells s → v ∈ tri_vertices t →
         0 ≤ v < Z.of_nat (length (get_points s)).

(** The points of an (n x 3) array, their equality as rational points and
    the mean of a list of points. *)
Definition point_at (c : list point3) (p : nat) : point3 :=
  default (0, 0, 0)%Q (c !! p).

Definition point_eq (a b : point3) : Prop :=
  Qeq a.1.1 b.1.1 ∧ Qeq a.1.2 b.1.2 ∧ Qeq a.2 b.2.

Definition Qsum (l : list Q) : Q := foldr Qplus 0%Q l.

Definition point_mean (ps : list point3) : point3 :=
  let n := inject_Z (Z.of_nat (length ps)) in
  ((Qsum ((λ p : point3, p.1.1) <$> ps) / n)%Q,
   (Qsum ((λ p : point3, p.1.2) <$> ps) / n)%Q,
   (Qsum ((λ p : point3, p.2) <$> ps) / n)%Q).

(** An (n x v x k) array given by its nested rows. *)
Definition rect3 (n v k : nat) (a : list matrix) : Prop :=
  length a = n ∧ Forall (rect v k) a.

(** The row of the packed SSE that belongs to the pair of components
    (j1, j2), j2 <= j1: the pairs are numbered (0,0), (1,0), (1,1),
    (2,0), ... *)
Definition packed_row (j1 j2 : nat) : nat := (j1 * (j1 + 1) / 2 + j2)%nat.

(** Coordinate [i] (0, 1 or 2) of a point. *)
Definition coordinate (i : nat) (p : point3) : Q :=
  match i with
  | 0%nat => p.1.1
  | 1%nat => p.1.2
  | _ => p.2
  end.

(** [x] is the least (the greatest) of the numbers [l]. *)
Definition least (x : Q) (l : list Q) : Prop :=
  (∃ y, y ∈ l ∧ Qeq x y) ∧ ∀ y, y ∈ l → (x <= y)%Q.
Definition greatest (x : Q) (l : list Q) : Prop :=
  (∃ y, y ∈ l ∧ Qeq x y) ∧ ∀ y, y ∈ l → (y <= x)%Q.

(** The rows the source assigns for the slice boundary [k] (between slices
    [k] and [k + 1], counted from 1): the three blocks of the parity class
    of [k], in the order of lines 144-154, and the row of the last voxel;
    and the rows it assigns for the top slice (lines 156-160). *)
Definition template_block (I J k : Z) : list edge :=
  let f := (k + 1) `mod` 2 in
  let IJ := I * J in
  eadd (if decide (f ≠ 0)
        then edg0 I J f ++ edg2 I J f ++ edg1 I J f ++ [(IJ, 2 * IJ)]
        else edg0 I J f ++ edg1 I J f ++ edg2 I J f ++ [(IJ, 2 * IJ)])
       ((k - 1) * IJ).

Definition top_block (I J K : Z) : list edge :=
  eadd (edg0 I J ((K + 1) `mod` 2)) ((K - 1) * (I * J)).

(** * Part II: properties *)

(** ** Facts about [np.unique] *)

Section np_unique_facts.
Context {A : Type} `{EqDecision A}.
Context (R : relation A) `{∀ x y, Decision (R x y)}.
Implicit Types (x y z : A) (l : list A).

Lemma uniq_adj_cons x l :
  uniq_adj (x :: l) = x :: uniq_adj l ∨ (uniq_adj (x :: l) = uniq_adj l ∧ hd_error l = Some x).
Proof.
  destruct l as [|y l]; simpl; [by left|].
  destruct (decide (x = y)) as [->|]; [by right|by left].
Qed.

Lemma elem_of_uniq_adj x l : x ∈ uniq_adj l ↔ x ∈ l.
Proof.
  induction l as [|y l IH]; [done|].
  destruct (uniq_adj_cons y l) as [->|[-> Hhd]].
  - rewrite !elem_of_cons, IH. done.
  - rewrite elem_of_cons, IH. split; [by right|].
    intros [->|?]; [|done].
    destruct l; simplify_eq/=. left.
Qed.

Context `{!PartialOrder R, !Total R}.

Lemma uniq_adj_StronglySorted l :
  StronglySorted R l → StronglySorted (strict R) (uniq_adj l).
Proof.
  induction 1 as [|x l Hl IH Hx]; [simpl; constructor|].
  destruct l as [|y l]; [simpl; repeat constructor|].
  change (uniq_adj (x :: y :: l))
    with (if decide (x = y) then uniq_adj (y :: l) else x :: uniq_adj (y :: l)).
  destruct (decide (x = y)) as [->|Hne]; [done|].
  constructor; [done|].
  apply Forall_forall. intros z Hz. rewrite elem_of_uniq_adj in Hz.
  rewrite Forall_forall in Hx. split; [by apply Hx|].
  intros Hzx. assert (z = x) as -> by (by apply (anti_symm R); [|apply Hx]).
  apply StronglySorted_cons in Hl as [Hy _]. rewrite Forall_forall in Hy.
  assert (R x y) by (apply Hx; left).
  assert (R y x) by (apply elem_of_cons in Hz as [->|Hz]; [done|by apply Hy]).
  by destruct Hne; apply (anti_symm R).
Qed.

Lemma np_unique_StronglySorted l : StronglySorted (strict R) (np_unique R l).
Proof. apply uniq_adj_StronglySorted, StronglySorted_merge_sort; apply _. Qed.

Lemma elem_of_np_unique x l : x ∈ np_unique R l ↔ x ∈ l.
Proof. unfold np_unique. by rewrite elem_of_uniq_adj, merge_sort_Permutation. Qed.

Lemma StronglySorted_strict_NoDup l : StronglySorted (strict R) l → NoDup l.
Proof.
  induction 1 as [|x l _ IH Hx]; constructor; [|done].
  rewrite Forall_forall in Hx. intros [_ Hxx]%Hx. by apply Hxx.
Qed.

Lemma np_unique_NoDup l : NoDup (np_unique R l).
Proof. apply StronglySorted_strict_NoDup, np_unique_StronglySorted. Qed.

(** The result of [np.unique] depends on the set of elements only. *)
Lemma np_unique_ext l1 l2 :
  (∀ x, x ∈ l1 ↔ x ∈ l2) → np_unique R l1 = np_unique R l2.
Proof.
  intros Hl. apply (StronglySorted_unique_strong (strict R)).
  - by intros x1 x2 _ _ [? Hn] [? _].
  - apply np_unique_StronglySorted.
  - apply np_unique_StronglySorted.
  - apply NoDup_Permutation; [apply np_unique_NoDup..|].
    intros x. by rewrite !elem_of_np_unique.
Qed.

Lemma np_unique_idemp_elems l x :
  x ∈ l → np_unique R (l ++ [x]) = np_unique R l.
Proof.
  intros Hx. apply np_unique_ext. intros y.
  rewrite elem_of_app, list_elem_of_singleton.
  split; [by intros [?| ->]|by left].
Qed.

End np_unique_facts.


(** ** Orders on integers and on rows *)

#[global] Instance row_le_po : PartialOrder row_le.
Proof.
  split; [split|].
  - intros [a b]. unfold row_le. simpl. lia.
  - intros [a b] [c d] [e f]. unfold row_le. simpl. lia.
  - intros [a b] [c d]. unfold row_le. simpl. intros ??. f_equal; lia.
Qed.

#[global] Instance row_le_total : Total row_le.
Proof. intros [a b] [c d]. unfold row_le. simpl. lia. Qed.

#[global] Instance Zle_po : PartialOrder Z.le.
Proof. split; [split|]; intros ?; intros; lia. Qed.

#[global] Instance Zle_total : Total Z.le.
Proof. intros ??. lia. Qed.


(** ** The triangle branch *)

Lemma sort3_sides t e :
  e ∈ tri_sides (sort3 t) ↔ e ∈ canon <$> tri_sides t.
Proof.
  destruct t as [[a b] c], e as [u v]. unfold sort3, tri_sides, canon. simpl.
  repeat case_decide; simpl;
    rewrite !elem_of_cons, !elem_of_nil, !pair_eq; lia.
Qed.

Lemma elem_of_tri_pairs tris e :
  e ∈ tri_pairs tris ↔ e ∈ geometric_edges tris.
Proof.
  unfold tri_pairs, geometric_edges.
  rewrite !elem_of_app, !list_elem_of_fmap.
  setoid_rewrite list_elem_of_bind. setoid_rewrite list_elem_of_fmap.
  split.
  - intros Hin.
    assert (∃ t, t ∈ tris ∧ e ∈ tri_sides (sort3 t)) as (t & Ht & He).
    { unfold tri_sides.
      destruct Hin as [[(?&->&t&->&?)|(?&->&t&->&?)]|(?&->&t&->&?)];
        exists t; (split; [done|]); rewrite !elem_of_cons; auto. }
    apply sort3_sides, list_elem_of_fmap in He as (s & -> & Hs). eauto.
  - intros (s & -> & t & Hs & Ht).
    assert (canon s ∈ tri_sides (sort3 t)) as He
      by (apply sort3_sides, list_elem_of_fmap; eauto).
    unfold tri_sides in He. rewrite !elem_of_cons, elem_of_nil in He.
    destruct He as [He|[He|[He|[]]]]; rewrite He;
      [left; left|left; right|right]; eexists; (split; [|eauto]); done.
Qed.

Lemma elem_of_tri_unique tris e :
  e ∈ tri_unique tris ↔ e ∈ geometric_edges tris.
Proof. unfold tri_unique. by rewrite elem_of_np_unique, elem_of_tri_pairs. Qed.

Ltac unfold_int64 :=
  unfold int64_triangle, int64_edge, int64, wrap64 in *;
  change (2 ^ 63) with 9223372036854775808 in *;
  change (2 ^ 64) with 18446744073709551616 in *.

Lemma wrap64_id z : int64 z → wrap64 z = z.
Proof. unfold_int64. intros ?. rewrite Z.mod_small; lia. Qed.

Lemma wrap64_sub1_inj a b :
  int64 a → int64 b → wrap64 (a - 1) = wrap64 (b - 1) → a = b.
Proof. unfold_int64. intros. Z.to_euclidean_division_equations. lia. Qed.

Lemma sub1_inj e1 e2 :
  int64_edge e1 → int64_edge e2 → sub1 e1 = sub1 e2 → e1 = e2.
Proof.
  destruct e1, e2. unfold int64_edge, sub1. simpl. intros [??] [??] [= ??].
  f_equal; by apply wrap64_sub1_inj.
Qed.

Lemma geometric_edges_vertices tris e :
  e ∈ geometric_edges tris →
  ∃ t, t ∈ tris ∧ e.1 ∈ tri_vertices t ∧ e.2 ∈ tri_vertices t.
Proof.
  unfold geometric_edges. rewrite list_elem_of_fmap.
  intros (s & -> & (t & Hs & Ht)%list_elem_of_bind). exists t. split; [done|].
  destruct t as [[a b] c]. revert Hs. unfold tri_sides, tri_vertices, canon.
  rewrite !elem_of_cons, !elem_of_nil. simpl.
  intros [->|[->|[->|[]]]]; simpl; lia.
Qed.

Lemma vertex_in_geometric_edges tris t v :
  t ∈ tris → v ∈ tri_vertices t →
  ∃ e, e ∈ geometric_edges tris ∧ (e.1 = v ∨ e.2 = v).
Proof.
  intros Ht Hv. destruct t as [[a b] c]. revert Hv.
  unfold tri_vertices. rewrite !elem_of_cons, elem_of_nil. simpl. intros Hv.
  assert (∃ s, s ∈ tri_sides (a, b, c) ∧ (s.1 = v ∨ s.2 = v)) as (s & Hs & Hsv).
  { unfold tri_sides. simpl. destruct Hv as [->|[->|[->|[]]]].
    - exists (a, b). rewrite elem_of_cons. auto.
    - exists (a, b). rewrite elem_of_cons. auto.
    - exists (a, c). rewrite !elem_of_cons. auto. }
  exists (canon s). split.
  - unfold geometric_edges. apply list_elem_of_fmap. exists s. split; [done|].
    apply list_elem_of_bind. eauto.
  - unfold canon. simpl. lia.
Qed.

Lemma geometric_edges_int64 tris e :
  Forall int64_triangle tris → e ∈ geometric_edges tris → int64_edge e.
Proof.
  rewrite Forall_forall. intros Htris (t & Ht & H1 & H2)%geometric_edges_vertices.
  apply Htris in Ht. destruct t as [[a b] c], e as [u v].
  unfold int64_triangle in Ht. revert H1 H2. unfold tri_vertices, int64_edge.
  rewrite !elem_of_cons, !elem_of_nil. simpl in *.
  intros [->|[->|[->|[]]]] [->|[->|[->|[]]]]; tauto.
Qed.

Lemma geometric_edges_Permutation tris tris' e :
  tris' ≡ₚ tris → e ∈ geometric_edges tris' ↔ e ∈ geometric_edges tris.
Proof. unfold geometric_edges. by intros ->. Qed.

Lemma tri_edges_ext tris tris' :
  (∀ e, e ∈ geometric_edges tris' ↔ e ∈ geometric_edges tris) →
  tri_edges tris' = tri_edges tris.
Proof.
  intros Hext. unfold tri_edges, tri_unique. f_equal.
  apply np_unique_ext; [apply _..|]. intros e. by rewrite !elem_of_tri_pairs.
Qed.

(** C6. On the triangle path every geometric edge (canonical unordered pair
    of two vertices of one triangle) is returned exactly once; the rows come
    in ascending lexicographic order of the canonical pairs, whatever the
    order of the triangles; appending a triangle that is already present
    leaves the result unchanged. *)
Theorem tri_edges_unique_deterministic (tris : list triangle) :
  Forall int64_triangle tris →
  NoDup (tri_edges tris) ∧
  (∀ e, e ∈ tri_edges tris ↔ ∃ g, g ∈ geometric_edges tris ∧ e = sub1 g) ∧
  (∃ rows, tri_edges tris = sub1 <$> rows ∧
           StronglySorted (strict row_le) rows ∧
           ∀ g, g ∈ rows ↔ g ∈ geometric_edges tris) ∧
  (∀ tris', tris' ≡ₚ tris → tri_edges tris' = tri_edges tris) ∧
  (∀ t, t ∈ tris → tri_edges (tris ++ [t]) = tri_edges tris).
Proof.
  intros Htris. repeat split.
  - unfold tri_edges. apply NoDup_fmap_2_strong.
    + intros e1 e2 H1%elem_of_tri_unique H2%elem_of_tri_unique.
      apply sub1_inj; by eapply geometric_edges_int64.
    + apply np_unique_NoDup; apply _.
  - unfold tri_edges. rewrite list_elem_of_fmap. intros (g & -> & Hg).
    exists g. by rewrite <-elem_of_tri_unique.
  - intros (g & Hg & ->). unfold tri_edges. apply list_elem_of_fmap_2.
    by apply elem_of_tri_unique.
  - exists (tri_unique tris). split; [done|]. split.
    + apply np_unique_StronglySorted; apply _.
    + apply elem_of_tri_unique.
  - intros tris' Hp. apply tri_edges_ext. intros e.
    by apply geometric_edges_Permutation.
  - intros t Ht. apply tri_edges_ext. intros e. unfold geometric_edges.
    rewrite !list_elem_of_fmap. setoid_rewrite list_elem_of_bind.
    setoid_rewrite elem_of_app. setoid_rewrite list_elem_of_singleton.
    naive_solver.
Qed.

Lemma tri_edges_unique_deterministic_witness :
  tri_edges ([(1, 2, 3); (3, 2, 4)] ++ [(1, 2, 3)])
  = tri_edges [(1, 2, 3); (3, 2, 4)].
Proof.
  apply (tri_edges_unique_deterministic [(1, 2, 3); (3, 2, 4)]).
  - repeat constructor; unfold_int64; simpl; lia.
  - left.
Defined.

Lemma index_range_int64 tris : index_range tris → Forall int64_triangle tris.
Proof.
  intros Hr. apply Forall_forall. intros [[a b] c] Ht.
  pose proof (Hr _ a Ht). pose proof (Hr _ b Ht). pose proof (Hr _ c Ht).
  revert H H0 H1. unfold tri_vertices. rewrite !elem_of_cons. simpl.
  unfold_int64. simpl. intros. repeat split; lia.
Qed.

Lemma elem_of_tri_edges_shift tris e :
  index_range tris →
  e ∈ tri_edges tris ↔ (e.1 + 1, e.2 + 1) ∈ geometric_edges tris.
Proof.
  intros Hr. unfold tri_edges. rewrite list_elem_of_fmap.
  setoid_rewrite elem_of_tri_unique.
  assert (∀ g, g ∈ geometric_edges tris → sub1 g = (g.1 - 1, g.2 - 1)) as Hsub.
  { intros g (t & Ht & H1 & H2)%geometric_edges_vertices.
    apply (Hr _ _ Ht) in H1, H2. unfold sub1.
    rewrite !wrap64_id; [done|unfold_int64; lia..]. }
  split.
  - intros (g & -> & Hg). rewrite (Hsub _ Hg). simpl.
    destruct g as [u v]. simpl.
    by replace (u - 1 + 1) with u by lia; replace (v - 1 + 1) with v by lia.
  - intros Hg. eexists. split; [|done]. rewrite (Hsub _ Hg).
    destruct e as [u v]. simpl. f_equal; lia.
Qed.

(** C10. On the triangle path the result is the list of canonical,
    deduplicated pairs with one subtracted from every index: a pair is
    returned exactly when the pair one higher is a geometric edge of the
    input. So the result is 0-based (no negative entry) exactly when every
    input index is at least 1, and an input that refers to vertex 0 yields a
    row that holds -1. *)
Theorem tri_edges_subtracts_one (tris : list triangle) :
  index_range tris →
  tri_edges tris = sub1 <$> np_unique row_le (tri_pairs tris) ∧
  (∀ e, e ∈ tri_edges tris ↔ (e.1 + 1, e.2 + 1) ∈ geometric_edges tris) ∧
  ((∀ e, e ∈ tri_edges tris → 0 ≤ e.1 ∧ 0 ≤ e.2) ↔
   (∀ t v, t ∈ tris → v ∈ tri_vertices t → 1 ≤ v)) ∧
  ((∃ t, t ∈ tris ∧ 0 ∈ tri_vertices t) →
   ∃ e, e ∈ tri_edges tris ∧ (e.1 = -1 ∨ e.2 = -1)).
Proof.
  intros Hr. split; [done|]. split; [intros e; by apply elem_of_tri_edges_shift|].
  split; [split|].
  - intros Hpos t v Ht Hv.
    destruct (vertex_in_geometric_edges tris t v Ht Hv) as ([a b] & Hg & Hab).
    assert ((a - 1, b - 1) ∈ tri_edges tris) as He.
    { apply elem_of_tri_edges_shift; [done|]. simpl.
      by replace (a - 1 + 1) with a by lia; replace (b - 1 + 1) with b by lia. }
    apply Hpos in He. simpl in *. lia.
  - intros Hone e He%elem_of_tri_edges_shift; [|done].
    apply geometric_edges_vertices in He as (t & Ht & H1 & H2). simpl in *.
    apply (Hone _ _ Ht) in H1, H2. lia.
  - intros (t & Ht & Hv).
    destruct (vertex_in_geometric_edges tris t 0 Ht Hv) as ([a b] & Hg & Hab).
    exists (a - 1, b - 1). split.
    + apply elem_of_tri_edges_shift; [done|]. simpl.
      by replace (a - 1 + 1) with a by lia; replace (b - 1 + 1) with b by lia.
    + simpl in *. lia.
Qed.

Lemma tri_edges_subtracts_one_witness :
  ∃ e, e ∈ tri_edges [(0, 1, 2)] ∧ (e.1 = -1 ∨ e.2 = -1).
Proof.
  apply (tri_edges_subtracts_one [(0, 1, 2)]).
  - intros t v ->%list_elem_of_singleton. unfold tri_vertices.
    rewrite !elem_of_cons, elem_of_nil. simpl. lia.
  - exists (0, 1, 2). split; [left|left].
Defined.

(** ** Masking and renumbering *)

Lemma elem_of_np_where b z :
  z ∈ np_where b ↔ 0 ≤ z ∧ b !! Z.to_nat z = Some true.
Proof.
  unfold np_where. rewrite list_elem_of_fmap. split.
  - intros (p & -> & [Hp _]%list_elem_of_filter). by rewrite Nat2Z.id; split; [lia|].
  - intros [Hz Hb]. exists (Z.to_nat z). split; [lia|].
    apply list_elem_of_filter. split; [done|].
    apply elem_of_seq. apply lookup_lt_Some in Hb. lia.
Qed.

Lemma bool_index_fmap {A} (f : A → bool) (l : list A) :
  bool_index (f <$> l) l = filter (λ x, f x = true) l.
Proof.
  induction l as [|x l IH]; [done|]. csimpl. rewrite filter_cons, IH.
  by destruct (f x).
Qed.

Lemma filter_ext_in {A} (P Q : A → Prop) `{!∀ x, Decision (P x), !∀ x, Decision (Q x)}
    (l : list A) :
  (∀ x, x ∈ l → P x ↔ Q x) → filter P l = filter Q l.
Proof.
  induction l as [|x l IH]; [done|]. intros Hl. rewrite !filter_cons, IH.
  - apply decide_ext, Hl. left.
  - intros y Hy. apply Hl. by right.
Qed.

Lemma not_missing mask v :
  0 ≤ v < Z.of_nat (length mask) →
  v ∉ np_where (negb <$> mask) ↔ mask_at mask v.
Proof.
  intros Hv. rewrite elem_of_np_where, list_lookup_fmap. unfold mask_at.
  destruct (lookup_lt_is_Some_2 mask (Z.to_nat v)) as [b Hb]; [lia|].
  rewrite Hb. destruct b; simpl; naive_solver.
Qed.

Lemma mask_edges_row mask (e : edge) :
  0 ≤ e.1 < Z.of_nat (length mask) ∧ 0 ≤ e.2 < Z.of_nat (length mask) →
  negb (bool_decide (e.1 ∈ np_where (negb <$> mask))
        || bool_decide (e.2 ∈ np_where (negb <$> mask)))
  = bool_decide (mask_at mask e.1 ∧ mask_at mask e.2).
Proof.
  intros [H1 H2]. apply not_missing in H1, H2.
  repeat case_bool_decide; simpl; tauto.
Qed.

Lemma mask_edges_idx edges mask :
  valid_edges mask edges →
  (_mask_edges edges mask).2
  = (λ e, bool_decide (mask_at mask e.1 ∧ mask_at mask e.2)) <$> edges.
Proof.
  intros Hv. unfold _mask_edges. simpl. rewrite <-list_fmap_compose.
  apply Forall_fmap_ext, Forall_forall. intros e He. simpl.
  by apply mask_edges_row, Hv.
Qed.

Lemma mask_edges_kept edges mask :
  valid_edges mask edges →
  (_mask_edges edges mask).1 = _make_contiguous (surviving mask edges).
Proof.
  intros Hv. unfold _mask_edges, surviving. simpl. f_equal.
  rewrite <-list_fmap_compose, bool_index_fmap.
  apply filter_ext_in. intros e He. simpl.
  rewrite mask_edges_row by by apply Hv. by rewrite bool_decide_eq_true.
Qed.

Lemma make_contiguous_loop (val : list Z) (Y : list edge) (pre : list Z) :
  foldl (λ Y i,
           match (pre ++ val) !! i with
           | Some v => assign_where v (Z.of_nat i) Y
           | None => Y
           end) Y (seq (length pre) (length val))
  = (λ e, (relabel (Z.of_nat (length pre)) val e.1,
           relabel (Z.of_nat (length pre)) val e.2)) <$> Y.
Proof.
  revert Y pre. induction val as [|v val IH]; intros Y pre; simpl.
  - induction Y as [|[??] Y IHY]; by f_equal/=.
  - rewrite lookup_app_r, Nat.sub_diag by done. simpl.
    replace (pre ++ v :: val) with ((pre ++ [v]) ++ val) by by rewrite <-app_assoc.
    specialize (IH (assign_where v (Z.of_nat (length pre)) Y) (pre ++ [v])).
    rewrite length_app, Nat.add_1_r in IH. rewrite IH.
    unfold assign_where. rewrite <-list_fmap_compose.
    apply list_fmap_ext. intros _ e _. simpl.
    by rewrite Nat2Z.inj_succ, <-Z.add_1_r.
Qed.

Lemma relabel_not_in k val y : y ∉ val → relabel k val y = y.
Proof.
  revert k. induction val as [|v val IH]; intros k; [done|].
  rewrite not_elem_of_cons. intros [??]. simpl.
  rewrite decide_False by done. by apply IH.
Qed.

Lemma relabel_lookup k val j y :
  StronglySorted Z.lt val → Forall (Z.le k) val →
  val !! j = Some y → relabel k val y = k + Z.of_nat j.
Proof.
  revert k j. induction val as [|v val IH]; intros k j Hs Hk Hj; [done|].
  apply StronglySorted_cons in Hs as [Hv Hs]. apply Forall_cons in Hk as [Hkv Hk].
  rewrite Forall_forall in Hv. simpl. destruct j as [|j]; simplify_eq/=.
  - rewrite decide_True by done. rewrite relabel_not_in; [lia|].
    intros Hin%Hv. lia.
  - assert (v < y) by by eapply Hv, list_elem_of_lookup_2.
    rewrite decide_False by lia. rewrite (IH (k + 1) j); [lia|done| |done].
    apply Forall_forall. intros w Hw%Hv. lia.
Qed.

Lemma StronglySorted_strict_le l :
  StronglySorted (strict Z.le) l → StronglySorted Z.lt l.
Proof.
  induction 1 as [|x l _ IH Hx]; constructor; [done|].
  eapply Forall_impl; [done|]. intros y [??]. lia.
Qed.

Lemma filter_none {A} (P : A → Prop) `{!∀ x, Decision (P x)} (l : list A) :
  (∀ x, x ∈ l → ¬ P x) → filter P l = [].
Proof.
  induction l as [|x l IH]; [done|]. intros Hl.
  rewrite filter_cons, decide_False by (apply Hl; left).
  apply IH. intros y Hy. apply Hl. by right.
Qed.

Lemma sorted_index_count val j y :
  StronglySorted Z.lt val → val !! j = Some y →
  length (filter (λ w, w < y) val) = j.
Proof.
  revert j. induction val as [|v val IH]; intros j Hs Hj; [done|].
  apply StronglySorted_cons in Hs as [Hv Hs]. rewrite Forall_forall in Hv.
  rewrite filter_cons. destruct j as [|j]; simplify_eq/=.
  - rewrite decide_False by lia. rewrite filter_none; [done|].
    intros x Hx%Hv. lia.
  - assert (v < y) by by eapply Hv, list_elem_of_lookup_2.
    rewrite decide_True by done. simpl. f_equal. by apply IH.
Qed.

Lemma elem_of_flatten_edges (Y : list edge) v :
  v ∈ flatten_edges Y ↔ ∃ e, e ∈ Y ∧ (e.1 = v ∨ e.2 = v).
Proof.
  unfold flatten_edges. rewrite list_elem_of_bind.
  setoid_rewrite elem_of_cons. setoid_rewrite elem_of_cons.
  setoid_rewrite elem_of_nil. naive_solver.
Qed.

Lemma np_unique_Z_sorted l : StronglySorted Z.lt (np_unique Z.le l).
Proof. apply StronglySorted_strict_le, np_unique_StronglySorted; apply _. Qed.

Lemma renumber_unique Y v :
  renumber Y v
  = Z.of_nat (length (filter (λ w, w < v) (np_unique Z.le (flatten_edges Y)))).
Proof.
  unfold renumber. f_equal. apply Permutation_length. f_equiv.
  apply NoDup_Permutation.
  - apply NoDup_remove_dups.
  - apply np_unique_NoDup; apply _.
  - intros x. by rewrite elem_of_remove_dups, elem_of_np_unique by apply _.
Qed.

Lemma make_contiguous_spec (Y : list edge) :
  (∀ e, e ∈ Y → 0 ≤ e.1 ∧ 0 ≤ e.2) →
  _make_contiguous Y = (λ e, (renumber Y e.1, renumber Y e.2)) <$> Y.
Proof.
  intros Hpos. unfold _make_contiguous.
  pose proof (make_contiguous_loop (np_unique Z.le (flatten_edges Y)) Y [])
    as Hloop. simpl in Hloop. rewrite Hloop. clear Hloop.
  apply Forall_fmap_ext, Forall_forall. intros e He.
  assert (∀ v, v ∈ flatten_edges Y →
            relabel 0 (np_unique Z.le (flatten_edges Y)) v = renumber Y v) as Hv.
  { intros v Hv. rewrite renumber_unique.
    assert (v ∈ np_unique Z.le (flatten_edges Y)) as [j Hj]%list_elem_of_lookup_1
      by by apply elem_of_np_unique; [apply _..|].
    rewrite (sorted_index_count _ j) by auto using np_unique_Z_sorted.
    rewrite (relabel_lookup 0 _ j); [lia|apply np_unique_Z_sorted| |done].
    apply Forall_forall. intros w Hw. rewrite elem_of_np_unique in Hw by apply _.
    apply elem_of_flatten_edges in Hw as (e' & He' & [<-|<-]); by apply Hpos. }
  f_equal; apply Hv, elem_of_flatten_edges; eauto.
Qed.

Lemma count_true_where_from (b : list bool) (k : nat) :
  length (filter (λ p, b !! (p - k)%nat = Some true) (seq k (length b)))
  = count_true b.
Proof.
  revert k. induction b as [|x b IH]; intros k; [done|].
  unfold count_true. simpl. rewrite !filter_cons, Nat.sub_diag. simpl.
  rewrite (filter_ext_in _ (λ p, b !! (p - S k)%nat = Some true)).
  - destruct x.
    + rewrite !decide_True by done. simpl. f_equal. apply IH.
    + rewrite !decide_False by done. apply IH.
  - intros p [Hp _]%elem_of_seq. by replace (p - k)%nat with (S (p - S k)) by lia.
Qed.

Lemma count_true_where (b : list bool) :
  length (filter (λ p, b !! p = Some true) (seq 0 (length b))) = count_true b.
Proof.
  rewrite <-(count_true_where_from b 0). f_equal. apply filter_ext_in.
  intros p _. by rewrite Nat.sub_0_r.
Qed.

Lemma distinct_kept_vertices (mask : list bool) (D : list Z) :
  NoDup D → (∀ v, v ∈ D → mask_at mask v) →
  (length D ≤ count_true mask)%nat.
Proof.
  intros Hnd HD. rewrite <-count_true_where, <-(length_fmap Z.to_nat D).
  apply submseteq_length, NoDup_submseteq.
  - apply NoDup_fmap_2_strong; [|done].
    intros v w [??]%HD [??]%HD ?. lia.
  - intros p (v & -> & [? Hv]%HD)%list_elem_of_fmap.
    apply list_elem_of_filter. split; [done|].
    apply elem_of_seq. apply lookup_lt_Some in Hv. lia.
Qed.

Lemma renumber_lt (Y : list edge) v w :
  v ∈ flatten_edges Y → v < w → renumber Y v < renumber Y w.
Proof.
  intros Hv Hvw. unfold renumber. apply inj_lt.
  rewrite <-(list_filter_filter_l (λ x, x < v) (λ x, x < w)) by (intros; lia).
  apply (length_filter_lt _ _ v); [|lia].
  apply list_elem_of_filter. split; [done|]. by apply elem_of_remove_dups.
Qed.

Lemma renumber_le (Y : list edge) v w : v ≤ w → renumber Y v ≤ renumber Y w.
Proof.
  intros Hvw. unfold renumber. apply inj_le.
  rewrite <-(list_filter_filter_l (λ x, x < v) (λ x, x < w)) by (intros; lia).
  apply length_filter.
Qed.

Lemma renumber_bound (Y : list edge) v :
  v ∈ flatten_edges Y →
  0 ≤ renumber Y v < Z.of_nat (length (remove_dups (flatten_edges Y))).
Proof.
  intros Hv. unfold renumber. split; [lia|]. apply inj_lt.
  apply (length_filter_lt _ _ v); [|lia]. by apply elem_of_remove_dups.
Qed.

Lemma renumber_onto (Y : list edge) i :
  0 ≤ i < Z.of_nat (length (remove_dups (flatten_edges Y))) →
  ∃ v, v ∈ flatten_edges Y ∧ renumber Y v = i.
Proof.
  intros Hi.
  assert (length (remove_dups (flatten_edges Y))
          = length (np_unique Z.le (flatten_edges Y))) as Hlen.
  { apply Permutation_length, NoDup_Permutation.
    - apply NoDup_remove_dups.
    - apply np_unique_NoDup; apply _.
    - intros x. by rewrite elem_of_remove_dups, elem_of_np_unique by apply _. }
  destruct (lookup_lt_is_Some_2 (np_unique Z.le (flatten_edges Y)) (Z.to_nat i))
    as [v Hv]; [lia|].
  exists v. split.
  - apply list_elem_of_lookup_2 in Hv. by rewrite elem_of_np_unique in Hv by apply _.
  - rewrite renumber_unique.
    rewrite (sorted_index_count _ (Z.to_nat i)) by auto using np_unique_Z_sorted.
    lia.
Qed.

(** C7. For an edge list over the vertices of the mask, [_mask_edges] keeps
    exactly the edges both of whose ends the mask keeps, and replaces every
    surviving vertex index by its position among the distinct surviving
    indices: the new indices fill the range from 0 without gaps, in the
    order of the old ones, and every index of the result is below the number
    of [True] entries of the mask. *)
Theorem mask_edges_contiguous (edges : list edge) (mask : list bool) :
  valid_edges mask edges →
  let kept := surviving mask edges in
  let m := Z.of_nat (length (remove_dups (flatten_edges kept))) in
  (_mask_edges edges mask).2
    = (λ e, bool_decide (mask_at mask e.1 ∧ mask_at mask e.2)) <$> edges ∧
  (_mask_edges edges mask).1
    = (λ e, (renumber kept e.1, renumber kept e.2)) <$> kept ∧
  (∀ v w, v ∈ flatten_edges kept → w ∈ flatten_edges kept →
          v < w ↔ renumber kept v < renumber kept w) ∧
  (∀ i, 0 ≤ i < m ↔ ∃ v, v ∈ flatten_edges kept ∧ renumber kept v = i) ∧
  (∀ e, e ∈ (_mask_edges edges mask).1 →
        0 ≤ e.1 < Z.of_nat (count_true mask) ∧
        0 ≤ e.2 < Z.of_nat (count_true mask)).
Proof.
  intros Hvalid kept m.
  assert (∀ e, e ∈ kept → mask_at mask e.1 ∧ mask_at mask e.2) as Hkept.
  { intros e He. by apply list_elem_of_filter in He as [? _]. }
  assert ((_mask_edges edges mask).1
          = (λ e, (renumber kept e.1, renumber kept e.2)) <$> kept) as Hout.
  { rewrite mask_edges_kept by done. apply make_contiguous_spec.
    intros e [[? _] [? _]]%Hkept. done. }
  assert (m ≤ Z.of_nat (count_true mask)) as Hm.
  { apply inj_le, distinct_kept_vertices; [apply NoDup_remove_dups|].
    intros v Hv. rewrite elem_of_remove_dups in Hv.
    apply elem_of_flatten_edges in Hv as (e & He & [<-|<-]);
      by apply Hkept in He as [??]. }
  split; [by apply mask_edges_idx|]. split; [done|]. split; [|split].
  - intros v w Hv Hw. split; [by apply renumber_lt|].
    intros Hlt. destruct (decide (v < w)) as [|Hn]; [done|].
    pose proof (renumber_le kept w v). lia.
  - intros i. split; [apply renumber_onto|].
    intros (v & Hv & <-). by apply renumber_bound.
  - intros e. rewrite Hout. intros (e' & -> & He')%list_elem_of_fmap. simpl.
    pose proof (renumber_bound kept e'.1) as H1.
    pose proof (renumber_bound kept e'.2) as H2.
    fold m in H1, H2. rewrite elem_of_flatten_edges in H1, H2.
    split; [destruct H1|destruct H2]; eauto; lia.
Qed.

Lemma mask_edges_contiguous_witness :
  (_mask_edges [(0, 1); (1, 2); (2, 3); (0, 3)] [true; false; true; true]).1
  = [(1, 2); (0, 2)] ∧
  (_mask_edges [(0, 1); (1, 2); (2, 3); (0, 3)] [true; false; true; true]).2
  = [false; false; true; true].
Proof.
  pose proof (mask_edges_contiguous [(0, 1); (1, 2); (2, 3); (0, 3)]
                [true; false; true; true]) as H.
  destruct H as (H2 & H1 & _).
  - intros e He. repeat (apply elem_of_cons in He as [->|He]; [simpl; lia|]).
    by apply elem_of_nil in He.
  - split; [rewrite H1|rewrite H2]; reflexivity.
Defined.

(** ** Dispatch on the mesh object *)

(** C9, at a failing input. An [SLM] object whose attributes [tri], [lat]
    and [surf] are all [None]: line 40 builds the [ValueError] that names
    the missing data but does not raise it, so the call does not stop
    there. It goes on to the membership test ["tri" in surf] on the [SLM]
    object itself and ends in the [TypeError] Python raises for an object
    that is no container: neither the error built on line 40 nor the exit
    for an unsupported mesh. A dictionary without the keys ["tri"] and
    ["lat"] (lines 185-186) does exit with the message that names the
    supported formats, with or without a mask. *)
Theorem mesh_edges_slm_without_mesh (mask : option (list bool)) :
  mesh_edges (SLM None None None) mask
    = inl (TypeError "argument of type 'SLM' is not iterable") ∧
  mesh_edges (SLM None None None) mask
    ≠ inl (ValueError "SLM object does not have triangle/lattice data.") ∧
  mesh_edges (SLM None None None) mask ≠ inl (SystemExit unsupported_msg) ∧
  (∀ d, d !! "tri" = None → d !! "lat" = None →
        mesh_edges (Dict d) mask = inl (SystemExit unsupported_msg)).
Proof.
  split; [done|]. split; [done|]. split; [done|].
  intros d Ht Hl. simpl. unfold dict_edges. by rewrite Ht, Hl.
Qed.

(** ** The store monad *)

Lemma runs_bind {A B} (m : py A) (f : A → py B) w w1 w2 a b :
  runs m w w1 a → runs (f a) w1 w2 b → runs (m ≫= f) w w2 b.
Proof. unfold runs, mbind, py_bind. by intros -> ->. Qed.

Lemma fails_bind_l {A B} (m : py A) (f : A → py B) w w1 e :
  fails m w w1 e → fails (m ≫= f) w w1 e.
Proof. unfold fails, mbind, py_bind. by intros ->. Qed.

Lemma fails_bind_r {A B} (m : py A) (f : A → py B) w w1 w2 a e :
  runs m w w1 a → fails (f a) w1 w2 e → fails (m ≫= f) w w2 e.
Proof. unfold runs, fails, mbind, py_bind. by intros -> ->. Qed.

Lemma runs_ret {A} (a : A) w : runs (mret a) w w a.
Proof. done. Qed.

Lemma runs_lift {A} (r : exn + A) a w : r = inr a → runs (lift r) w w a.
Proof. by intros ->. Qed.

Lemma fails_lift {A} (r : exn + A) e w : r = inl e → fails (lift r) w w e.
Proof. by intros ->. Qed.

Lemma runs_load l a w : heap w !! l = Some a → runs (load l) w w a.
Proof. unfold runs, load. by intros ->. Qed.

Lemma runs_load2 l a w : heap w !! l = Some (Arr2 a) → runs (load2 l) w w a.
Proof. intros H. eapply runs_bind; [by apply runs_load|]. apply runs_ret. Qed.

Lemma runs_alloc a w :
  runs (alloc a) w (World (heap w ++ [a]) (stdout w)) (length (heap w)).
Proof. done. Qed.

Lemma runs_store l a w :
  runs (store l a) w (World (<[l := a]> (heap w)) (stdout w)) ().
Proof. done. Qed.

(** ** Shapes *)

Lemma rect_ncols n m a : rect n m a → (0 < n)%nat → ncols a = m.
Proof.
  intros [Hn Hall] ?. destruct a as [|r a]; simpl in *; [lia|].
  by apply Forall_cons in Hall as [? _].
Qed.

Lemma stretch_id {A} n (l : list A) : length l = n → stretch n l = l.
Proof. destruct l as [|x [|??]]; simpl; by intros <-. Qed.

Lemma broadcast_to_id r c a : rect r c a → broadcast_to r c a = a.
Proof.
  intros [Hr Hc]. unfold broadcast_to. rewrite stretch_id.
  - rewrite <-(list_fmap_id a) at 2. apply Forall_fmap_ext.
    eapply Forall_impl; [done|]. intros row ?. by apply stretch_id.
  - by rewrite length_fmap.
Qed.

Lemma length_column j a : length (column j a) = length a.
Proof. unfold column. by rewrite length_fmap. Qed.

Lemma rect_transpose n m a :
  rect n m a → (0 < n)%nat → rect m n (transpose a).
Proof.
  intros Ha Hn. unfold transpose. rewrite (rect_ncols n m) by done.
  split; [by rewrite length_fmap, length_seq|].
  apply Forall_fmap, Forall_forall. intros j _. simpl.
  rewrite length_column. apply Ha.
Qed.

Lemma rect_matmul n p v a b :
  rect n p a → rect p v b → (0 < p)%nat → rect n v (matmul a b).
Proof.
  intros [Hn _] Hb Hp. unfold matmul. split; [by rewrite length_fmap|].
  apply Forall_fmap, Forall_forall. intros r _. simpl.
  rewrite length_fmap. by apply (rect_transpose p v).
Qed.

Lemma np_dot_ok n p v a b :
  rect n p a → rect p v b → (0 < n)%nat → np_dot a b = inr (matmul a b).
Proof.
  intros Ha [Hb _] Hn. unfold np_dot.
  by rewrite (rect_ncols n p), Hb, decide_True.
Qed.

Lemma rect_zip_with f n m a b :
  rect n m a → rect n m b → rect n m (zip_with (zip_with f) a b).
Proof.
  intros [Ha Har] [Hb Hbr]. split; [rewrite length_zip_with; lia|].
  apply Forall_forall. intros r Hr.
  apply elem_of_lookup_zip_with in Hr as (i & x & y & -> & Hx & Hy).
  apply list_elem_of_lookup_2 in Hx, Hy.
  rewrite Forall_forall in Har, Hbr. rewrite length_zip_with.
  rewrite (Har _ Hx), (Hbr _ Hy). lia.
Qed.

Lemma bdim_same x : bdim x x = Some x.
Proof. unfold bdim. by rewrite decide_True. Qed.

Lemma bdim_1_l x : bdim 1 x = Some x.
Proof. unfold bdim. repeat case_decide; by subst. Qed.

Lemma bdim_1_r x : bdim x 1 = Some x.
Proof. unfold bdim. repeat case_decide; by subst. Qed.

Lemma broadcast2_same f n m a b :
  rect n m a → rect n m b → (0 < n)%nat →
  broadcast2 f a b = inr (zip_with (zip_with f) a b).
Proof.
  intros Ha Hb Hn. unfold broadcast2.
  rewrite (proj1 Ha), (proj1 Hb), !(rect_ncols n m) by done.
  by rewrite !bdim_same, !broadcast_to_id.
Qed.

Lemma bdim_Some x y z :
  bdim x y = Some z → (x = z ∨ x = 1%nat) ∧ (y = z ∨ y = 1%nat).
Proof. unfold bdim. repeat case_decide; intros [= <-]; auto. Qed.

Lemma length_stretch {A} n (l : list A) :
  length l = n ∨ length l = 1%nat → length (stretch n l) = n.
Proof.
  destruct l as [|x [|??]]; simpl; intros [?|?]; try done.
  - by rewrite length_replicate.
  - by rewrite length_replicate.
Qed.

Lemma rect_broadcast_to r c ra ca a :
  rect ra ca a → ra = r ∨ ra = 1%nat → ca = c ∨ ca = 1%nat →
  rect r c (broadcast_to r c a).
Proof.
  intros [Hra Hca] Hr Hc. unfold broadcast_to.
  assert (Forall (λ row, length row = c) (stretch c <$> a)) as Hrows.
  { apply Forall_fmap. eapply Forall_impl; [done|]. intros row Hrow.
    simpl in *. apply length_stretch. lia. }
  split.
  - apply length_stretch. rewrite length_fmap. lia.
  - destruct (stretch c <$> a) as [|x [|??]] eqn:E; simpl; try done.
    apply Forall_replicate. by apply Forall_cons in Hrows as [? _].
Qed.

Lemma broadcast2_rect f ra ca rb cb r c a b :
  rect ra ca a → rect rb cb b → (0 < ra)%nat → (0 < rb)%nat →
  bdim ra rb = Some r → bdim ca cb = Some c →
  ∃ t, broadcast2 f a b = inr t ∧ rect r c t.
Proof.
  intros Ha Hb ?? Hr Hc. unfold broadcast2.
  rewrite (proj1 Ha), (proj1 Hb), (rect_ncols ra ca), (rect_ncols rb cb), Hr, Hc
    by done.
  eexists. split; [done|].
  apply bdim_Some in Hr as [??], Hc as [??].
  apply rect_zip_with; by eapply rect_broadcast_to.
Qed.

Lemma rect_replicate n m (x : Q) : rect n m (replicate n (replicate m x)).
Proof.
  split; [by rewrite length_replicate|].
  apply Forall_replicate. by rewrite length_replicate.
Qed.

Lemma assign_cols_full p v a val :
  rect p v a → rect p v val → (0 < p)%nat → assign_cols a 0 v val = inr val.
Proof.
  intros Ha Hval Hp. unfold assign_cols, fits.
  rewrite (rect_ncols p v a), (rect_ncols p v val), (proj1 Ha), (proj1 Hval) by done.
  rewrite Nat.min_0_l, Nat.min_id, Nat.sub_0_r.
  rewrite !bool_decide_eq_true_2 by auto. simpl. f_equal.
  rewrite broadcast_to_id by done.
  destruct Ha as [Hla Ha], Hval as [Hlv Hval]. clear Hp. subst p.
  revert val Hlv Hval. induction a as [|row a IH]; intros [|vrow val] ? Hval;
    simplify_eq/=; [done|].
  apply Forall_cons in Ha as [Hrow Ha]. apply Forall_cons in Hval as [? Hval].
  rewrite drop_ge by lia. rewrite app_nil_r. f_equal. by apply IH.
Qed.

Lemma rect_np_square n m a : rect n m a → rect n m (np_square a).
Proof.
  intros [Hn Hm]. unfold np_square. split; [by rewrite length_fmap|].
  apply Forall_fmap. eapply Forall_impl; [done|]. intros r Hr. simpl.
  by rewrite length_fmap.
Qed.

Lemma length_column_sse n m a :
  rect n m a → (0 < n)%nat → length (column_sse a) = m.
Proof.
  intros Ha Hn. unfold column_sse. rewrite length_fmap.
  apply (rect_transpose n m); [|done]. by apply rect_np_square.
Qed.

(** ** The univariate fit *)

Section fitter_facts.
Context (pinv : matrix → matrix) (matrix_rank : matrix → Z).

Lemma bdim_compat x y :
  x = y ∨ x = 1%nat ∨ y = 1%nat →
  ∃ z, bdim x y = Some z ∧ (z = x ∨ z = y).
Proof. unfold bdim. intros ?. repeat case_decide; eauto; lia. Qed.

Lemma bind_M_design w lx X n m p :
  (0 < n)%nat → (0 < m)%nat → (0 < p)%nat →
  rect m p X → rect p m (pinv X) →
  m = n ∨ m = 1%nat ∨ n = 1%nat →
  heap w !! lx = Some (Arr2 X) →
  ∃ r, runs (bind_M pinv n (ArgArr lx)) w w (Some (lx, lx, pinv X, r)).
Proof.
  intros Hn Hm Hp HX HP Hmn Hlx. unfold bind_M.
  destruct (bdim_compat m n) as (c & Hc & Hc'); [done|].
  destruct (broadcast2_rect qmul p m 1 n p c (pinv X) (np_ones 1 n))
    as (t & Ht & Hrt); [done|apply rect_replicate|done|lia|
                        apply bdim_1_r|done|].
  destruct (bdim_compat n m) as (c2 & Hc2 & _); [lia|].
  destruct (broadcast2_rect qsub n 1 m c c2 c (np_ones n 1) (matmul X t))
    as (r & Hr & _); [apply rect_replicate|by eapply rect_matmul|done|done|
                      done|apply bdim_1_l|].
  exists r. eapply runs_bind; [by apply runs_load|]. simpl.
  eapply runs_bind; [|apply runs_ret].
  apply runs_lift. rewrite Ht. simpl. rewrite (np_dot_ok m p c) by done.
  done.
Qed.

Lemma broadcast2_mismatch f a b :
  bdim (ncols a) (ncols b) = None →
  broadcast2 f a b
  = inl (ValueError "operands could not be broadcast together").
Proof. unfold broadcast2. intros ->. by destruct (bdim _ _). Qed.

Lemma bind_M_mismatch w lx X n m p :
  (0 < m)%nat → (0 < p)%nat →
  rect m p X → rect p m (pinv X) →
  m ≠ n → m ≠ 1%nat → n ≠ 1%nat →
  heap w !! lx = Some (Arr2 X) →
  ∃ msg, fails (bind_M pinv n (ArgArr lx)) w w (ValueError msg).
Proof.
  intros Hm Hp HX HP ??? Hlx. unfold bind_M. eexists.
  eapply fails_bind_r; [by apply runs_load|]. simpl.
  apply fails_bind_l, fails_lift. rewrite broadcast2_mismatch; [done|].
  rewrite (rect_ncols p m (pinv X)) by done. simpl. rewrite length_replicate.
  unfold bdim. by rewrite !decide_False by done.
Qed.

Lemma bind_runs_eq {A B} (m : py A) (f : A → py B) w w1 a :
  runs m w w1 a → (m ≫= f) w = f a w1.
Proof. unfold runs, mbind, py_bind. by intros ->. Qed.

(** The call up to the chunk loop, for a 2-D response and a 2-D design. *)
Lemma fit_reaches_chunk w ly lx Y X n v m p r :
  (0 < n)%nat → (0 < m)%nat →
  rect n v Y → rect m p X →
  heap w !! ly = Some (Arr2 Y) → heap w !! lx = Some (Arr2 X) →
  runs (bind_M pinv n (ArgArr lx)) w w (Some (lx, lx, pinv X, r)) →
  let slm := slm_result lx (Z.of_nat n - matrix_rank X)
               (length (heap w)) (S (length (heap w))) in
  py_SurfStatLinMod pinv matrix_rank (ArgArr ly) (ArgArr lx) w
  = (univariate slm [n; v] lx lx (pinv X)
       (length (heap w)) (S (length (heap w))) 0 v ly ≫= λ _, mret slm)
      (World (heap w ++ [Arr2 (np_zeros p v); Arr2 (np_zeros 1 v)])
         (if mean_exceeds_spacing (np_square r) then stdout w ++ [warning]
          else stdout w)).
Proof.
  intros Hn Hm HY HX Hly Hlx Hr slm. unfold py_SurfStatLinMod.
  erewrite bind_runs_eq; last first.
  { unfold bind_Y. eapply runs_bind; [by apply runs_load|]. apply runs_ret. }
  simpl. rewrite (proj1 HY), (rect_ncols n v) by done.
  erewrite bind_runs_eq by exact Hr. simpl.
  erewrite bind_runs_eq; last first.
  { instantiate (1 := ()).
    instantiate (1 := World (heap w)
      (if mean_exceeds_spacing (np_square r) then stdout w ++ [warning]
       else stdout w)).
    destruct (mean_exceeds_spacing (np_square r)); [done|by destruct w]. }
  erewrite bind_runs_eq by by apply runs_load2.
  rewrite (rect_ncols m p) by done.
  erewrite bind_runs_eq by apply runs_alloc. simpl.
  erewrite bind_runs_eq by apply runs_alloc. simpl.
  rewrite Nat.min_id, length_app, Nat.add_1_r, <-app_assoc. simpl.
  unfold mbind, py_bind.
  by destruct (univariate _ _ _ _ _ _ _ _ _ _ _) as [? [?|?]].
Qed.

Lemma univariate_runs slm w ly lx coefl ssel Y X n v p :
  (0 < n)%nat → (0 < v)%nat → (0 < p)%nat →
  rect n v Y → rect n p X → rect p n (pinv X) →
  slm !! "V" = None →
  heap w !! ly = Some (Arr2 Y) → heap w !! lx = Some (Arr2 X) →
  heap w !! coefl = Some (Arr2 (np_zeros p v)) →
  heap w !! ssel = Some (Arr2 (np_zeros 1 v)) →
  coefl ≠ ssel →
  let coef := matmul (pinv X) Y in
  let res := residuals Y X coef in
  runs (univariate slm [n; v] lx lx (pinv X) coefl ssel 0 v ly) w
    (World (<[ssel := Arr2 [column_sse res]]>
              (<[coefl := Arr2 coef]> (heap w ++ [Arr2 res]))) (stdout w))
    (length (heap w)).
Proof.
  intros Hn Hv Hp HY HX HP HV Hly Hlx Hcoef Hsse Hne coef res.
  assert (rect p v coef) as Hrc by by eapply rect_matmul.
  assert (rect n v (matmul X coef)) as Hrd by by eapply rect_matmul.
  unfold univariate. rewrite HV.
  eapply runs_bind; [by apply runs_load2|].
  eapply runs_bind; [by apply runs_load|].
  eapply runs_bind.
  { instantiate (1 := coef). instantiate (1 := w).
    simpl. rewrite (proj1 HX).
    replace (bool_decide ([n; v] = [1; 1]%nat) && bool_decide (1 < n)%nat)
      with false.
    - apply runs_lift. by eapply np_dot_ok.
    - symmetry. apply andb_false_iff.
      destruct (decide (n = 1%nat)) as [->|].
      + right. apply bool_decide_eq_false_2. lia.
      + left. apply bool_decide_eq_false_2. intros [= ??]. lia. }
  eapply runs_bind; [by apply runs_load2|].
  eapply runs_bind.
  { apply runs_lift. rewrite (np_dot_ok n p v) by done. simpl.
    by apply (broadcast2_same _ n v). }
  fold res. eapply runs_bind; [apply runs_alloc|].
  eapply runs_bind.
  { apply runs_load2. simpl. rewrite lookup_app_l; [done|].
    by eapply lookup_lt_Some. }
  eapply runs_bind.
  { apply runs_lift. apply (assign_cols_full p v); [apply rect_replicate|done..]. }
  eapply runs_bind; [apply runs_store|]. simpl.
  eapply runs_bind.
  { apply runs_load2. simpl. rewrite list_lookup_insert_ne by done.
    rewrite lookup_app_l; [done|]. by eapply lookup_lt_Some. }
  eapply runs_bind.
  { apply runs_lift. apply (assign_cols_full 1 v); [apply rect_replicate| |lia].
    split; [done|]. repeat constructor.
    apply (length_column_sse n); [|done]. by apply rect_zip_with. }
  eapply runs_bind; [apply runs_store|]. simpl.
  apply runs_ret.
Qed.

Lemma np_dot_mismatch a b :
  ncols a ≠ length b → np_dot a b = inl (ValueError "shapes not aligned").
Proof. intros ?. unfold np_dot. by rewrite decide_False. Qed.

Lemma univariate_mismatch slm w ly lx coefl ssel Y X n v m p :
  (0 < n)%nat → (0 < v)%nat → (0 < m)%nat → (0 < p)%nat →
  rect n v Y → rect m p X → rect p m (pinv X) →
  m ≠ n → m = 1%nat ∨ n = 1%nat →
  slm !! "V" = None →
  heap w !! ly = Some (Arr2 Y) → heap w !! lx = Some (Arr2 X) →
  heap w !! coefl = Some (Arr2 (np_zeros p v)) →
  ∃ w' msg,
    fails (univariate slm [n; v] lx lx (pinv X) coefl ssel 0 v ly) w w'
      (ValueError msg).
Proof.
  intros Hn Hv Hm Hp HY HX HP Hmn H1 HV Hly Hlx Hcoef.
  unfold univariate. rewrite HV.
  destruct (decide (n = 1%nat ∧ v = 1%nat)) as [[-> ->]|Hnv].
  - (* a single number against a design of several rows *)
    destruct Y as [|[|y [|??]] [|??]]; destruct HY as [? HY];
      try apply Forall_cons in HY as [? HY]; simplify_eq/=.
    set (coef := (λ r : vector, (λ x, qmul x y) <$> r) <$> pinv X).
    assert (rect p m coef) as Hrc.
    { destruct HP as [? HP]. split; [by unfold coef; rewrite length_fmap|].
      apply Forall_fmap. eapply Forall_impl; [done|]. intros ??. simpl.
      by rewrite length_fmap. }
    destruct (broadcast2_rect qsub 1 1 m m m m [[y]] (matmul X coef))
      as (res & Hres & _);
      [by repeat constructor|by eapply rect_matmul|lia|done|
       apply bdim_1_l|apply bdim_1_l|].
    eexists _, _.
    eapply fails_bind_r; [by apply runs_load2|].
    eapply fails_bind_r; [by apply runs_load|].
    eapply fails_bind_r.
    { instantiate (1 := coef). simpl. rewrite (proj1 HX).
      rewrite !bool_decide_eq_true_2 by (done || lia). simpl.
      eapply runs_bind; [by apply runs_lift|].
      eapply runs_bind; [done|]. apply runs_ret. }
    eapply fails_bind_r; [by apply runs_load2|].
    eapply fails_bind_r.
    { apply runs_lift. rewrite (np_dot_ok m p m) by done. simpl. exact Hres. }
    eapply fails_bind_r; [apply runs_alloc|].
    eapply fails_bind_r.
    { apply runs_load2. simpl. rewrite lookup_app_l; [done|].
      by eapply lookup_lt_Some. }
    apply fails_bind_l, fails_lift. unfold assign_cols, fits.
    rewrite (rect_ncols p m coef) by done.
    rewrite (rect_ncols p 1 (np_zeros p 1)) by (done || apply rect_replicate).
    simpl. rewrite (bool_decide_eq_false_2 (m = 1%nat ∨ m = 1%nat)) by lia.
    by rewrite andb_false_r.
  - eexists _, _.
    eapply fails_bind_r; [by apply runs_load2|].
    eapply fails_bind_r; [by apply runs_load|].
    apply fails_bind_l. simpl.
    replace (bool_decide ([n; v] = [1; 1]%nat)
             && bool_decide (1 < length X)%nat) with false.
    + apply fails_lift, np_dot_mismatch.
      rewrite (rect_ncols p m), (proj1 HY) by done. done.
    + symmetry. apply andb_false_iff. rewrite (proj1 HX).
      destruct (decide (n = 1%nat)) as [->|].
      * left. apply bool_decide_eq_false_2. intros [= ?]. lia.
      * right. apply bool_decide_eq_false_2. lia.
Qed.

Lemma fit_univariate w ly lx Y X n v p :
  (0 < n)%nat → (0 < v)%nat → (0 < p)%nat →
  rect n v Y → rect n p X → rect p n (pinv X) →
  heap w !! ly = Some (Arr2 Y) → heap w !! lx = Some (Arr2 X) →
  let coef := matmul (pinv X) Y in
  let res := residuals Y X coef in
  ∃ out,
    runs (py_SurfStatLinMod pinv matrix_rank (ArgArr ly) (ArgArr lx)) w
      (World (heap w ++ [Arr2 coef; Arr2 [column_sse res]; Arr2 res]) out)
      (slm_result lx (Z.of_nat n - matrix_rank X)
         (length (heap w)) (S (length (heap w)))).
Proof.
  intros Hn Hv Hp HY HX HP Hly Hlx coef res.
  destruct (bind_M_design w lx X n n p) as (r & Hr); [by auto..|].
  eexists. unfold runs.
  rewrite (fit_reaches_chunk w ly lx Y X n v n p r) by done.
  eapply runs_bind; [|apply runs_ret].
  set (h := heap w ++ [Arr2 (np_zeros p v); Arr2 (np_zeros 1 v)]).
  assert (length (heap w) < length h)%nat as Hlen
    by (unfold h; rewrite length_app; simpl; lia).
  pose proof (univariate_runs
    (slm_result lx (Z.of_nat n - matrix_rank X) (length (heap w))
       (S (length (heap w))))
    (World h (if mean_exceeds_spacing (np_square r)
              then stdout w ++ [warning] else stdout w))
    ly lx (length (heap w)) (S (length (heap w))) Y X n v p) as Hu.
  simpl in Hu.
  replace (heap w ++ [Arr2 coef; Arr2 [column_sse res]; Arr2 res])
    with (<[S (length (heap w)):=Arr2 [column_sse res]]>
            (<[length (heap w):=Arr2 coef]> (h ++ [Arr2 res]))).
  - apply Hu; try done.
    + unfold h. rewrite lookup_app_l; [done|by eapply lookup_lt_Some].
    + unfold h. rewrite lookup_app_l; [done|by eapply lookup_lt_Some].
    + unfold h. by rewrite lookup_app_r, Nat.sub_diag.
    + unfold h. rewrite lookup_app_r by lia.
      by replace (S (length (heap w)) - length (heap w))%nat with 1%nat by lia.
  - unfold h. rewrite <-!app_assoc. simpl.
    rewrite (insert_app_r_alt _ _ (length (heap w))) by done.
    rewrite Nat.sub_diag. simpl.
    rewrite (insert_app_r_alt _ _ (S (length (heap w)))) by lia.
    by replace (S (length (heap w)) - length (heap w))%nat with 1%nat by lia.
Qed.

Lemma fit_mismatch_fails w ly lx Y X n v m p :
  (0 < n)%nat → (0 < v)%nat → (0 < m)%nat → (0 < p)%nat →
  rect n v Y → rect m p X → rect p m (pinv X) →
  heap w !! ly = Some (Arr2 Y) → heap w !! lx = Some (Arr2 X) →
  m ≠ n →
  ∃ w' msg,
    fails (py_SurfStatLinMod pinv matrix_rank (ArgArr ly) (ArgArr lx)) w w'
      (ValueError msg).
Proof.
  intros Hn Hv Hm Hp HY HX HP Hly Hlx Hmn.
  destruct (decide (m = 1%nat ∨ n = 1%nat)) as [H1|H1].
  - destruct (bind_M_design w lx X n m p) as (r & Hr); [by auto..|].
    unfold fails. rewrite (fit_reaches_chunk w ly lx Y X n v m p r) by done.
    edestruct (univariate_mismatch
      (slm_result lx (Z.of_nat n - matrix_rank X) (length (heap w))
         (S (length (heap w))))
      (World (heap w ++ [Arr2 (np_zeros p v); Arr2 (np_zeros 1 v)])
         (if mean_exceeds_spacing (np_square r) then stdout w ++ [warning]
          else stdout w))
      ly lx (length (heap w)) (S (length (heap w))) Y X n v m p)
      as (w' & msg & Hf); try done.
    + simpl. rewrite lookup_app_l; [done|by eapply lookup_lt_Some].
    + simpl. rewrite lookup_app_l; [done|by eapply lookup_lt_Some].
    + simpl. by rewrite lookup_app_r, Nat.sub_diag.
    + exists w', msg. by apply fails_bind_l.
  - destruct (bind_M_mismatch w lx X n m p) as (msg & Hf); [done..|lia|lia|done|].
    exists w, msg. unfold py_SurfStatLinMod.
    eapply fails_bind_r.
    { unfold bind_Y. eapply runs_bind; [by apply runs_load|]. apply runs_ret. }
    simpl. rewrite (proj1 HY), (rect_ncols n v) by done.
    by apply fails_bind_l.
Qed.

End fitter_facts.

Lemma slm_result_lookup Xl df coefl ssel :
  slm_result Xl df coefl ssel !! "X" = Some (PyRef Xl) ∧
  slm_result Xl df coefl ssel !! "df" = Some (PyInt df) ∧
  slm_result Xl df coefl ssel !! "coef" = Some (PyRef coefl) ∧
  slm_result Xl df coefl ssel !! "SSE" = Some (PyRef ssel).
Proof. unfold slm_result. repeat split; by simplify_map_eq. Qed.

(** C5 (as amended). The fitter has no error of its own for mismatched
    or degenerate input. For a 2-D response (n x v) and a 2-D design (m x p)
    with at least one row and column each, the call fails exactly when the
    observation counts differ (m is not n), and then with the [ValueError]
    numpy raises for shapes that do not fit; when the counts agree it
    returns for every design, rank-deficient or entirely zero included,
    with df = n - rank(X). *)
Theorem fit_fails_iff_observation_mismatch
    (pinv : matrix → matrix) (matrix_rank : matrix → Z)
    (w : world) (ly lx : loc) (Y X : matrix) (n v m p : nat) :
  (0 < n)%nat → (0 < v)%nat → (0 < m)%nat → (0 < p)%nat →
  rect n v Y → rect m p X → rect p m (pinv X) →
  heap w !! ly = Some (Arr2 Y) → heap w !! lx = Some (Arr2 X) →
  let result := (py_SurfStatLinMod pinv matrix_rank (ArgArr ly) (ArgArr lx) w).2 in
  (is_failure result ↔ m ≠ n) ∧
  (∀ e, result = inl e → ∃ msg, e = ValueError msg) ∧
  (m = n →
   ∃ slm, result = inr slm ∧
          slm !! "df" = Some (PyInt (Z.of_nat n - matrix_rank X))).
Proof.
  intros Hn Hv Hm Hp HY HX HP Hly Hlx result.
  destruct (decide (m = n)) as [->|Hmn].
  - destruct (fit_univariate pinv matrix_rank w ly lx Y X n v p)
      as (out & Hrun); [done..|].
    unfold runs in Hrun. subst result. rewrite Hrun. simpl. split; [|split].
    + split; [by intros [e ?]|done].
    + intros e He. discriminate He.
    + intros _. eexists. split; [done|]. apply slm_result_lookup.
  - destruct (fit_mismatch_fails pinv matrix_rank w ly lx Y X n v m p)
      as (w' & msg & Hf); [done..|].
    unfold fails in Hf. subst result. rewrite Hf. simpl. split; [|split].
    + split; [done|]. intros _. by eexists.
    + intros e [= <-]. by eexists.
    + done.
Qed.

Lemma fit_fails_iff_observation_mismatch_witness :
  ∃ slm,
    (fit (ArgArr 0) (ArgArr 1)
       (World [Arr2 [[2; 1]; [4; 1]]; Arr2 [[0]; [0]]]%Q [])).2 = inr slm ∧
    slm !! "df" = Some (PyInt 2).
Proof.
  apply (fit_fails_iff_observation_mismatch exact_pinv exact_rank
           (World [Arr2 [[2; 1]; [4; 1]]; Arr2 [[0]; [0]]]%Q [])
           0%nat 1%nat [[2; 1]; [4; 1]]%Q [[0]; [0]]%Q 2 2 2 1);
    try lia; try done; by repeat constructor.
Defined.

(** C5, the counterexample: an entirely zero design is not an error. The
    pseudo-inverse of the zero matrix is zero, the coefficients are zero,
    SSE is the column-wise sum of the squares of Y and df = n. *)
Lemma fit_zero_design_returns :
  moore_penrose [[0]; [0]]%Q (exact_pinv [[0]; [0]]%Q) ∧
  ∃ w' slm,
    fit (ArgArr 0) (ArgArr 1)
      (World [Arr2 [[2; 1]; [4; 1]]; Arr2 [[0]; [0]]]%Q []) = (w', inr slm) ∧
    slm_array w' slm "coef" = Some (Arr2 [[0; 0]]%Q) ∧
    slm_array w' slm "SSE" = Some (Arr2 [[20; 2]]%Q) ∧
    slm !! "df" = Some (PyInt 2).
Proof.
  split; [by vm_compute|].
  eexists _, _. split; [vm_compute; reflexivity|]. by vm_compute.
Qed.

(** C2. On the univariate path (a 2-D response and a 2-D design with at
    least one observation, vertex and predictor, and any pseudo-inverse of
    the shape numpy returns) the fitter returns coef = pinv(X) . Y, SSE = the
    column-wise sum of the squared residuals Y - X . coef, df = observations
    - rank(X), and keeps the design by reference; nothing that was in the
    store before the call is changed. In the scenario X = [[1],[1],[1]],
    Y = [[2],[4],[6]], with the exact pseudo-inverse and rank, this gives
    coef = [4], SSE = [8] and df = 2. *)
Theorem fit_univariate_least_squares :
  (∃ w' slm,
     fit (ArgArr 0) (ArgArr 1)
       (World [Arr2 [[2]; [4]; [6]]; Arr2 [[1]; [1]; [1]]]%Q [])
     = (w', inr slm) ∧
     slm_array w' slm "coef" = Some (Arr2 [[4%Q]]) ∧
     slm_array w' slm "SSE" = Some (Arr2 [[8%Q]]) ∧
     slm !! "df" = Some (PyInt 2)) ∧
  moore_penrose [[1]; [1]; [1]]%Q (exact_pinv [[1]; [1]; [1]]%Q) ∧
  exact_rank [[1]; [1]; [1]]%Q = 1 ∧
  ∀ (pinv : matrix → matrix) (matrix_rank : matrix → Z)
    (w : world) (ly lx : loc) (Y X : matrix) (n v p : nat),
    (0 < n)%nat → (0 < v)%nat → (0 < p)%nat →
    rect n v Y → rect n p X → rect p n (pinv X) →
    heap w !! ly = Some (Arr2 Y) → heap w !! lx = Some (Arr2 X) →
    let coef := matmul (pinv X) Y in
    ∃ w' slm,
      py_SurfStatLinMod pinv matrix_rank (ArgArr ly) (ArgArr lx) w
      = (w', inr slm) ∧
      slm_array w' slm "coef" = Some (Arr2 coef) ∧
      slm_array w' slm "SSE" = Some (Arr2 [column_sse (residuals Y X coef)]) ∧
      slm !! "df" = Some (PyInt (Z.of_nat n - matrix_rank X)) ∧
      slm_array w' slm "X" = Some (Arr2 X) ∧
      (∀ l a, heap w !! l = Some a → heap w' !! l = Some a).
Proof.
  split; [|split; [|split]].
  - eexists _, _. split; [vm_compute; reflexivity|]. by vm_compute.
  - by vm_compute.
  - by vm_compute.
  - intros pinv matrix_rank w ly lx Y X n v p Hn Hv Hp HY HX HP Hly Hlx coef.
    destruct (fit_univariate pinv matrix_rank w ly lx Y X n v p)
      as (out & Hrun); [done..|].
    eexists _, _. split; [exact Hrun|].
    destruct (slm_result_lookup lx (Z.of_nat n - matrix_rank X)
                (length (heap w)) (S (length (heap w)))) as (HX' & Hdf & Hc & Hs).
    unfold slm_array. rewrite HX', Hc, Hs. simpl.
    split; [by rewrite lookup_app_r, Nat.sub_diag|].
    split; [rewrite lookup_app_r by lia;
            by replace (S (length (heap w)) - length (heap w))%nat with 1%nat by lia|].
    split; [done|]. split.
    + rewrite lookup_app_l; [done|by eapply lookup_lt_Some].
    + intros l a Hl. rewrite lookup_app_l; [done|by eapply lookup_lt_Some].
Qed.

Lemma fit_univariate_least_squares_witness :
  ∃ w' slm,
    fit (ArgArr 0) (ArgArr 1)
      (World [Arr2 [[2; 3]; [4; 7]]; Arr2 [[1; 1]; [1; 1]]]%Q [])
    = (w', inr slm) ∧
    slm_array w' slm "coef" = Some (Arr2 [[3 # 2; 5 # 2]; [3 # 2; 5 # 2]]) ∧
    slm_array w' slm "SSE" = Some (Arr2 [[2; 8]]%Q) ∧
    slm !! "df" = Some (PyInt 1).
Proof.
  destruct (proj2 (proj2 (proj2 fit_univariate_least_squares))
              exact_pinv exact_rank
              (World [Arr2 [[2; 3]; [4; 7]]; Arr2 [[1; 1]; [1; 1]]]%Q [])
              0%nat 1%nat [[2; 3]; [4; 7]]%Q [[1; 1]; [1; 1]]%Q 2%nat 2%nat 2%nat)
    as (w' & slm & Hrun & Hc & Hs & Hdf & _);
    [lia|lia|lia|by repeat constructor..|done|done|].
  exists w', slm. split; [exact Hrun|]. split; [exact Hc|]. split; [exact Hs|].
  exact Hdf.
Defined.

(** ** The multivariate fit and the diagnostic, evaluated *)

(** C1, at a failing input. Two observations, two vertices, two components,
    constant design. The residuals of component 0 are (-1, -3/2) and
    (1, 3/2), so the first packed row should be (2, 9/2), the inner products
    across observations per vertex; the fitter stores (13/4, 13/4), the sums
    across vertices per observation ([axis=1] where the univariate path has
    [axis=0]). With three observations and two vertices the same assignment
    raises. *)
Theorem multivariate_sse_sums_across_vertices :
  let Y := [[[1; 0]; [2; 0]]; [[3; 0]; [5; 0]]]%Q in
  let X := [[1]; [1]]%Q in
  (∃ w' slm res,
     fit (ArgArr 0) (ArgArr 1) (World [Arr3 Y; Arr2 X] []) = (w', inr slm) ∧
     heap w' !! 0%nat = Some (Arr3 res) ∧
     slice_last 0 res
       = residuals (slice_last 0 Y) X (matmul (exact_pinv X) (slice_last 0 Y)) ∧
     slice_last 1 res
       = residuals (slice_last 1 Y) X (matmul (exact_pinv X) (slice_last 1 Y)) ∧
     spec_packed_SSE 2 res = [[2; 9 # 2]; [0; 0]; [0; 0]]%Q ∧
     slm_array w' slm "SSE"
       = Some (Arr2 [[13 # 4; 13 # 4]; [0; 0]; [0; 0]]%Q)) ∧
  (∃ w',
     fit (ArgArr 0) (ArgArr 1)
       (World [Arr3 [[[1; 0]; [2; 0]]; [[3; 0]; [5; 0]]; [[3; 0]; [5; 0]]]%Q;
               Arr2 [[1]; [1]; [1]]%Q] [])
     = (w', inl (ValueError "could not broadcast input array"))).
Proof.
  split.
  - eexists _, _, _. split; [vm_compute; reflexivity|]. by vm_compute.
  - eexists. vm_compute. reflexivity.
Qed.

(** C3, at a failing input. After a multivariate fit the array the caller
    passed as [Y] holds the residuals: the fitter assigns to [Y[:, :, j]]
    in place (the univariate path rebinds [Y] to a new array instead, see
    [fit_univariate_least_squares]). *)
Theorem multivariate_fit_overwrites_response :
  let Y := [[[1; 0]; [2; 0]]; [[3; 0]; [5; 0]]]%Q in
  let X := [[1]; [1]]%Q in
  let w := World [Arr3 Y; Arr2 X] [] in
  ∃ w' slm,
    fit (ArgArr 0) (ArgArr 1) w = (w', inr slm) ∧
    heap w !! 0%nat = Some (Arr3 Y) ∧
    heap w' !! 0%nat
      = Some (Arr3 [[[-1; 0]; [-3 # 2; 0]]; [[1; 0]; [3 # 2; 0]]]%Q) ∧
    heap w' !! 1%nat = Some (Arr2 X).
Proof. eexists _, _. split; [vm_compute; reflexivity|]. by vm_compute. Qed.

(** C4, at a failing input. For the design X = [[1],[1],[1]], which is the
    intercept column, (I - X . pinv(X)) . 1 is zero, yet the fitter prints the
    diagnostic: on a 2-D design it multiplies [pinvX] and the ones
    elementwise and tests a 3 x 3 array of 2/3. The same design given as a
    number or as a 1-D array goes through the other two branches and prints
    nothing. The fit itself returns in all three cases. *)
Theorem intercept_design_triggers_warning :
  let Y := Arr2 [[2]; [4]; [6]]%Q in
  let X := [[1]; [1]; [1]]%Q in
  spec_missing_intercept X (exact_pinv X) = false ∧
  (∃ w' slm,
     fit (ArgArr 0) (ArgArr 1) (World [Y; Arr2 X] []) = (w', inr slm) ∧
     stdout w' = [warning]) ∧
  (∃ w' slm,
     fit (ArgArr 0) (ArgArr 1) (World [Y; Arr1 [1%Q]] []) = (w', inr slm) ∧
     slm_array w' slm "X" = Some (Arr2 X) ∧ stdout w' = []) ∧
  (∃ w' slm,
     fit (ArgArr 0) (ArgNum 1) (World [Y] []) = (w', inr slm) ∧
     slm_array w' slm "X" = Some (Arr2 X) ∧ stdout w' = []).
Proof.
  split; [by vm_compute|].
  repeat split; eexists _, _; (split; [vm_compute; reflexivity|]); by vm_compute.
Qed.

(** ** The lattice branch: the index grid *)

Lemma np_arange_from_1 (n : nat) :
  np_arange 1 (Z.of_nat n + 1) = (λ t, 1 + Z.of_nat t) <$> seq 0 n.
Proof. unfold np_arange. do 2 f_equal. lia. Qed.

Lemma lookup_concat_replicate {A} (a : list A) (n q : nat) :
  (q < n * length a)%nat →
  concat (replicate n a) !! q = a !! (q `mod` length a)%nat.
Proof.
  revert q. induction n as [|n IH]; intros q Hq; [lia|]. simpl.
  destruct (decide (q < length a)%nat) as [Hlt|Hge].
  - by rewrite lookup_app_l, Nat.mod_small by done.
  - rewrite lookup_app_r by lia. rewrite IH by lia. f_equal.
    replace q with ((q - length a) + 1 * length a)%nat at 2 by lia.
    rewrite Nat.Div0.mod_add. done.
Qed.

Lemma lookup_concat_rows {A} (b : list A) (m q : nat) :
  (0 < m)%nat → (q < m * length b)%nat →
  concat ((λ y, replicate m y) <$> b) !! q = b !! (q / m)%nat.
Proof.
  intros Hm. revert q. induction b as [|y b IH]; intros q Hq; [simpl in *; lia|].
  csimpl. destruct (decide (q < m)%nat) as [Hlt|Hge].
  - rewrite lookup_app_l by by rewrite length_replicate.
    rewrite Nat.div_small by done. by rewrite lookup_replicate_2.
  - rewrite lookup_app_r by (rewrite length_replicate; lia).
    rewrite length_replicate, IH by (simpl in Hq; lia).
    replace q with ((q - m) + 1 * m)%nat at 2 by lia.
    rewrite Nat.div_add by lia. by rewrite Nat.add_1_r.
Qed.

Lemma length_concat_replicate {A} (a : list A) (n : nat) :
  length (concat (replicate n a)) = (n * length a)%nat.
Proof. induction n as [|n IH]; [done|]. simpl. rewrite length_app. lia. Qed.

Lemma length_concat_rows {A} (b : list A) (m : nat) :
  length (concat ((λ y, replicate m y) <$> b)) = (m * length b)%nat.
Proof.
  induction b as [|y b IH]; [simpl; lia|]. csimpl.
  rewrite length_app, length_replicate, IH. lia.
Qed.

Section grid.
Context (nI nJ : nat).

Lemma length_grid_i : length (grid_i (Z.of_nat nI) (Z.of_nat nJ)) = (nI * nJ)%nat.
Proof.
  unfold grid_i, meshgrid, T_flatten_F. simpl.
  rewrite !np_arange_from_1, length_concat_replicate, !length_fmap, !length_seq.
  lia.
Qed.

Lemma length_grid_j : length (grid_j (Z.of_nat nI) (Z.of_nat nJ)) = (nI * nJ)%nat.
Proof.
  unfold grid_j, meshgrid, T_flatten_F. simpl.
  rewrite !np_arange_from_1, length_concat_rows, !length_fmap, !length_seq.
  lia.
Qed.

Lemma lookup_grid_i q :
  (q < nI * nJ)%nat →
  grid_i (Z.of_nat nI) (Z.of_nat nJ) !! q = Some (Z.of_nat (q `mod` nI) + 1).
Proof.
  intros Hq. unfold grid_i, meshgrid, T_flatten_F. simpl.
  rewrite !np_arange_from_1, !length_fmap, !length_seq.
  rewrite lookup_concat_replicate by (rewrite length_fmap, length_seq; lia).
  rewrite length_fmap, length_seq, list_lookup_fmap.
  rewrite lookup_seq_lt by (apply Nat.mod_upper_bound; lia). simpl.
  f_equal. lia.
Qed.

Lemma lookup_grid_j q :
  (q < nI * nJ)%nat →
  grid_j (Z.of_nat nI) (Z.of_nat nJ) !! q = Some (Z.of_nat (q / nI) + 1).
Proof.
  intros Hq. unfold grid_j, meshgrid, T_flatten_F. simpl.
  rewrite !np_arange_from_1, !length_fmap, !length_seq.
  rewrite lookup_concat_rows by (rewrite ?length_fmap, ?length_seq; lia).
  rewrite list_lookup_fmap.
  rewrite lookup_seq_lt by (apply Nat.Div0.div_lt_upper_bound; lia). simpl.
  f_equal. lia.
Qed.

(** [np.where] over the grid, by linear position. *)
Lemma where_ij_grid (P : Z → Z → bool) :
  where_ij (grid_i (Z.of_nat nI) (Z.of_nat nJ))
           (grid_j (Z.of_nat nI) (Z.of_nat nJ)) P
  = Z.of_nat <$>
      filter (λ q, P (Z.of_nat (q `mod` nI) + 1) (Z.of_nat (q / nI) + 1) = true)
             (seq 0 (nI * nJ)).
Proof.
  unfold where_ij, np_where. f_equal.
  rewrite length_zip_with, length_grid_i, length_grid_j, Nat.min_id.
  apply filter_ext_in. intros q [_ Hq]%elem_of_seq.
  rewrite lookup_zip_with, lookup_grid_i, lookup_grid_j by lia. simpl.
  split; [by intros [= ?]|by intros ->].
Qed.

End grid.

(** ** The lattice branch: the three blocks *)

Lemma vadd_0 c : vadd c 0 = c.
Proof.
  unfold vadd. rewrite <-(list_fmap_id c) at 2. apply list_fmap_ext.
  intros _ z _. simpl. lia.
Qed.

Lemma length_vadd c d : length (vadd c d) = length c.
Proof. unfold vadd. by rewrite length_fmap. Qed.

Lemma zip_vadd c a b : zip (vadd c a) (vadd c b) = pairs (c, a, b).
Proof.
  unfold vadd, pairs. simpl. induction c as [|z c IH]; [done|].
  csimpl. by rewrite IH.
Qed.

Lemma block_T_triples (ts : list (list Z * Z * Z)) :
  block_T ((λ t, vadd t.1.1 t.1.2) <$> ts) ((λ t, vadd t.1.1 t.2) <$> ts)
  = ts ≫= pairs.
Proof.
  unfold block_T. induction ts as [|[[c a] b] ts IH]; [done|]. csimpl.
  rewrite zip_with_app by by rewrite !length_vadd.
  by rewrite zip_vadd, <-IH.
Qed.

Lemma edg0_triples I J f : edg0 I J f = eadd (triples0 I J f ≫= pairs) 1.
Proof.
  rewrite <-block_T_triples. unfold edg0, triples0. simpl.
  by rewrite !vadd_0.
Qed.

Lemma edg1_triples I J f : edg1 I J f = eadd (triples1 I J f ≫= pairs) 1.
Proof.
  rewrite <-block_T_triples. unfold edg1, triples1. simpl.
  by rewrite !vadd_0.
Qed.

Lemma edg2_triples I J f : edg2 I J f = eadd (triples2 I J f ≫= pairs) 1.
Proof.
  rewrite <-block_T_triples. unfold edg2, triples2. simpl.
  by rewrite !vadd_0.
Qed.

Lemma Forall_eadd_triples (Q : edge → Prop) (ts : list (list Z * Z * Z)) d :
  Forall (λ t, ∀ z, z ∈ t.1.1 → Q (z + t.1.2 + d, z + t.2 + d)) ts →
  Forall Q (eadd (ts ≫= pairs) d).
Proof.
  intros Hts. unfold eadd. apply Forall_fmap, Forall_forall.
  intros e (t & He & Ht)%list_elem_of_bind. rewrite Forall_forall in Hts.
  unfold pairs in He. apply list_elem_of_fmap in He as (z & -> & Hz).
  simpl. by apply Hts.
Qed.

Lemma length_eadd edg d : length (eadd edg d) = length edg.
Proof. unfold eadd. by rewrite length_fmap. Qed.

Section index_sets.
Context (nI nJ : nat).

Lemma elem_of_where_ij (P : Z → Z → bool) z :
  z ∈ where_ij (grid_i (Z.of_nat nI) (Z.of_nat nJ))
               (grid_j (Z.of_nat nI) (Z.of_nat nJ)) P →
  ∃ x y : Z, z = x + Z.of_nat nI * y ∧ 0 ≤ x < Z.of_nat nI ∧
             0 ≤ y < Z.of_nat nJ ∧ P (x + 1) (y + 1) = true.
Proof.
  rewrite where_ij_grid, list_elem_of_fmap.
  intros (q & -> & [HP [_ Hq]%elem_of_seq]%list_elem_of_filter).
  assert (0 < nI)%nat by lia.
  exists (Z.of_nat (q `mod` nI)), (Z.of_nat (q / nI)).
  split; [|split; [|split]]; [| | |done].
  - rewrite (Nat.div_mod_eq q nI) at 1. lia.
  - pose proof (Nat.mod_upper_bound q nI). lia.
  - pose proof (Nat.Div0.div_lt_upper_bound q nI nJ). lia.
Qed.

Ltac index_set_facts Hz :=
  unfold c1, c2, c11, c21, c12, c22 in Hz;
  apply elem_of_where_ij in Hz as (? & ? & -> & ? & ? & Hz);
  rewrite !andb_true_iff, !bool_decide_eq_true in Hz;
  destruct Hz as [[_ ?] ?].

Ltac good_rows :=
  apply Forall_eadd_triples;
  repeat (apply Forall_cons; split); [..|by apply Forall_nil];
  simpl; intros z Hz; index_set_facts Hz; unfold good; simpl; nia.

Lemma edg0_good f :
  Forall (good (Z.of_nat nI * Z.of_nat nJ)) (edg0 (Z.of_nat nI) (Z.of_nat nJ) f).
Proof. rewrite edg0_triples. unfold triples0. good_rows. Qed.

Lemma edg1_good f :
  Forall (good (2 * (Z.of_nat nI * Z.of_nat nJ)))
         (edg1 (Z.of_nat nI) (Z.of_nat nJ) f).
Proof. rewrite edg1_triples. unfold triples1. good_rows. Qed.

Lemma edg2_good f :
  Forall (good (2 * (Z.of_nat nI * Z.of_nat nJ)))
         (edg2 (Z.of_nat nI) (Z.of_nat nJ) f).
Proof. rewrite edg2_triples. unfold triples2. good_rows. Qed.

End index_sets.

(** ** The lattice template is total and in range *)
(** ** Counting positions of the grid *)

Lemma length_filter_fmap {A B} (f : A → B) (P : B → Prop)
    `{!∀ x, Decision (P x)} (l : list A) :
  length (filter P (f <$> l)) = length (filter (P ∘ f) l).
Proof.
  induction l as [|x l IH]; [done|]. csimpl. rewrite !filter_cons. simpl.
  destruct (decide (P (f x))); simpl; by rewrite IH.
Qed.

Lemma filter_all {A} (P : A → Prop) `{!∀ x, Decision (P x)} (l : list A) :
  (∀ x, x ∈ l → P x) → filter P l = l.
Proof.
  induction l as [|x l IH]; [done|]. intros Hl.
  rewrite filter_cons, decide_True by (apply Hl; left).
  f_equal. apply IH. intros y Hy. apply Hl. by right.
Qed.

Lemma length_filter_split {A} (P R : A → Prop)
    `{!∀ x, Decision (P x), !∀ x, Decision (R x)} (l : list A) :
  (length (filter (λ x, P x ∧ R x) l) + length (filter (λ x, ¬ P x ∧ R x) l)
   = length (filter R l))%nat.
Proof.
  induction l as [|x l IH]; [done|]. rewrite !filter_cons.
  destruct (decide (R x)), (decide (P x)).
  - rewrite decide_True, decide_False by tauto. simpl. lia.
  - rewrite decide_False, decide_True by tauto. simpl. lia.
  - rewrite !decide_False by tauto. done.
  - rewrite !decide_False by tauto. done.
Qed.

Lemma seq_add_fmap (j n : nat) : seq j n = (λ x, j + x)%nat <$> seq 0 n.
Proof. by rewrite fmap_add_seq, Nat.add_0_r. Qed.

(** Shifting a predicate along the positions does not change its count. *)
Lemma length_filter_shift (p p' : nat → Prop)
    `{!∀ q, Decision (p q), !∀ q, Decision (p' q)} (d N : nat) :
  (∀ q, q < d → ¬ p q)%nat →
  (∀ q, q + d < N → p (d + q)%nat ↔ p' q)%nat →
  (∀ q, q < N → N ≤ q + d → ¬ p' q)%nat →
  length (filter p (seq 0 N)) = length (filter p' (seq 0 N)).
Proof.
  intros Hfirst Hshift Hend. destruct (decide (d ≤ N)%nat) as [Hd|Hd].
  - assert (seq 0 N = seq 0 d ++ seq d (N - d)) as E1
      by (rewrite <-(Nat.add_0_l d) at 2; rewrite <-seq_app; f_equal; lia).
    assert (seq 0 N = seq 0 (N - d) ++ seq (N - d) d) as E2
      by (rewrite <-(Nat.add_0_l (N - d)) at 2; rewrite <-seq_app; f_equal; lia).
    rewrite E1 at 1. rewrite E2. rewrite !filter_app, !length_app.
    rewrite (filter_none p (seq 0 d)) by (intros q [_ ?]%elem_of_seq; apply Hfirst; lia).
    rewrite (filter_none p' (seq (N - d) d))
      by (intros q [??]%elem_of_seq; apply Hend; lia).
    simpl. rewrite Nat.add_0_r, (seq_add_fmap d), length_filter_fmap.
    f_equal. apply filter_ext_in. intros q [_ ?]%elem_of_seq. simpl.
    apply Hshift. lia.
  - rewrite (filter_none p), (filter_none p'); [done|..].
    + intros q [_ ?]%elem_of_seq. apply Hend; lia.
    + intros q [_ ?]%elem_of_seq. apply Hfirst; lia.
Qed.

(** A predicate that is a product of one on the column and one on the row
    of a position is counted by the product of the counts. *)
Lemma length_filter_grid (nI m : nat) (gx gy : nat → Prop)
    `{!∀ x, Decision (gx x), !∀ y, Decision (gy y)} :
  (0 < nI)%nat →
  length (filter (λ q, gx (q `mod` nI)%nat ∧ gy (q / nI)%nat) (seq 0 (nI * m)))
  = (length (filter gx (seq 0 nI)) * length (filter gy (seq 0 m)))%nat.
Proof.
  intros HI. induction m as [|m IH]; [rewrite Nat.mul_0_r; simpl; lia|].
  assert (length (filter (λ q, gx (q `mod` nI)%nat ∧ gy (q / nI)%nat)
                         (seq (nI * m) nI))
          = (length (filter gx (seq 0 nI)) * length (filter gy [m]))%nat) as Hrow.
  { rewrite (seq_add_fmap (nI * m)), length_filter_fmap.
    transitivity (length (filter (λ x, gx x ∧ gy m) (seq 0 nI))).
    - f_equal. apply filter_ext_in. intros x [_ Hx]%elem_of_seq. unfold compose.
      replace (nI * m + x)%nat with (x + m * nI)%nat by lia.
      by rewrite Nat.Div0.mod_add, Nat.div_add, Nat.mod_small, Nat.div_small
        by lia.
    - rewrite filter_cons, filter_nil. destruct (decide (gy m)) as [Hy|Hy].
      + rewrite (filter_ext_in _ gx) by (intros; tauto). simpl. lia.
      + rewrite filter_none by (intros; tauto). simpl. lia. }
  replace (nI * S m)%nat with (nI * m + nI)%nat by lia.
  rewrite seq_app, filter_app, length_app, IH, Nat.add_0_l, Hrow.
  rewrite (seq_S m 0), (filter_app gy), length_app, Nat.add_0_l. lia.
Qed.

Lemma count_below (n : nat) :
  length (filter (λ x, x + 1 < n)%nat (seq 0 n)) = (n - 1)%nat.
Proof.
  destruct n as [|n]; [done|]. rewrite seq_S, filter_app. simpl.
  rewrite filter_all by (intros x [_ ?]%elem_of_seq; lia).
  rewrite filter_cons, decide_False by lia.
  rewrite filter_nil, app_nil_r, length_seq. lia.
Qed.

Lemma count_last (n : nat) :
  (0 < n)%nat → length (filter (λ x, x + 1 = n)%nat (seq 0 n)) = 1%nat.
Proof.
  intros Hn. destruct n as [|n]; [lia|]. rewrite seq_S, filter_app. simpl.
  rewrite filter_none by (intros x [_ ?]%elem_of_seq; lia).
  by rewrite filter_cons, decide_True by lia.
Qed.

(** ** The sizes of the index sets *)

Lemma parity_flip_x f x y :
  f = 0 ∨ f = 1 → parity f (S x) y ↔ parity (1 - f) x y.
Proof.
  unfold parity. intros [-> | ->]; zify; Z.to_euclidean_division_equations; lia.
Qed.

Lemma parity_flip_y f x y :
  f = 0 ∨ f = 1 → parity f x (S y) ↔ parity (1 - f) x y.
Proof.
  unfold parity. intros [-> | ->]; zify; Z.to_euclidean_division_equations; lia.
Qed.

Lemma parity_1_not_0 x y : parity 1 x y ↔ ¬ parity 0 x y.
Proof. unfold parity. zify. Z.to_euclidean_division_equations. lia. Qed.

Section sizes.
Context (nI nJ : nat) (HI : (0 < nI)%nat) (HJ : (0 < nJ)%nat).

Lemma succ_mod_lt q :
  (q `mod` nI + 1 < nI)%nat →
  ((1 + q) `mod` nI = q `mod` nI + 1 ∧ (1 + q) / nI = q / nI)%nat.
Proof.
  intros Hx. pose proof (Nat.div_mod_eq q nI) as Hq. split.
  - symmetry. apply (Nat.mod_unique _ _ (q / nI)); lia.
  - symmetry. apply (Nat.div_unique _ _ _ (q `mod` nI + 1)); lia.
Qed.

Lemma succ_mod_eq q :
  (q `mod` nI + 1 = nI)%nat → ((1 + q) `mod` nI = 0)%nat.
Proof.
  intros Hx. pose proof (Nat.div_mod_eq q nI) as Hq.
  symmetry. apply (Nat.mod_unique _ _ (S (q / nI))); lia.
Qed.

Lemma add_mod_div q :
  ((nI + q) `mod` nI = q `mod` nI ∧ (nI + q) / nI = S (q / nI))%nat.
Proof.
  replace (nI + q)%nat with (q + 1 * nI)%nat by lia.
  rewrite Nat.Div0.mod_add, Nat.div_add by lia. lia.
Qed.

Lemma div_lt_rows q : (q < nI * nJ → q / nI < nJ)%nat.
Proof. intros. apply Nat.Div0.div_lt_upper_bound. lia. Qed.

Lemma count_shift_x (f : Z) (gy : nat → Prop) `{!∀ y, Decision (gy y)} :
  f = 0 ∨ f = 1 →
  length (filter (λ q, parity f (q `mod` nI) (q / nI) ∧
                       (1 < q `mod` nI + 1)%nat ∧ gy (q / nI)%nat)
                 (seq 0 (nI * nJ)))
  = length (filter (λ q, parity (1 - f) (q `mod` nI) (q / nI) ∧
                         (q `mod` nI + 1 < nI)%nat ∧ gy (q / nI)%nat)
                   (seq 0 (nI * nJ))).
Proof.
  intros Hf. apply (length_filter_shift _ _ 1).
  - intros q Hq. assert (q = 0%nat) as -> by lia.
    rewrite Nat.Div0.mod_0_l. lia.
  - intros q Hq.
    destruct (decide (q `mod` nI + 1 < nI)%nat) as [Hx|Hx].
    + destruct (succ_mod_lt q Hx) as [-> ->].
      rewrite Nat.add_1_r, parity_flip_x by done. intuition lia.
    + pose proof (Nat.mod_upper_bound q nI).
      rewrite succ_mod_eq by lia. intuition lia.
  - intros q Hq Hend. assert (q = (nI * nJ - 1)%nat) as -> by lia.
    intros (_ & Hx & _). revert Hx.
    replace (nI * nJ - 1)%nat with ((nI - 1) + (nJ - 1) * nI)%nat by nia.
    rewrite Nat.Div0.mod_add, Nat.mod_small by lia. lia.
Qed.

Lemma count_shift_y (f : Z) :
  f = 0 ∨ f = 1 →
  length (filter (λ q, parity f (q `mod` nI) (q / nI) ∧
                       (q `mod` nI + 1 = nI)%nat ∧ (1 < q / nI + 1)%nat)
                 (seq 0 (nI * nJ)))
  = length (filter (λ q, parity (1 - f) (q `mod` nI) (q / nI) ∧
                         (q `mod` nI + 1 = nI)%nat ∧ (q / nI + 1 < nJ)%nat)
                   (seq 0 (nI * nJ))).
Proof.
  intros Hf. apply (length_filter_shift _ _ nI).
  - intros q Hq. rewrite Nat.div_small by done. lia.
  - intros q Hq. destruct (add_mod_div q) as [-> ->].
    rewrite parity_flip_y by done.
    assert (q / nI + 1 < nJ)%nat.
    { pose proof (Nat.div_mod_eq q nI). pose proof (Nat.mod_upper_bound q nI).
      pose proof (div_lt_rows (q + nI)). 
      destruct (add_mod_div q) as [_ Hd].
      replace (q + nI)%nat with (nI + q)%nat in H1 by lia.
      rewrite Hd in H1. lia. }
    intuition lia.
  - intros q Hq Hend (_ & _ & Hy).
    pose proof (Nat.div_mod_eq q nI). pose proof (Nat.mod_upper_bound q nI).
    nia.
Qed.

Lemma count_parity_split (R : nat → Prop) `{!∀ q, Decision (R q)} (N : nat) :
  (length (filter (λ q, parity 0 (q `mod` nI) (q / nI) ∧ R q) (seq 0 N))
   + length (filter (λ q, parity 1 (q `mod` nI) (q / nI) ∧ R q) (seq 0 N))
   = length (filter R (seq 0 N)))%nat.
Proof.
  rewrite <-(length_filter_split (λ q, parity 0 (q `mod` nI) (q / nI)) R).
  f_equal. f_equal. apply filter_ext_in. intros q _.
  by rewrite parity_1_not_0.
Qed.

Lemma length_where_ij (P : Z → Z → bool) (P' : nat → Prop)
    `{!∀ q, Decision (P' q)} :
  (∀ q, (q < nI * nJ)%nat →
        P (Z.of_nat (q `mod` nI) + 1) (Z.of_nat (q / nI) + 1) = true ↔ P' q) →
  length (where_ij (grid_i (Z.of_nat nI) (Z.of_nat nJ))
                   (grid_j (Z.of_nat nI) (Z.of_nat nJ)) P)
  = length (filter P' (seq 0 (nI * nJ))).
Proof.
  intros HP. rewrite where_ij_grid, length_fmap. f_equal.
  apply filter_ext_in. intros q [_ ?]%elem_of_seq. apply HP. lia.
Qed.

Ltac index_set_size :=
  apply length_where_ij; intros q _; unfold par, parity;
  rewrite !andb_true_iff, !bool_decide_eq_true; lia.

Lemma length_c1 f :
  length (c1 (Z.of_nat nI) (Z.of_nat nJ) f)
  = length (filter (λ q, parity f (q `mod` nI) (q / nI) ∧
                         (q `mod` nI + 1 < nI)%nat ∧ (q / nI + 1 < nJ)%nat)
                   (seq 0 (nI * nJ))).
Proof. index_set_size. Qed.

Lemma length_c2 f :
  length (c2 (Z.of_nat nI) (Z.of_nat nJ) f)
  = length (filter (λ q, parity f (q `mod` nI) (q / nI) ∧
                         (1 < q `mod` nI + 1)%nat ∧ (q / nI + 1 < nJ)%nat)
                   (seq 0 (nI * nJ))).
Proof. index_set_size. Qed.

Lemma length_c11 f :
  length (c11 (Z.of_nat nI) (Z.of_nat nJ) f)
  = length (filter (λ q, parity f (q `mod` nI) (q / nI) ∧
                         (q `mod` nI + 1 = nI)%nat ∧ (q / nI + 1 < nJ)%nat)
                   (seq 0 (nI * nJ))).
Proof. index_set_size. Qed.

Lemma length_c21 f :
  length (c21 (Z.of_nat nI) (Z.of_nat nJ) f)
  = length (filter (λ q, parity f (q `mod` nI) (q / nI) ∧
                         (q `mod` nI + 1 = nI)%nat ∧ (1 < q / nI + 1)%nat)
                   (seq 0 (nI * nJ))).
Proof. index_set_size. Qed.

Lemma length_c12 f :
  length (c12 (Z.of_nat nI) (Z.of_nat nJ) f)
  = length (filter (λ q, parity f (q `mod` nI) (q / nI) ∧
                         (q `mod` nI + 1 < nI)%nat ∧ (q / nI + 1 = nJ)%nat)
                   (seq 0 (nI * nJ))).
Proof. index_set_size. Qed.

Lemma length_c22 f :
  length (c22 (Z.of_nat nI) (Z.of_nat nJ) f)
  = length (filter (λ q, parity f (q `mod` nI) (q / nI) ∧
                         (1 < q `mod` nI + 1)%nat ∧ (q / nI + 1 = nJ)%nat)
                   (seq 0 (nI * nJ))).
Proof. index_set_size. Qed.

(** Both parity classes together fill a region of the grid. *)
Lemma count_both_parities (f : Z) (R : nat → Prop) `{!∀ q, Decision (R q)} :
  f = 0 ∨ f = 1 →
  (length (filter (λ q, parity f (q `mod` nI) (q / nI) ∧ R q) (seq 0 (nI * nJ)))
   + length (filter (λ q, parity (1 - f) (q `mod` nI) (q / nI) ∧ R q)
                    (seq 0 (nI * nJ)))
   = length (filter R (seq 0 (nI * nJ))))%nat.
Proof.
  intros [-> | ->]; [change (1 - 0) with 1|change (1 - 1) with 0];
    rewrite <-(count_parity_split R (nI * nJ)); lia.
Qed.

Lemma length_c1_c2 f :
  f = 0 ∨ f = 1 →
  (length (c1 (Z.of_nat nI) (Z.of_nat nJ) f)
   + length (c2 (Z.of_nat nI) (Z.of_nat nJ) f) = (nI - 1) * (nJ - 1))%nat.
Proof.
  intros Hf. rewrite length_c1, length_c2.
  pose proof (count_shift_x f (λ y, y + 1 < nJ)%nat Hf) as Hs.
  pose proof (count_both_parities f
    (λ q, (q `mod` nI + 1 < nI)%nat ∧ (q / nI + 1 < nJ)%nat) Hf) as Hb.
  pose proof (length_filter_grid nI nJ (λ x, x + 1 < nI)%nat
                (λ y, y + 1 < nJ)%nat HI) as Hg.
  cbv beta in Hs, Hb, Hg. rewrite Hs, Hb, Hg. by rewrite !count_below.
Qed.

Lemma length_c11_c21 f :
  f = 0 ∨ f = 1 →
  (length (c11 (Z.of_nat nI) (Z.of_nat nJ) f)
   + length (c21 (Z.of_nat nI) (Z.of_nat nJ) f) = nJ - 1)%nat.
Proof.
  intros Hf. rewrite length_c11, length_c21.
  pose proof (count_shift_y f Hf) as Hs.
  pose proof (count_both_parities f
    (λ q, (q `mod` nI + 1 = nI)%nat ∧ (q / nI + 1 < nJ)%nat) Hf) as Hb.
  pose proof (length_filter_grid nI nJ (λ x, x + 1 = nI)%nat
                (λ y, y + 1 < nJ)%nat HI) as Hg.
  cbv beta in Hs, Hb, Hg. rewrite Hs, Hb, Hg.
  rewrite count_below, count_last by done. lia.
Qed.

Lemma length_c12_c22 f :
  f = 0 ∨ f = 1 →
  (length (c12 (Z.of_nat nI) (Z.of_nat nJ) f)
   + length (c22 (Z.of_nat nI) (Z.of_nat nJ) f) = nI - 1)%nat.
Proof.
  intros Hf. rewrite length_c12, length_c22.
  pose proof (count_shift_x f (λ y, y + 1 = nJ)%nat Hf) as Hs.
  pose proof (count_both_parities f
    (λ q, (q `mod` nI + 1 < nI)%nat ∧ (q / nI + 1 = nJ)%nat) Hf) as Hb.
  pose proof (length_filter_grid nI nJ (λ x, x + 1 < nI)%nat
                (λ y, y + 1 = nJ)%nat HI) as Hg.
  cbv beta in Hs, Hb, Hg. rewrite Hs, Hb, Hg.
  rewrite count_below, count_last by done. lia.
Qed.

Lemma length_pairs t : length (pairs t) = length t.1.1.
Proof. unfold pairs. by rewrite length_fmap. Qed.

Lemma length_edg0 f :
  f = 0 ∨ f = 1 →
  Z.of_nat (length (edg0 (Z.of_nat nI) (Z.of_nat nJ) f))
  = n2 (Z.of_nat nI) (Z.of_nat nJ).
Proof.
  intros Hf. rewrite edg0_triples, length_eadd. unfold triples0. csimpl.
  rewrite !length_app, !length_pairs. simpl.
  pose proof (length_c1_c2 f Hf). pose proof (length_c11_c21 f Hf).
  pose proof (length_c12_c22 f Hf). unfold n2. nia.
Qed.

Lemma length_edg1_edg2 f :
  f = 0 ∨ f = 1 →
  Z.of_nat (length (edg0 (Z.of_nat nI) (Z.of_nat nJ) f)
            + length (edg1 (Z.of_nat nI) (Z.of_nat nJ) f)
            + length (edg2 (Z.of_nat nI) (Z.of_nat nJ) f)) + 1
  = n1 (Z.of_nat nI) (Z.of_nat nJ).
Proof.
  intros Hf. rewrite edg0_triples, edg1_triples, edg2_triples, !length_eadd.
  unfold triples0, triples1, triples2. csimpl.
  rewrite !length_app, !length_pairs. simpl.
  pose proof (length_c1_c2 f Hf). pose proof (length_c11_c21 f Hf).
  pose proof (length_c12_c22 f Hf). unfold n1. nia.
Qed.

End sizes.

(** ** Filling the template array *)

Lemma mapM_inr {A B} (f : A → exn + B) (g : A → B) (l : list A) :
  (∀ x, x ∈ l → f x = inr (g x)) → mapM f l = inr (g <$> l).
Proof.
  induction l as [|x l IH]; intros Hl; [done|].
  change (mapM f (x :: l)) with (y ← f x; k ← mapM f l; mret (y :: k)).
  rewrite (Hl x) by left. rewrite IH by (intros y Hy; apply Hl; by right).
  done.
Qed.

Lemma py_index_in_range (len : nat) (i : Z) :
  0 ≤ i < Z.of_nat len → py_index len i = inr (Z.to_nat i).
Proof. intros Hi. unfold py_index. by rewrite decide_True. Qed.

Lemma py_get_in_range {A} (a : list A) (i : Z) (x : A) :
  0 ≤ i → a !! Z.to_nat i = Some x → py_get a i = inr x.
Proof.
  intros Hi Hx. unfold py_get. rewrite py_index_in_range.
  - simpl. by rewrite Hx.
  - apply lookup_lt_Some in Hx. lia.
Qed.

Lemma foldl_insert_lookup {A} (T : list A) (s : nat) (val : list A) (r : nat) :
  (s + length val ≤ length T)%nat →
  let T' := foldl (λ a (pv : nat * A), <[pv.1 := pv.2]> a) T
                  (zip (seq s (length val)) val) in
  length T' = length T ∧
  T' !! r = if decide (s ≤ r < s + length val)%nat then val !! (r - s)%nat
            else T !! r.
Proof.
  revert T s. induction val as [|v val IH]; intros T s Hlen; simpl.
  - split; [done|]. by rewrite decide_False by lia.
  - destruct (IH (<[s:=v]> T) (S s)) as [Hl Hr]; [rewrite length_insert; simpl in *; lia|].
    rewrite length_insert in Hl. split; [done|]. rewrite Hr.
    destruct (decide (s = r)) as [->|Hne].
    + rewrite decide_False, decide_True by lia.
      rewrite Nat.sub_diag. simpl. apply list_lookup_insert_eq. simpl in *. lia.
    + rewrite list_lookup_insert_ne by done.
      destruct (decide (S s ≤ r < S s + length val)%nat).
      * rewrite decide_True by lia.
        by replace (r - s)%nat with (S (r - S s)) by lia.
      * by rewrite decide_False by lia.
Qed.

Lemma assign_rows_written (Q : edge → Prop) (W : nat → Prop)
    (T : list edge) (start n : Z) (val : list edge) :
  0 ≤ start → 0 ≤ n → length val = Z.to_nat n →
  (Z.to_nat start + Z.to_nat n ≤ length T)%nat →
  Forall Q val →
  (∀ r e, W r → T !! r = Some e → Q e) →
  ∃ T', assign_rows start n val T = inr T' ∧ length T' = length T ∧
        ∀ r e, W r ∨ (Z.to_nat start ≤ r < Z.to_nat start + Z.to_nat n)%nat →
               T' !! r = Some e → Q e.
Proof.
  intros Hs Hn Hval Hfit HQ HW. unfold assign_rows.
  assert (length (vadd (np_arange 0 n) start) = Z.to_nat n) as Hidx.
  { unfold vadd, np_arange. rewrite !length_fmap, length_seq. f_equal. lia. }
  rewrite Hidx, decide_True by done.
  rewrite (mapM_inr _ Z.to_nat); last first.
  { intros i. unfold vadd, np_arange. rewrite <-list_fmap_compose.
    intros (t & -> & [_ Ht]%elem_of_seq)%list_elem_of_fmap. simpl.
    apply py_index_in_range. lia. }
  simpl. eexists. split; [done|].
  assert (Z.to_nat <$> vadd (np_arange 0 n) start
          = seq (Z.to_nat start) (length val)) as ->.
  { unfold vadd, np_arange. rewrite <-!list_fmap_compose.
    rewrite (seq_add_fmap (Z.to_nat start)), Hval.
    replace (Z.to_nat (n - 0)) with (Z.to_nat n) by lia.
    apply list_fmap_ext. intros _ t _. simpl. lia. }
  split.
  - apply (foldl_insert_lookup T (Z.to_nat start) val 0). lia.
  - intros r e Hr.
    destruct (foldl_insert_lookup T (Z.to_nat start) val r) as [_ ->]; [lia|].
    destruct (decide _) as [Hin|Hout].
    + intros He%list_elem_of_lookup_2. rewrite Forall_forall in HQ. by apply HQ.
    + intros He. apply (HW r); [|done]. destruct Hr as [?|?]; [done|lia].
Qed.

Lemma elem_of_colon_2 (s e k : Z) :
  k ∈ colon s e 2 ↔ s ≤ k ≤ e ∧ (k - s) `mod` 2 = 0.
Proof.
  unfold colon. rewrite list_elem_of_fmap. split.
  - intros (t & -> & [_ Ht]%elem_of_seq). zify.
    Z.to_euclidean_division_equations. lia.
  - intros [Hk Hmod]. exists (Z.to_nat ((k - s) `div` 2)). split.
    + zify. Z.to_euclidean_division_equations. lia.
    + apply elem_of_seq. zify. Z.to_euclidean_division_equations. lia.
Qed.

Lemma mapM_py_get_all (l : list edge) :
  mapM (py_get l) (np_arange 0 (Z.of_nat (length l))) = inr l.
Proof.
  rewrite (mapM_inr _ (λ i, default (0, 0) (l !! Z.to_nat i))).
  - f_equal. apply list_eq. intros i. unfold np_arange.
    rewrite <-list_fmap_compose, list_lookup_fmap.
    replace (Z.to_nat (Z.of_nat (length l) - 0)) with (length l) by lia.
    destruct (decide (i < length l)%nat) as [Hi|Hi].
    + rewrite lookup_seq_lt by done. simpl.
      replace (Z.to_nat (0 + Z.of_nat i)) with i by lia.
      by destruct (lookup_lt_is_Some_2 l i Hi) as [e ->].
    + rewrite lookup_seq_ge, lookup_ge_None_2 by lia. done.
  - intros i. unfold np_arange.
    intros (t & -> & [_ Ht]%elem_of_seq)%list_elem_of_fmap.
    destruct (lookup_lt_is_Some_2 l t) as [e He]; [lia|].
    replace (Z.to_nat (0 + Z.of_nat t)) with t by lia. rewrite He. simpl.
    apply py_get_in_range; [lia|].
    by replace (Z.to_nat (0 + Z.of_nat t)) with t by lia.
Qed.

Lemma Forall_good_eadd hi hi' d l :
  0 ≤ d → hi' + d ≤ hi → Forall (good hi') l → Forall (good hi) (eadd l d).
Proof.
  intros Hd Hhi Hl. unfold eadd. apply Forall_fmap.
  eapply Forall_impl; [done|]. intros e (? & ? & ?). unfold good. simpl. lia.
Qed.

Lemma good_weaken hi hi' l : hi' ≤ hi → Forall (good hi') l → Forall (good hi) l.
Proof.
  intros ? Hl. eapply Forall_impl; [done|]. intros e (? & ? & ?).
  unfold good. lia.
Qed.

(** The template is filled slab by slab. Whatever holds of every row of the
    three blocks and of the corner row, shifted to each of the slabs, and of
    the rows of the bottom block shifted to the top slice, holds of every
    row of the template. *)
Section fill.
Context (nI nJ nK : nat).
Context (HI : (0 < nI)%nat) (HJ : (0 < nJ)%nat) (HK : (0 < nK)%nat).

Let N1 := n1 (Z.of_nat nI) (Z.of_nat nJ).
Let N2 := n2 (Z.of_nat nI) (Z.of_nat nJ).
Let IJ := Z.of_nat nI * Z.of_nat nJ.
Let size := (Z.of_nat nK - 1) * N1 + N2.

Context (Q : edge → Prop).
Context (HQ0 : ∀ f k, 1 ≤ k ≤ Z.of_nat nK →
           Forall Q (eadd (edg0 (Z.of_nat nI) (Z.of_nat nJ) f) ((k - 1) * IJ))).
Context (HQ1 : ∀ f k, 1 ≤ k ≤ Z.of_nat nK - 1 →
           Forall Q (eadd (edg1 (Z.of_nat nI) (Z.of_nat nJ) f) ((k - 1) * IJ))).
Context (HQ2 : ∀ f k, 1 ≤ k ≤ Z.of_nat nK - 1 →
           Forall Q (eadd (edg2 (Z.of_nat nI) (Z.of_nat nJ) f) ((k - 1) * IJ))).
Context (HQc : ∀ k, 1 ≤ k ≤ Z.of_nat nK - 1 →
           Q (IJ + (k - 1) * IJ, 2 * IJ + (k - 1) * IJ)).

Lemma N1_pos : 1 ≤ N1.
Proof. unfold N1, n1. nia. Qed.

Lemma N2_nonneg : 0 ≤ N2.
Proof. unfold N2, n2. nia. Qed.

Lemma fill_blocks (block : list edge) (ks : list Z) (W : nat → Prop)
    (T : list edge) :
  (∀ k, k ∈ ks → Forall Q (eadd block ((k - 1) * IJ))) →
  length block = Z.to_nat N1 →
  (∀ k, k ∈ ks → 1 ≤ k ≤ Z.of_nat nK - 1) →
  length T = Z.to_nat size →
  (∀ r e, W r → T !! r = Some e → Q e) →
  ∃ T',
    for_each ks (λ k edg,
      assign_rows ((k - 1) * N1) N1 (eadd block ((k - 1) * IJ)) edg) T
    = inr T' ∧
    length T' = Z.to_nat size ∧
    ∀ r e,
      W r ∨ (∃ k, k ∈ ks ∧ (k - 1) * N1 ≤ Z.of_nat r < k * N1) →
      T' !! r = Some e → Q e.
Proof.
  intros Hblock Hlen. revert W T Hblock.
  induction ks as [|k ks IH]; intros W T Hblock Hks HT HW.
  - exists T. split; [done|]. split; [done|].
    intros r e [?|(k & []%elem_of_nil & _)]. by apply HW.
  - pose proof N1_pos. pose proof N2_nonneg.
    assert (1 ≤ k ≤ Z.of_nat nK - 1) as Hk by (apply Hks; left).
    destruct (assign_rows_written Q W T ((k - 1) * N1) N1
                (eadd block ((k - 1) * IJ))) as (T1 & HT1 & Hl1 & HW1).
    + nia.
    + lia.
    + by rewrite length_eadd.
    + rewrite HT. unfold size. nia.
    + apply Hblock. left.
    + done.
    + destruct (IH (λ r, W r ∨ (Z.to_nat ((k - 1) * N1) ≤ r
                                < Z.to_nat ((k - 1) * N1) + Z.to_nat N1)%nat) T1)
        as (T' & HT' & Hl' & HW');
        [intros; apply Hblock; by right|intros; apply Hks; by right
        |congruence|exact HW1|].
      exists T'. simpl. rewrite HT1. simpl. split; [done|]. split; [done|].
      intros r e Hr. apply HW'.
      destruct Hr as [?|(k' & [->|?]%elem_of_cons & Hr)].
      * left. by left.
      * left. right. nia.
      * right. eauto.
Qed.

Lemma block_rows f k (a b : list edge) :
  1 ≤ k ≤ Z.of_nat nK - 1 →
  Forall Q (eadd a ((k - 1) * IJ)) → Forall Q (eadd b ((k - 1) * IJ)) →
  Forall Q
    (eadd (edg0 (Z.of_nat nI) (Z.of_nat nJ) f ++ a ++ b ++ [(IJ, 2 * IJ)])
          ((k - 1) * IJ)).
Proof.
  intros Hk Ha Hb. unfold eadd in *. rewrite !fmap_app, !Forall_app.
  split; [|split; [|split]]; try done.
  - apply HQ0. lia.
  - repeat constructor. simpl. by apply HQc.
Qed.

Lemma template_step_ok (f : Z) (W : nat → Prop) (T : list edge) :
  f = 0 ∨ f = 1 →
  length T = Z.to_nat size →
  (∀ r e, W r → T !! r = Some e → Q e) →
  ∃ T',
    template_step (Z.of_nat nI) (Z.of_nat nJ) (Z.of_nat nK) f T = inr T' ∧
    length T' = Z.to_nat size ∧
    ∀ r e,
      W r ∨
      (∃ k, k ∈ colon (1 + f) (Z.of_nat nK - 1) 2 ∧
            (k - 1) * N1 ≤ Z.of_nat r < k * N1) ∨
      ((Z.of_nat nK + 1) `mod` 2 = f ∧ (Z.of_nat nK - 1) * N1 ≤ Z.of_nat r) →
      T' !! r = Some e → Q e.
Proof.
  intros Hf HT HW. pose proof N1_pos. pose proof N2_nonneg.
  pose proof (length_edg0 nI nJ HI HJ f Hf) as Hl0.
  pose proof (length_edg1_edg2 nI nJ HI HJ f Hf) as Hl12.
  fold N1 in Hl12. fold N2 in Hl0.
  set (W1 := λ r, W r ∨ ∃ k, k ∈ colon (1 + f) (Z.of_nat nK - 1) 2 ∧
                              (k - 1) * N1 ≤ Z.of_nat r < k * N1).
  assert (∃ T1,
    (if decide (f ≠ 0) then
       for_each (colon 2 (Z.of_nat nK - 1) 2) (λ k edg,
         assign_rows ((k - 1) * N1) N1
           (eadd (edg0 (Z.of_nat nI) (Z.of_nat nJ) f
                  ++ edg2 (Z.of_nat nI) (Z.of_nat nJ) f
                  ++ edg1 (Z.of_nat nI) (Z.of_nat nJ) f ++ [(IJ, 2 * IJ)])
                 ((k - 1) * IJ)) edg) T
     else
       for_each (colon 1 (Z.of_nat nK - 1) 2) (λ k edg,
         assign_rows ((k - 1) * N1) N1
           (eadd (edg0 (Z.of_nat nI) (Z.of_nat nJ) f
                  ++ edg1 (Z.of_nat nI) (Z.of_nat nJ) f
                  ++ edg2 (Z.of_nat nI) (Z.of_nat nJ) f ++ [(IJ, 2 * IJ)])
                 ((k - 1) * IJ)) edg) T) = inr T1 ∧
    length T1 = Z.to_nat size ∧
    ∀ r e, W1 r → T1 !! r = Some e → Q e) as (T1 & HT1 & Hlen1 & HW1).
  { destruct Hf as [-> | ->].
    - destruct (decide ((0:Z) ≠ 0)) as [?|_]; [done|].
      apply fill_blocks; [|rewrite !length_app; simpl; lia| |done|done].
      + intros k Hk%elem_of_colon_2.
        apply block_rows; [lia|apply HQ1; lia|apply HQ2; lia].
      + intros k Hk%elem_of_colon_2. lia.
    - destruct (decide ((1:Z) ≠ 0)) as [_|[]]; [|done].
      apply fill_blocks; [|rewrite !length_app; simpl; lia| |done|done].
      + intros k Hk%elem_of_colon_2.
        apply block_rows; [lia|apply HQ2; lia|apply HQ1; lia].
      + intros k Hk%elem_of_colon_2. lia. }
  unfold template_step. cbv zeta. fold N1 N2 IJ. rewrite HT1. simpl.
  destruct (decide ((Z.of_nat nK + 1) `mod` 2 = f)) as [Htop|Htop].
  - replace (np_arange 0 N2)
      with (np_arange 0 (Z.of_nat (length (edg0 (Z.of_nat nI) (Z.of_nat nJ) f))))
      by (by rewrite Hl0).
    rewrite mapM_py_get_all. simpl.
    destruct (assign_rows_written Q W1 T1 ((Z.of_nat nK - 1) * N1) N2
                (eadd (edg0 (Z.of_nat nI) (Z.of_nat nJ) f)
                      ((Z.of_nat nK - 1) * IJ))) as (T2 & HT2 & Hlen2 & HW2).
    + nia.
    + done.
    + rewrite length_eadd. lia.
    + rewrite Hlen1. unfold size. nia.
    + apply HQ0. lia.
    + done.
    + exists T2. split; [done|]. split; [congruence|].
      intros r e Hr He. apply (HW2 r e); [|done].
      assert (T2 !! r = Some e → (r < Z.to_nat size)%nat) as Hrl.
      { intros ?%lookup_lt_Some. lia. }
      specialize (Hrl He). unfold W1. unfold size in Hrl.
      destruct Hr as [?|[?|[_ ?]]]; [by left; left|by left; right|right; nia].
  - exists T1. split; [done|]. split; [done|].
    intros r e Hr. apply HW1. unfold W1.
    destruct Hr as [?|[?|[? _]]]; [by left|by right|done].
Qed.

Lemma lat_template_rows :
  ∃ T,
    lat_template (Z.of_nat nI) (Z.of_nat nJ) (Z.of_nat nK) = inr T ∧
    Z.of_nat (length T) = size ∧
    Forall Q T.
Proof.
  pose proof N1_pos. pose proof N2_nonneg.
  unfold lat_template. cbv zeta. fold N1 N2 size.
  destruct (decide (size < 0)) as [Hneg|_]; [unfold size in Hneg; nia|].
  change (np_arange 0 2) with [0; 1]. simpl.
  destruct (template_step_ok 0 (λ _, False)
              (replicate (Z.to_nat size) (0, 0)))
    as (T1 & HT1 & Hl1 & HW1); [by left|by rewrite length_replicate|done|].
  rewrite HT1. simpl.
  destruct (template_step_ok 1
              (λ r, (∃ k, k ∈ colon (1 + 0) (Z.of_nat nK - 1) 2 ∧
                          (k - 1) * N1 ≤ Z.of_nat r < k * N1) ∨
                    ((Z.of_nat nK + 1) `mod` 2 = 0 ∧
                     (Z.of_nat nK - 1) * N1 ≤ Z.of_nat r)) T1)
    as (T2 & HT2 & Hl2 & HW2); [by right|done| |].
  { intros r e Hr. apply HW1. by right. }
  rewrite HT2. simpl. exists T2. split; [done|].
  split; [rewrite Hl2; unfold size; nia|].
  apply Forall_lookup. intros r e He. apply (HW2 r e); [|done].
  pose proof (lookup_lt_Some _ _ _ He) as Hr. rewrite Hl2 in Hr.
  destruct (decide ((Z.of_nat nK - 1) * N1 ≤ Z.of_nat r)) as [Htop|Hlow].
  - destruct (decide ((Z.of_nat nK + 1) `mod` 2 = 0)).
    + left. by right.
    + right. right. split; [|done].
      pose proof (Z.mod_pos_bound (Z.of_nat nK + 1) 2). lia.
  - set (k := Z.of_nat r `div` N1 + 1).
    assert ((k - 1) * N1 ≤ Z.of_nat r < k * N1) as Hblock.
    { unfold k. pose proof (Z.mul_div_le (Z.of_nat r) N1).
      pose proof (Z.mul_succ_div_gt (Z.of_nat r) N1). nia. }
    assert (1 ≤ k ≤ Z.of_nat nK - 1) as Hk.
    { split; [unfold k; pose proof (Z.div_pos (Z.of_nat r) N1); lia|nia]. }
    destruct (decide ((k - 1) `mod` 2 = 0)) as [Hpar|Hpar].
    + left. left. exists k. split; [|done].
      apply elem_of_colon_2. split; [lia|]. by replace (k - (1 + 0)) with (k - 1) by lia.
    + right. left. exists k. split; [|done].
      apply elem_of_colon_2. split.
      * assert (k ≠ 1) by (intros ->; by apply Hpar). lia.
      * revert Hpar. clear. intros.
        zify; Z.to_euclidean_division_equations; lia.
Qed.

End fill.

Lemma lat_template_good (nI nJ nK : nat) :
  (0 < nI)%nat → (0 < nJ)%nat → (0 < nK)%nat →
  ∃ T,
    lat_template (Z.of_nat nI) (Z.of_nat nJ) (Z.of_nat nK) = inr T ∧
    Forall (good (Z.of_nat nI * Z.of_nat nJ * Z.of_nat nK)) T.
Proof.
  intros HI HJ HK.
  destruct (lat_template_rows nI nJ nK HI HJ HK
              (good (Z.of_nat nI * Z.of_nat nJ * Z.of_nat nK)))
    as (T & HT & _ & HQ).
  - intros f k Hk. eapply Forall_good_eadd; [| |apply edg0_good]; nia.
  - intros f k Hk. eapply Forall_good_eadd; [| |apply edg1_good]; nia.
  - intros f k Hk. eapply Forall_good_eadd; [| |apply edg2_good]; nia.
  - intros k Hk. unfold good. simpl. nia.
  - by exists T.
Qed.

(** ** Voxels and their compact numbers *)


Lemma length_bind_const {A B} (f : A → list B) (c : nat) (l : list A) :
  (∀ x, length (f x) = c) → length (l ≫= f) = (length l * c)%nat.
Proof.
  intros Hf. induction l as [|x l IH]; [done|].
  rewrite bind_cons, length_app, Hf, IH. simpl. lia.
Qed.

Lemma length_T_flatten (ni nj nk : nat) (buf : list bool) :
  length (T_flatten ni nj nk buf) = (nk * (nj * ni))%nat.
Proof.
  unfold T_flatten.
  rewrite (length_bind_const _ (nj * ni)), length_seq; [done|]. intros k.
  rewrite (length_bind_const _ ni), length_seq; [done|]. intros j.
  rewrite (length_bind_const _ 1), length_seq; [lia|done].
Qed.

Lemma lookup_bind_const {A B} (f : A → list B) (c : nat) (l : list A)
    (a b : nat) (x : A) (y : B) :
  (∀ x, length (f x) = c) → l !! a = Some x → f x !! b = Some y →
  (l ≫= f) !! (a * c + b)%nat = Some y.
Proof.
  intros Hf. revert a. induction l as [|x0 l IH]; intros a Ha Hb; [done|].
  rewrite bind_cons. destruct a as [|a].
  - injection Ha as ->. by rewrite lookup_app_l by (by apply lookup_lt_Some in Hb).
  - rewrite lookup_app_r by (rewrite Hf; simpl; lia).
    rewrite Hf. replace (S a * c + b - c)%nat with (a * c + b)%nat by (simpl; lia).
    by apply IH.
Qed.

Lemma lookup_T_flatten (ni nj nk : nat) (buf : list bool) (i j k : nat) :
  (i < ni)%nat → (j < nj)%nat → (k < nk)%nat →
  T_flatten ni nj nk buf !! (i + ni * (j + nj * k))%nat
  = Some (lat_get nj nk buf i j k).
Proof.
  intros Hi Hj Hk. unfold T_flatten.
  replace (i + ni * (j + nj * k))%nat
    with (k * (nj * ni) + (j * ni + (i * 1 + 0)))%nat by lia.
  apply (lookup_bind_const _ _ _ _ _ k); [|by apply lookup_seq|].
  { intros k'. rewrite (length_bind_const _ ni), length_seq; [done|].
    intros j'. rewrite (length_bind_const _ 1), length_seq by done. lia. }
  apply (lookup_bind_const _ _ _ _ _ j); [|by apply lookup_seq|].
  { intros j'. rewrite (length_bind_const _ 1), length_seq by done. lia. }
  apply (lookup_bind_const _ _ _ _ _ i); [done|by apply lookup_seq|done].
Qed.

Lemma count_true_app (a b : list bool) :
  count_true (a ++ b) = (count_true a + count_true b)%nat.
Proof. unfold count_true. by rewrite filter_app, length_app. Qed.

Lemma count_true_cons (b : bool) (l : list bool) :
  Z.of_nat (count_true (b :: l)) = b2z b + Z.of_nat (count_true l).
Proof.
  change (b :: l) with ([b] ++ l). rewrite count_true_app.
  destruct b; vm_compute (count_true [_]); simpl; lia.
Qed.

Lemma count_true_take_S (flat : list bool) (q : nat) (b : bool) :
  flat !! q = Some b →
  Z.of_nat (count_true (take (S q) flat))
  = Z.of_nat (count_true (take q flat)) + b2z b.
Proof.
  intros Hq. rewrite (take_S_r _ _ _ Hq), count_true_app.
  rewrite Nat2Z.inj_add, count_true_cons. vm_compute (count_true []). lia.
Qed.

Lemma lookup_cumsum (acc : Z) (flat : list bool) (q : nat) (b : bool) :
  flat !! q = Some b →
  cumsum_from acc (b2z <$> flat) !! q
  = Some (acc + Z.of_nat (count_true (take (S q) flat))).
Proof.
  revert acc q. induction flat as [|x flat IH]; intros acc q Hq; [done|].
  destruct q as [|q].
  - simpl in Hq. injection Hq as ->.
    change (Some (acc + b2z b)
            = Some (acc + Z.of_nat (count_true (b :: take 0 flat)))).
    rewrite count_true_cons, take_0. vm_compute (count_true []).
    f_equal. lia.
  - simpl in Hq.
    change (cumsum_from (acc + b2z x) (b2z <$> flat) !! q
            = Some (acc + Z.of_nat (count_true (x :: take (S q) flat)))).
    rewrite (IH _ _ Hq), count_true_cons. f_equal. lia.
Qed.

Lemma lookup_vid (flat : list bool) (q : nat) :
  occupied flat q →
  zip_with Z.mul (np_cumsum (b2z <$> flat)) (b2z <$> flat) !! q
  = Some (voxel_id flat q + 1).
Proof.
  intros Hq. unfold np_cumsum. rewrite lookup_zip_with.
  rewrite (lookup_cumsum _ _ _ _ Hq), list_lookup_fmap, Hq. simpl.
  rewrite (count_true_take_S _ _ _ Hq). unfold voxel_id. simpl. f_equal. lia.
Qed.

Lemma count_true_take_le (n : nat) (l : list bool) :
  (count_true (take n l) ≤ count_true l)%nat.
Proof.
  rewrite <-(take_drop n l) at 2. rewrite count_true_app. lia.
Qed.

Lemma voxel_id_lt (flat : list bool) (q1 q2 : nat) :
  occupied flat q1 → (q1 < q2)%nat → voxel_id flat q1 < voxel_id flat q2.
Proof.
  intros Hq Hlt. unfold voxel_id.
  pose proof (count_true_take_S _ _ _ Hq) as HS. simpl in HS.
  pose proof (count_true_take_le (S q1) (take q2 flat)) as Hle.
  rewrite take_take in Hle. replace (S q1 `min` q2)%nat with (S q1) in Hle by lia.
  lia.
Qed.

Lemma keep_occupied (flat : list bool) (e : edge) :
  keep flat e = true ↔ occupied flat (voxel_of e.1) ∧ occupied flat (voxel_of e.2).
Proof.
  unfold keep, occupied. rewrite andb_true_iff.
  destruct (flat !! voxel_of e.1) as [[]|], (flat !! voxel_of e.2) as [[]|];
    simpl; split; intros [? ?]; done.
Qed.

Lemma good_in_range (flat : list bool) (e : edge) :
  good (Z.of_nat (length flat)) e →
  0 ≤ e.1 - 1 ∧ 0 ≤ e.2 - 1 ∧
  (voxel_of e.1 < voxel_of e.2)%nat ∧
  is_Some (flat !! voxel_of e.1) ∧ is_Some (flat !! voxel_of e.2).
Proof.
  intros (? & ? & ?). unfold voxel_of. rewrite !lookup_lt_is_Some. lia.
Qed.

Lemma zip_with_andb_fmap {A} (f g : A → bool) (l : list A) :
  zip_with andb (f <$> l) (g <$> l) = (λ x, f x && g x) <$> l.
Proof. induction l as [|x l IH]; [done|]. csimpl. by rewrite IH. Qed.

Lemma lat_edges_tail (flat : list bool) (T : list edge) :
  Forall (good (Z.of_nat (length flat))) T →
  lat_inside flat T
  = inr (compact flat <$> filter (λ e, keep flat e = true) T).
Proof.
  intros HT. unfold lat_inside. rewrite Forall_forall in HT.
  rewrite (mapM_inr (λ e : edge, py_get flat (e.1 - 1))
             (λ e : edge, default false (flat !! voxel_of e.1))).
  2:{ intros e He. destruct (good_in_range _ _ (HT e He))
        as (? & ? & ? & [b1 Hb1] & _).
      rewrite Hb1. simpl. apply py_get_in_range; [done|exact Hb1]. }
  rewrite (mapM_inr (λ e : edge, py_get flat (e.2 - 1))
             (λ e : edge, default false (flat !! voxel_of e.2))).
  2:{ intros e He. destruct (good_in_range _ _ (HT e He))
        as (? & ? & ? & _ & [b2 Hb2]).
      rewrite Hb2. simpl. apply py_get_in_range; [done|exact Hb2]. }
  simpl. rewrite zip_with_andb_fmap.
  rewrite (bool_index_fmap (keep flat)).
  rewrite (mapM_inr _ (λ e : edge, (voxel_id flat (voxel_of e.1) + 1,
                                    voxel_id flat (voxel_of e.2) + 1))).
  2:{ intros e [Hk He]%list_elem_of_filter.
      apply keep_occupied in Hk as [H1 H2].
      destruct (good_in_range _ _ (HT e He)) as (? & ? & _).
      rewrite (py_get_in_range _ (e.1 - 1) _ ltac:(done) (lookup_vid _ _ H1)).
      rewrite (py_get_in_range _ (e.2 - 1) _ ltac:(done) (lookup_vid _ _ H2)).
      done. }
  simpl. f_equal. unfold eadd. rewrite <-list_fmap_compose.
  apply list_fmap_ext. intros _ e _. unfold compact. simpl. f_equal; lia.
Qed.

Lemma py_get_nil {A} (i : Z) : ∃ x, py_get (@nil A) i = inl x.
Proof.
  unfold py_get, py_index.
  repeat (case_decide; simpl); try lia; eauto.
Qed.

Lemma lat_edges_tail_empty (T edges : list edge) :
  lat_inside [] T = inr edges → edges = [].
Proof.
  unfold lat_inside. destruct T as [|e T].
  - simpl. by intros [= <-].
  - change (mapM (λ e : edge, py_get [] (e.1 - 1)) (e :: T))
      with (y ← py_get (@nil bool) (e.1 - 1);
            k ← mapM (λ e : edge, py_get (@nil bool) (e.1 - 1)) T;
            mret (y :: k)).
    destruct (py_get_nil (A := bool) (e.1 - 1)) as [x ->]. done.
Qed.

Lemma lat_edges_dims (lat : lattice) (ni nj nk : nat) :
  lat_dims lat = Some (ni, nj, nk) →
  lat_edges lat
  = (edg ← lat_template (Z.of_nat ni) (Z.of_nat nj) (Z.of_nat nk);
     lat_inside (voxels lat) edg).
Proof.
  destruct lat as [sh buf]. unfold lat_dims, voxels, lat_edges, lat_dims.
  simpl. destruct sh as [|a [|b [|c [|d sh]]]]; try done;
    by intros [= <- <- <-].
Qed.

Lemma lat_edges_no_dims (lat : lattice) :
  lat_dims lat = None → is_failure (lat_edges lat).
Proof.
  destruct lat as [sh buf]. unfold lat_dims, lat_edges. simpl.
  destruct sh as [|a [|b [|c [|d sh]]]]; try done; intros _; by eexists.
Qed.

Lemma occupied_count_true (flat : list bool) (q : nat) :
  occupied flat q → (0 < count_true flat)%nat.
Proof.
  intros Hq. pose proof (count_true_take_S _ _ _ Hq) as HS. simpl in HS.
  pose proof (count_true_take_le (S q) flat). lia.
Qed.

Lemma lat_edges_positive (lat : lattice) (ni nj nk : nat) :
  lat_dims lat = Some (ni, nj, nk) →
  (0 < ni)%nat → (0 < nj)%nat → (0 < nk)%nat →
  ∃ T, Forall (good (Z.of_nat (length (voxels lat)))) T ∧
       lat_edges lat
       = inr (compact (voxels lat)
                <$> filter (λ e, keep (voxels lat) e = true) T).
Proof.
  intros Hd Hi Hj Hk. rewrite (lat_edges_dims _ _ _ _ Hd).
  destruct (lat_template_good ni nj nk Hi Hj Hk) as (T & -> & HT).
  exists T. cbv zeta in HT.
  assert (Forall (good (Z.of_nat (length (voxels lat)))) T) as HT'.
  { unfold voxels. rewrite Hd, length_T_flatten.
    eapply good_weaken; [|exact HT]. lia. }
  split; [done|]. simpl. by apply lat_edges_tail.
Qed.

Lemma lat_edges_zero (lat : lattice) (ni nj nk : nat) (edges : list edge) :
  lat_dims lat = Some (ni, nj, nk) →
  (ni = 0 ∨ nj = 0 ∨ nk = 0)%nat →
  lat_edges lat = inr edges → edges = [].
Proof.
  intros Hd Hz. rewrite (lat_edges_dims _ _ _ _ Hd).
  assert (voxels lat = []) as ->.
  { apply nil_length_inv. unfold voxels. rewrite Hd, length_T_flatten. nia. }
  destruct (lat_template _ _ _) as [x|T]; [done|]. simpl.
  apply lat_edges_tail_empty.
Qed.

(** C8. Whatever the lattice, each row of the edge list that [mesh_edges]
    returns for it joins two different voxels that are both occupied: its
    entries are the compact numbers of two distinct positions of the
    flattened lattice whose flags are true, so no row is a self-loop and no
    row names an unoccupied voxel. A lattice with at least one voxel along
    each axis always gets an edge list, and the list is empty when no voxel
    is occupied. A 2-D lattice is handled as the 3-D lattice with a single
    slice. *)
Theorem lat_edges_connect_occupied_voxels (lat : lattice) :
  (∀ edges e,
     lat_edges lat = inr edges → e ∈ edges →
     e.1 ≠ e.2 ∧
     ∃ q1 q2,
       q1 ≠ q2 ∧ occupied (voxels lat) q1 ∧ occupied (voxels lat) q2 ∧
       e = (voxel_id (voxels lat) q1, voxel_id (voxels lat) q2)) ∧
  (∀ ni nj nk,
     lat_dims lat = Some (ni, nj, nk) →
     (0 < ni)%nat → (0 < nj)%nat → (0 < nk)%nat →
     ∃ edges,
       lat_edges lat = inr edges ∧
       (count_true (voxels lat) = 0%nat → edges = [])) ∧
  (∀ ni nj,
     lat_shape lat = [ni; nj] →
     lat_edges lat = lat_edges (Lattice [ni; nj; 1%nat] (lat_buffer lat))).
Proof.
  split; [|split].
  - intros edges e Hrun He.
    destruct (lat_dims lat) as [[[ni nj] nk]|] eqn:Hd.
    2:{ destruct (lat_edges_no_dims _ Hd) as [x Hx]. congruence. }
    destruct (decide (ni = 0 ∨ nj = 0 ∨ nk = 0)%nat) as [Hz|Hpos].
    { rewrite (lat_edges_zero _ _ _ _ _ Hd Hz Hrun) in He.
      by apply elem_of_nil in He. }
    destruct (lat_edges_positive _ _ _ _ Hd) as (T & HT & HT'); [lia..|].
    rewrite HT' in Hrun. injection Hrun as <-.
    apply list_elem_of_fmap in He as (e' & -> & [Hk He']%list_elem_of_filter).
    apply keep_occupied in Hk as [H1 H2].
    rewrite Forall_forall in HT.
    destruct (good_in_range _ _ (HT e' He')) as (_ & _ & Hlt & _).
    pose proof (voxel_id_lt _ _ _ H1 Hlt).
    split; [simpl; lia|].
    exists (voxel_of e'.1), (voxel_of e'.2).
    split; [lia|]. done.
  - intros ni nj nk Hd Hi Hj Hk.
    destruct (lat_edges_positive _ _ _ _ Hd Hi Hj Hk) as (T & HT & ->).
    eexists. split; [done|]. intros Hnone.
    destruct (filter _ T) as [|e' l] eqn:Hf; [done|].
    assert (e' ∈ filter (λ e, keep (voxels lat) e = true) T) as He'
      by (rewrite Hf; left).
    apply list_elem_of_filter in He' as [[H1 _]%keep_occupied _].
    apply occupied_count_true in H1. lia.
  - intros ni nj Hsh. destruct lat as [sh buf]. simpl in *. by subst.
Qed.

(** A 2 x 2 lattice with one voxel missing, and an unoccupied 2 x 2 x 1
    lattice. *)
Lemma lat_edges_connect_occupied_voxels_witness :
  lat_edges (Lattice [2; 2]%nat [true; false; true; true])
  = inr [(0, 1); (0, 2); (1, 2)] ∧
  lat_edges (Lattice [2; 2; 1]%nat [false; false; false; false]) = inr [].
Proof.
  split; [done|].
  destruct (proj1 (proj2 (lat_edges_connect_occupied_voxels
              (Lattice [2; 2; 1]%nat [false; false; false; false])))
              2 2 1 eq_refl)%nat
    as (edges & Hrun & Hnone); [lia..|].
  rewrite Hrun. f_equal. by apply Hnone.
Defined.

(** ** More on the triangle branch *)

Lemma canon_le (s : edge) : (canon s).1 ≤ (canon s).2.
Proof. unfold canon. simpl. lia. Qed.

Lemma tri_edges_le (tris : list triangle) (e : edge) :
  index_range tris → e ∈ tri_edges tris → e.1 ≤ e.2.
Proof.
  intros Hr He%elem_of_tri_edges_shift; [|done].
  apply list_elem_of_fmap in He as (s & Hs & _).
  pose proof (canon_le s) as Hle. rewrite <-Hs in Hle. simpl in Hle. lia.
Qed.

Lemma tri_edges_NoDup (tris : list triangle) :
  Forall int64_triangle tris → NoDup (tri_edges tris).
Proof.
  intros Htris. unfold tri_edges. apply NoDup_fmap_2_strong.
  - intros e1 e2 H1%elem_of_tri_unique H2%elem_of_tri_unique.
    apply sub1_inj; by eapply geometric_edges_int64.
  - apply np_unique_NoDup; apply _.
Qed.

Lemma repeated_vertex_side (t : triangle) :
  ¬ NoDup (tri_vertices t) ↔ ∃ s, s ∈ tri_sides t ∧ s.1 = s.2.
Proof.
  destruct t as [[a b] c]. unfold tri_vertices, tri_sides. simpl. split.
  - intros Hnd.
    destruct (decide (a = b)) as [->|Hab];
      [exists (b, b); split; [left|done]|].
    destruct (decide (a = c)) as [->|Hac];
      [exists (c, c); split; [right; left|done]|].
    destruct (decide (b = c)) as [->|Hbc];
      [exists (c, c); split; [right; right; left|done]|].
    destruct Hnd. repeat (constructor; [set_solver|]). constructor.
  - intros (s & Hs & Heq) Hnd.
    apply NoDup_cons in Hnd as [Ha Hnd]. apply NoDup_cons in Hnd as [Hb _].
    rewrite !elem_of_cons, elem_of_nil in Hs. 
    rewrite !elem_of_cons, elem_of_nil in Ha.
    rewrite !elem_of_cons, elem_of_nil in Hb.
    destruct Hs as [->|[->|[->|[]]]]; simpl in Heq; subst; tauto.
Qed.

(** X1. On the triangle path every row has its smaller index first, and a row
    with two equal indices is returned exactly when some triangle names a
    vertex twice. *)
Theorem tri_edges_self_loops (tris : list triangle) :
  index_range tris →
  (∀ e, e ∈ tri_edges tris → e.1 ≤ e.2) ∧
  ((∃ e, e ∈ tri_edges tris ∧ e.1 = e.2) ↔
   (∃ t, t ∈ tris ∧ ¬ NoDup (tri_vertices t))).
Proof.
  intros Hr. split; [|split].
  - intros e. by apply tri_edges_le.
  - intros (e & He%elem_of_tri_edges_shift & Heq); [|done].
    apply list_elem_of_fmap in He as (s & Hs & (t & Ht & Hst)%list_elem_of_bind).
    exists t. split; [done|]. apply repeated_vertex_side. exists s.
    split; [done|]. unfold canon in Hs. simpl in Hs. injection Hs as H1 H2. lia.
  - intros (t & Ht & (s & Hs & Heq)%repeated_vertex_side).
    exists (s.1 - 1, s.1 - 1). split; [|done].
    apply elem_of_tri_edges_shift; [done|]. simpl.
    replace (s.1 - 1 + 1) with s.1 by lia.
    apply list_elem_of_fmap. exists s. split.
    + unfold canon. rewrite <-Heq. f_equal; lia.
    + apply list_elem_of_bind. eauto.
Qed.

Lemma tri_edges_self_loops_witness :
  ∃ e, e ∈ tri_edges [(1, 2, 3); (4, 4, 2)] ∧ e.1 = e.2.
Proof.
  apply (tri_edges_self_loops [(1, 2, 3); (4, 4, 2)]).
  - intros t v Ht Hv. 
    repeat (apply elem_of_cons in Ht as [->|Ht];
            [unfold tri_vertices in Hv; simpl in Hv;
             repeat (apply elem_of_cons in Hv as [->|Hv]; [lia|]);
             by apply elem_of_nil in Hv|]).
    by apply elem_of_nil in Ht.
  - exists (4, 4, 2). split; [right; left|].
    unfold tri_vertices. simpl. intros Hnd.
    apply NoDup_cons in Hnd as [Hnd _]. apply Hnd. left.
Defined.

Lemma length_np_unique_le {A} `{EqDecision A} (R : relation A)
    `{!∀ x y, Decision (R x y), !PartialOrder R, !Total R} (l : list A) :
  (length (np_unique R l) ≤ length l)%nat.
Proof.
  apply submseteq_length, NoDup_submseteq.
  - apply np_unique_NoDup; apply _.
  - intros x. by rewrite elem_of_np_unique by apply _.
Qed.

Lemma length_tri_pairs (tris : list triangle) :
  length (tri_pairs tris) = (3 * length tris)%nat.
Proof. unfold tri_pairs. rewrite !length_app, !length_fmap. lia. Qed.

(** X2. The triangle path returns at most three rows per triangle and none only
    for an empty triangle list; the vertices its rows name are those of the
    triangles, each one lower. *)
Theorem tri_edges_size_and_vertices (tris : list triangle) :
  index_range tris →
  (length (tri_edges tris) ≤ 3 * length tris)%nat ∧
  (tri_edges tris = [] ↔ tris = []) ∧
  (∀ v, (∃ e, e ∈ tri_edges tris ∧ (e.1 = v ∨ e.2 = v)) ↔
        (∃ t, t ∈ tris ∧ v + 1 ∈ tri_vertices t)).
Proof.
  intros Hr. split; [|split].
  - unfold tri_edges, tri_unique. rewrite length_fmap, <-length_tri_pairs.
    apply length_np_unique_le; apply _.
  - split; [|by intros ->].
    destruct tris as [|t tris]; [done|]. intros Hnil.
    destruct t as [[a b] c].
    destruct (vertex_in_geometric_edges ((a, b, c) :: tris) (a, b, c) a)
      as ([u w] & Hg & _); [left|left|].
    assert ((u - 1, w - 1) ∈ tri_edges ((a, b, c) :: tris)) as He.
    { apply elem_of_tri_edges_shift; [done|]. simpl.
      by replace (u - 1 + 1) with u by lia; replace (w - 1 + 1) with w by lia. }
    rewrite Hnil in He. by apply elem_of_nil in He.
  - intros v. split.
    + intros (e & He%elem_of_tri_edges_shift & Hv); [|done].
      apply geometric_edges_vertices in He as (t & Ht & H1 & H2).
      exists t. split; [done|]. simpl in *. by destruct Hv as [<-|<-].
    + intros (t & Ht & Hv).
      destruct (vertex_in_geometric_edges tris t (v + 1) Ht Hv)
        as ([u w] & Hg & Huw).
      exists (u - 1, w - 1). split.
      * apply elem_of_tri_edges_shift; [done|]. simpl.
        by replace (u - 1 + 1) with u by lia; replace (w - 1 + 1) with w by lia.
      * simpl in *. lia.
Qed.

Lemma tri_edges_size_and_vertices_witness :
  (length (tri_edges [(1, 2, 3); (3, 2, 4)]%Z) ≤ 3 * 2)%nat.
Proof.
  apply (tri_edges_size_and_vertices [(1, 2, 3); (3, 2, 4)]).
  intros t v Ht Hv.
  repeat (apply elem_of_cons in Ht as [->|Ht];
          [unfold tri_vertices in Hv; simpl in Hv;
           repeat (apply elem_of_cons in Hv as [->|Hv]; [lia|]);
           by apply elem_of_nil in Hv|]).
  by apply elem_of_nil in Ht.
Defined.
(** ** More on masking *)

Lemma elem_of_missing (mask : list bool) (v : Z) :
  v ∈ np_where (negb <$> mask) ↔ masked_out mask v.
Proof.
  rewrite elem_of_np_where, list_lookup_fmap. unfold masked_out.
  destruct (mask !! Z.to_nat v) as [[]|]; simpl; naive_solver.
Qed.

Lemma length_make_contiguous (Y : list edge) :
  length (_make_contiguous Y) = length Y.
Proof.
  unfold _make_contiguous.
  pose proof (make_contiguous_loop (np_unique Z.le (flatten_edges Y)) Y [])
    as Hloop. simpl in Hloop. rewrite Hloop. by rewrite length_fmap.
Qed.

Lemma length_bool_index_fmap {A} (f : A → bool) (l : list A) :
  length (bool_index (f <$> l) l) = count_true (f <$> l).
Proof.
  induction l as [|x l IH]; [done|]. csimpl. unfold count_true in *.
  rewrite filter_cons. destruct (f x); simpl; by rewrite IH.
Qed.

(** X3. [_mask_edges] on any edge list and any mask: a row is dropped exactly
    when one of its two indices is a position at which the mask is false;
    an index the mask does not reach (negative, or beyond its end) never
    removes a row. The flags come back one per input row, and the edge list
    has as many rows as there are flags set. *)
Theorem mask_edges_out_of_range (edges : list edge) (mask : list bool) :
  (_mask_edges edges mask).2
    = (λ e, bool_decide (¬ masked_out mask e.1 ∧ ¬ masked_out mask e.2))
        <$> edges ∧
  length (_mask_edges edges mask).1 = count_true (_mask_edges edges mask).2 ∧
  (length (_mask_edges edges mask).1 ≤ length edges)%nat ∧
  (∀ i e, edges !! i = Some e →
          (e.1 < 0 ∨ Z.of_nat (length mask) ≤ e.1) →
          (e.2 < 0 ∨ Z.of_nat (length mask) ≤ e.2) →
          (_mask_edges edges mask).2 !! i = Some true).
Proof.
  assert ((_mask_edges edges mask).2
    = (λ e, bool_decide (¬ masked_out mask e.1 ∧ ¬ masked_out mask e.2))
        <$> edges) as Hidx.
  { unfold _mask_edges. simpl. rewrite <-list_fmap_compose.
    apply list_fmap_ext. intros _ e _. simpl.
    pose proof (elem_of_missing mask e.1). pose proof (elem_of_missing mask e.2).
    repeat case_bool_decide; simpl; tauto. }
  assert (length (_mask_edges edges mask).1
          = count_true (_mask_edges edges mask).2) as Hlen.
  { rewrite Hidx. unfold _mask_edges. simpl.
    rewrite length_make_contiguous.
    rewrite <-(length_bool_index_fmap
                 (λ e : edge, bool_decide (¬ masked_out mask e.1
                                           ∧ ¬ masked_out mask e.2)) edges).
    f_equal. f_equal. rewrite <-list_fmap_compose.
    apply list_fmap_ext. intros _ e _. simpl.
    pose proof (elem_of_missing mask e.1). pose proof (elem_of_missing mask e.2).
    repeat case_bool_decide; simpl; tauto. }
  split; [done|]. split; [done|]. split.
  - rewrite Hlen, Hidx. unfold count_true.
    etrans; [apply length_filter|]. by rewrite length_fmap.
  - intros i e He H1 H2. rewrite Hidx, list_lookup_fmap, He. simpl.
    f_equal. apply bool_decide_eq_true. unfold masked_out.
    split; intros [? Hl%lookup_lt_Some]; lia.
Qed.

(** ** More on [_make_contiguous] *)

Lemma renumber_initial_segment (Y : list edge) (m v : Z) :
  (∀ i, i ∈ flatten_edges Y ↔ 0 ≤ i < m) → 0 ≤ v < m → renumber Y v = v.
Proof.
  intros HY Hv. unfold renumber.
  rewrite (Permutation_length (l' := seqZ 0 v)).
  - rewrite length_seqZ. lia.
  - apply NoDup_Permutation.
    + apply NoDup_filter, NoDup_remove_dups.
    + apply NoDup_seqZ.
    + intros x. rewrite list_elem_of_filter, elem_of_remove_dups, HY, elem_of_seqZ.
      lia.
Qed.

Lemma flatten_edges_fmap (g : Z → Z) (Y : list edge) :
  flatten_edges ((λ e, (g e.1, g e.2)) <$> Y) = g <$> flatten_edges Y.
Proof.
  unfold flatten_edges. induction Y as [|e Y IH]; [done|].
  csimpl. by rewrite IH.
Qed.

(** X4. For an array of non-negative integers, [_make_contiguous] is idempotent,
    and it returns an array whose values already fill a range from 0
    unchanged. *)
Theorem make_contiguous_idempotent (Y : list edge) :
  (∀ e, e ∈ Y → 0 ≤ e.1 ∧ 0 ≤ e.2) →
  _make_contiguous (_make_contiguous Y) = _make_contiguous Y ∧
  (∀ m, (∀ i, i ∈ flatten_edges Y ↔ 0 ≤ i < m) → _make_contiguous Y = Y).
Proof.
  assert (∀ Y m, (∀ e, e ∈ Y → 0 ≤ e.1 ∧ 0 ≤ e.2) →
                 (∀ i, i ∈ flatten_edges Y ↔ 0 ≤ i < m) →
                 _make_contiguous Y = Y) as Hfix.
  { clear Y. intros Y m Hpos HY. rewrite make_contiguous_spec by done.
    rewrite <-(list_fmap_id Y) at 2. apply Forall_fmap_ext, Forall_forall.
    intros [a b] He. simpl.
    rewrite !(renumber_initial_segment Y m); [done|done| |done|].
    - apply HY, elem_of_flatten_edges. eauto.
    - apply HY, elem_of_flatten_edges. eauto. }
  intros Hpos. split; [|intros m; by apply Hfix].
  apply (Hfix _ (Z.of_nat (length (remove_dups (flatten_edges Y))))).
  - rewrite make_contiguous_spec by done.
    intros e (e' & -> & He')%list_elem_of_fmap. unfold renumber. simpl. lia.
  - intros i. rewrite make_contiguous_spec by done.
    rewrite flatten_edges_fmap, list_elem_of_fmap. split.
    + intros (v & -> & Hv). by apply renumber_bound.
    + intros Hi. destruct (renumber_onto Y i Hi) as (v & Hv & <-). eauto.
Qed.

Lemma make_contiguous_idempotent_witness :
  _make_contiguous (_make_contiguous [(3, 7); (7, 12)])
  = _make_contiguous [(3, 7); (7, 12)].
Proof.
  apply (make_contiguous_idempotent [(3, 7); (7, 12)]).
  intros e He.
  repeat (apply elem_of_cons in He as [->|He]; [simpl; lia|]).
  by apply elem_of_nil in He.
Defined.

Lemma np_unique_head_min (l : list Z) (a : Z) :
  a ∈ l → (∀ w, w ∈ l → a ≤ w) → ∃ val, np_unique Z.le l = a :: val.
Proof.
  intros Ha Hmin. pose proof (np_unique_Z_sorted l) as Hs.
  assert (a ∈ np_unique Z.le l) as Hin by by apply elem_of_np_unique; [apply _..|].
  destruct (np_unique Z.le l) as [|v val] eqn:Hval; [by apply elem_of_nil in Hin|].
  apply StronglySorted_cons in Hs as [Hv _]. rewrite Forall_forall in Hv.
  assert (v ∈ l) as Hvl.
  { apply (elem_of_np_unique Z.le); [apply _..|]. rewrite Hval. left. }
  apply Hmin in Hvl. apply elem_of_cons in Hin as [->|Hin%Hv]; [eauto|lia].
Qed.

(** X5. [_make_contiguous] replaces the values one after the other in the same
    array, so a value that has just been written can be taken for one that
    is still to be replaced: when the smallest entry of the array is
    negative and the array also holds a zero, the entries with these two
    values come out equal. *)
Theorem make_contiguous_merges_negative (Y : list edge) (a : Z) :
  a ∈ flatten_edges Y → (∀ w, w ∈ flatten_edges Y → a ≤ w) →
  a < 0 → 0 ∈ flatten_edges Y →
  ∃ g : Z → Z,
    _make_contiguous Y = (λ e, (g e.1, g e.2)) <$> Y ∧ g a = g 0.
Proof.
  intros Ha Hmin Hneg H0.
  destruct (np_unique_head_min _ _ Ha Hmin) as [val Hval].
  exists (relabel 0 (np_unique Z.le (flatten_edges Y))). split.
  - unfold _make_contiguous.
    pose proof (make_contiguous_loop (np_unique Z.le (flatten_edges Y)) Y [])
      as Hloop. simpl in Hloop. by rewrite Hloop.
  - rewrite Hval. simpl. rewrite decide_True by done.
    by rewrite decide_False by lia.
Qed.

Lemma make_contiguous_merges_negative_witness :
  ∃ g : Z → Z,
    _make_contiguous [(-1, 0); (0, 4)] = (λ e, (g e.1, g e.2)) <$> [(-1, 0); (0, 4)]
    ∧ g (-1) = g 0.
Proof.
  apply (make_contiguous_merges_negative [(-1, 0); (0, 4)] (-1)).
  - left.
  - intros w Hw. unfold flatten_edges in Hw. simpl in Hw.
    repeat (apply elem_of_cons in Hw as [->|Hw]; [lia|]).
    by apply elem_of_nil in Hw.
  - lia.
  - right. left.
Defined.
(** ** Masked triangle meshes *)

Lemma renumber_inj (Y : list edge) (v w : Z) :
  v ∈ flatten_edges Y → w ∈ flatten_edges Y →
  renumber Y v = renumber Y w → v = w.
Proof.
  intros Hv Hw Heq.
  destruct (Z.lt_trichotomy v w) as [Hlt|[->|Hlt]]; [|done|].
  - pose proof (renumber_lt Y v w Hv Hlt). lia.
  - pose proof (renumber_lt Y w v Hw Hlt). lia.
Qed.

Lemma masked_edges_canonical (edges : list edge) (mask : list bool) :
  valid_edges mask edges → NoDup edges → (∀ e, e ∈ edges → e.1 ≤ e.2) →
  NoDup (_mask_edges edges mask).1 ∧
  (∀ e, e ∈ (_mask_edges edges mask).1 →
        0 ≤ e.1 ∧ e.1 ≤ e.2 ∧ e.2 < Z.of_nat (count_true mask)) ∧
  length (_mask_edges edges mask).1 = length (surviving mask edges).
Proof.
  intros Hvalid Hnd Hle.
  set (kept := surviving mask edges).
  assert (∀ e, e ∈ kept → mask_at mask e.1 ∧ mask_at mask e.2) as Hkept.
  { intros e He. by apply list_elem_of_filter in He as [? _]. }
  assert ((_mask_edges edges mask).1
          = (λ e, (renumber kept e.1, renumber kept e.2)) <$> kept) as Hout.
  { rewrite mask_edges_kept by done. apply make_contiguous_spec.
    intros e [[? _] [? _]]%Hkept. done. }
  assert (Z.of_nat (length (remove_dups (flatten_edges kept)))
          ≤ Z.of_nat (count_true mask)) as Hm.
  { apply inj_le, distinct_kept_vertices; [apply NoDup_remove_dups|].
    intros v Hv. rewrite elem_of_remove_dups in Hv.
    apply elem_of_flatten_edges in Hv as (e & He & [<-|<-]);
      by apply Hkept in He as [??]. }
  rewrite Hout. split; [|split].
  - apply NoDup_fmap_2_strong; [|by apply NoDup_filter].
    intros [a b] [a' b'] He He' [= Ha Hb]. simpl in *.
    f_equal; (eapply renumber_inj; [| |done]);
      apply elem_of_flatten_edges; eauto.
  - intros e (e' & -> & He')%list_elem_of_fmap. simpl.
    pose proof (renumber_bound kept e'.1) as H1.
    pose proof (renumber_bound kept e'.2) as H2.
    rewrite elem_of_flatten_edges in H1, H2.
    assert (e'.1 ≤ e'.2) as Hle'.
    { apply Hle. by apply list_elem_of_filter in He' as [_ ?]. }
    pose proof (renumber_le kept _ _ Hle').
    split; [destruct H1; eauto; lia|]. split; [done|].
    destruct H2; eauto; lia.
  - by rewrite length_fmap.
Qed.

(** X6. A dictionary with 1-based triangles over the vertices of a mask, passed
    to [mesh_edges] together with the mask: the call returns, no row occurs
    twice, every row has its smaller index first, every index is below the
    number of vertices the mask keeps, and there is one row for every
    unmasked edge both of whose ends the mask keeps. *)
Theorem mesh_edges_masked_triangles
    (d : gmap string pyobj) (tris : list triangle) (mask : list bool) :
  d !! "tri" = Some (TriArray tris) →
  (∀ t v, t ∈ tris → v ∈ tri_vertices t → 1 ≤ v ≤ Z.of_nat (length mask)) →
  Z.of_nat (length mask) < 2 ^ 63 →
  ∃ edges,
    mesh_edges (Dict d) (Some mask) = inr edges ∧
    NoDup edges ∧
    (∀ e, e ∈ edges →
          0 ≤ e.1 ∧ e.1 ≤ e.2 ∧ e.2 < Z.of_nat (count_true mask)) ∧
    length edges = length (surviving mask (tri_edges tris)).
Proof.
  intros Htri Hv Hlen.
  assert (index_range tris) as Hr.
  { intros t v Ht Hin. specialize (Hv t v Ht Hin).
    change (2 ^ 63) with 9223372036854775808 in *. lia. }
  assert (valid_edges mask (tri_edges tris)) as Hvalid.
  { intros e He%elem_of_tri_edges_shift; [|done].
    apply geometric_edges_vertices in He as (t & Ht & H1 & H2). simpl in *.
    apply (Hv t) in H1, H2; [|done..]. lia. }
  exists (_mask_edges (tri_edges tris) mask).1. split.
  - simpl. unfold dict_edges. by rewrite Htri.
  - apply masked_edges_canonical; [done| |].
    + by apply tri_edges_NoDup, index_range_int64.
    + intros e. by apply tri_edges_le.
Qed.

Lemma mesh_edges_masked_triangles_witness :
  ∃ edges,
    mesh_edges (Dict {[ "tri" := TriArray [(1, 2, 3); (3, 2, 4)] ]})
      (Some [true; false; true; true]) = inr edges ∧
    NoDup edges ∧
    (∀ e, e ∈ edges →
          0 ≤ e.1 ∧ e.1 ≤ e.2 ∧
          e.2 < Z.of_nat (count_true [true; false; true; true])) ∧
    length edges
    = length (surviving [true; false; true; true]
                (tri_edges [(1, 2, 3); (3, 2, 4)])).
Proof.
  apply (mesh_edges_masked_triangles
           {[ "tri" := TriArray [(1, 2, 3); (3, 2, 4)] ]}
           [(1, 2, 3); (3, 2, 4)] [true; false; true; true]).
  - reflexivity.
  - intros t v Ht Hin.
    repeat (apply elem_of_cons in Ht as [->|Ht];
            [unfold tri_vertices in Hin; simpl in Hin;
             repeat (apply elem_of_cons in Hin as [->|Hin]; [simpl; lia|]);
             by apply elem_of_nil in Hin|]).
    by apply elem_of_nil in Ht.
  - simpl. lia.
Defined.
(** ** The template joins neighbours *)

Lemma eadd_eadd (l : list edge) (a b : Z) : eadd (eadd l a) b = eadd l (a + b).
Proof.
  unfold eadd. rewrite <-list_fmap_compose. apply list_fmap_ext.
  intros _ e _. simpl. f_equal; lia.
Qed.

Section neighbours.
Context (nI nJ nK : nat).

Ltac pick tac := first [tac (-1) | tac 0 | tac 1].

(** The voxel a template entry [a] stands for, found among the neighbours
    of the anchor [(x, y, z)]. *)
Ltac find_voxel I J K a x y z cont :=
  pick ltac:(fun dx => pick ltac:(fun dy => pick ltac:(fun dz =>
    let p := constr:((x + dx, y + dy, z + dz)) in
    assert (in_grid I J K p ∧ a = 1 + grid_number I J p) as [? ?]
      by (unfold in_grid, grid_number; simpl; split; lia);
    cont p))).

Ltac near_row x y z :=
  match goal with
  | |- neighbours ?I ?J ?K (?a, ?b) =>
      find_voxel I J K a x y z ltac:(fun p =>
        find_voxel I J K b x y z ltac:(fun q =>
          exists p, q;
          split; [assumption|];
          split; [assumption|];
          split; [unfold near; simpl; lia|];
          split; assumption))
  end.

Ltac near_rows k :=
  apply Forall_eadd_triples;
  repeat (apply Forall_cons; split); [..|by apply Forall_nil];
  simpl; intros z Hz;
  unfold c1, c2, c11, c21, c12, c22 in Hz;
  apply elem_of_where_ij in Hz as (x & y & -> & ? & ? & Hz);
  rewrite !andb_true_iff, !bool_decide_eq_true in Hz;
  destruct Hz as [[_ ?] ?];
  near_row x y (k - 1).

Lemma edg0_neighbours f k :
  1 ≤ k ≤ Z.of_nat nK →
  Forall (neighbours (Z.of_nat nI) (Z.of_nat nJ) (Z.of_nat nK))
    (eadd (edg0 (Z.of_nat nI) (Z.of_nat nJ) f)
          ((k - 1) * (Z.of_nat nI * Z.of_nat nJ))).
Proof.
  intros Hk. rewrite edg0_triples, eadd_eadd. unfold triples0. near_rows k.
Qed.

Lemma edg1_neighbours f k :
  1 ≤ k ≤ Z.of_nat nK - 1 →
  Forall (neighbours (Z.of_nat nI) (Z.of_nat nJ) (Z.of_nat nK))
    (eadd (edg1 (Z.of_nat nI) (Z.of_nat nJ) f)
          ((k - 1) * (Z.of_nat nI * Z.of_nat nJ))).
Proof.
  intros Hk. rewrite edg1_triples, eadd_eadd. unfold triples1. near_rows k.
Qed.

Lemma edg2_neighbours f k :
  1 ≤ k ≤ Z.of_nat nK - 1 →
  Forall (neighbours (Z.of_nat nI) (Z.of_nat nJ) (Z.of_nat nK))
    (eadd (edg2 (Z.of_nat nI) (Z.of_nat nJ) f)
          ((k - 1) * (Z.of_nat nI * Z.of_nat nJ))).
Proof.
  intros Hk. rewrite edg2_triples, eadd_eadd. unfold triples2. near_rows k.
Qed.

End neighbours.
(** ** More on the lattice branch *)

Lemma lat_template_neighbours (nI nJ nK : nat) :
  (0 < nI)%nat → (0 < nJ)%nat → (0 < nK)%nat →
  ∃ T,
    lat_template (Z.of_nat nI) (Z.of_nat nJ) (Z.of_nat nK) = inr T ∧
    Z.of_nat (length T)
    = (Z.of_nat nK - 1) * n1 (Z.of_nat nI) (Z.of_nat nJ)
      + n2 (Z.of_nat nI) (Z.of_nat nJ) ∧
    Forall (λ e, good (Z.of_nat nI * Z.of_nat nJ * Z.of_nat nK) e ∧
                 neighbours (Z.of_nat nI) (Z.of_nat nJ) (Z.of_nat nK) e) T.
Proof.
  intros HI HJ HK.
  apply (lat_template_rows nI nJ nK HI HJ HK).
  - intros f k Hk. apply Forall_and. split.
    + eapply Forall_good_eadd; [| |apply edg0_good]; nia.
    + by apply edg0_neighbours.
  - intros f k Hk. apply Forall_and. split.
    + eapply Forall_good_eadd; [| |apply edg1_good]; nia.
    + by apply edg1_neighbours.
  - intros f k Hk. apply Forall_and. split.
    + eapply Forall_good_eadd; [| |apply edg2_good]; nia.
    + by apply edg2_neighbours.
  - intros k Hk. split; [unfold good; simpl; nia|].
    exists (Z.of_nat nI - 1, Z.of_nat nJ - 1, k - 1),
           (Z.of_nat nI - 1, Z.of_nat nJ - 1, k).
    unfold in_grid, near, grid_number. simpl. repeat split; lia.
Qed.

Lemma lat_edges_template (lat : lattice) (ni nj nk : nat) (T : list edge) :
  lat_dims lat = Some (ni, nj, nk) →
  lat_template (Z.of_nat ni) (Z.of_nat nj) (Z.of_nat nk) = inr T →
  Forall (good (Z.of_nat ni * Z.of_nat nj * Z.of_nat nk)) T →
  lat_edges lat
  = inr (compact (voxels lat) <$> filter (λ e, keep (voxels lat) e = true) T).
Proof.
  intros Hd HT Hgood. rewrite (lat_edges_dims _ _ _ _ Hd), HT. simpl.
  apply lat_edges_tail. unfold voxels. rewrite Hd, length_T_flatten.
  eapply good_weaken; [|exact Hgood]. lia.
Qed.

Lemma voxel_id_bound (flat : list bool) (q : nat) :
  occupied flat q → 0 ≤ voxel_id flat q < Z.of_nat (count_true flat).
Proof.
  intros Hq. unfold voxel_id.
  pose proof (count_true_take_S _ _ _ Hq) as HS. simpl in HS.
  pose proof (count_true_take_le (S q) flat). lia.
Qed.

(** X7. Every row of the edge list of a lattice has its smaller index first,
    and both indices number occupied voxels: they lie between 0 and the
    number of occupied voxels. *)
Theorem lat_edges_rows_in_range (lat : lattice) (edges : list edge) :
  lat_edges lat = inr edges →
  ∀ e, e ∈ edges →
    0 ≤ e.1 ∧ e.1 < e.2 ∧ e.2 < Z.of_nat (count_true (voxels lat)).
Proof.
  intros Hrun e He.
  destruct (lat_dims lat) as [[[ni nj] nk]|] eqn:Hd.
  2:{ destruct (lat_edges_no_dims _ Hd) as [x Hx]. congruence. }
  destruct (decide (ni = 0 ∨ nj = 0 ∨ nk = 0)%nat) as [Hz|Hpos].
  { rewrite (lat_edges_zero _ _ _ _ _ Hd Hz Hrun) in He.
    by apply elem_of_nil in He. }
  destruct (lat_template_good ni nj nk) as (T & HT & Hgood); [lia..|].
  rewrite (lat_edges_template _ _ _ _ _ Hd HT Hgood) in Hrun.
  injection Hrun as <-.
  apply list_elem_of_fmap in He as (e' & -> & [Hk He']%list_elem_of_filter).
  apply keep_occupied in Hk as [H1 H2].
  rewrite Forall_forall in Hgood. destruct (Hgood e' He') as (? & ? & ?).
  assert (voxel_of e'.1 < voxel_of e'.2)%nat as Hlt by (unfold voxel_of; lia).
  pose proof (voxel_id_lt _ _ _ H1 Hlt).
  pose proof (voxel_id_bound _ _ H1). pose proof (voxel_id_bound _ _ H2).
  simpl. lia.
Qed.

Lemma lat_edges_rows_in_range_witness :
  0 ≤ 1 ∧ 1 < 2 ∧
  2 < Z.of_nat (count_true
                  (voxels (Lattice [2; 2]%nat [true; false; true; true]))).
Proof.
  apply (lat_edges_rows_in_range
           (Lattice [2; 2]%nat [true; false; true; true])
           [(0, 1); (0, 2); (1, 2)] eq_refl (1, 2)).
  right. right. left.
Defined.

Lemma grid_number_nat (ni nj : nat) (p : point) :
  0 ≤ p.1.1 → 0 ≤ p.1.2 → 0 ≤ p.2 →
  voxel_of (1 + grid_number (Z.of_nat ni) (Z.of_nat nj) p)
  = (Z.to_nat p.1.1 + ni * (Z.to_nat p.1.2 + nj * Z.to_nat p.2))%nat.
Proof. intros. unfold voxel_of, grid_number. nia. Qed.

(** X8. Every row of the edge list of a lattice joins two occupied voxels that
    are neighbours: their subscripts differ by at most one along each axis.
    The entries of the row are the compact numbers of the two voxels. *)
Theorem lat_edges_join_neighbours
    (lat : lattice) (ni nj nk : nat) (edges : list edge) (e : edge) :
  lat_dims lat = Some (ni, nj, nk) →
  lat_edges lat = inr edges → e ∈ edges →
  ∃ x1 y1 z1 x2 y2 z2 : nat,
    (x1 < ni ∧ y1 < nj ∧ z1 < nk)%nat ∧
    (x2 < ni ∧ y2 < nj ∧ z2 < nk)%nat ∧
    (x1 ≤ x2 + 1 ∧ x2 ≤ x1 + 1 ∧ y1 ≤ y2 + 1 ∧ y2 ≤ y1 + 1 ∧
     z1 ≤ z2 + 1 ∧ z2 ≤ z1 + 1)%nat ∧
    lat_get nj nk (lat_buffer lat) x1 y1 z1 = true ∧
    lat_get nj nk (lat_buffer lat) x2 y2 z2 = true ∧
    e = (voxel_id (voxels lat) (x1 + ni * (y1 + nj * z1)),
         voxel_id (voxels lat) (x2 + ni * (y2 + nj * z2))).
Proof.
  intros Hd Hrun He.
  destruct (decide (ni = 0 ∨ nj = 0 ∨ nk = 0)%nat) as [Hz|Hpos].
  { rewrite (lat_edges_zero _ _ _ _ _ Hd Hz Hrun) in He.
    by apply elem_of_nil in He. }
  destruct (lat_template_neighbours ni nj nk) as (T & HT & _ & HQ); [lia..|].
  apply Forall_and in HQ as [Hgood Hnear].
  rewrite (lat_edges_template _ _ _ _ _ Hd HT Hgood) in Hrun.
  injection Hrun as <-.
  apply list_elem_of_fmap in He as (e' & -> & [Hk He']%list_elem_of_filter).
  apply keep_occupied in Hk as [H1 H2].
  rewrite Forall_forall in Hnear.
  destruct (Hnear e' He') as (p & q & Hp & Hq & Hpq & E1 & E2).
  destruct Hp as (? & ? & ?), Hq as (? & ? & ?), Hpq as (? & ? & ?).
  unfold compact. rewrite E1, E2 in *.
  rewrite !grid_number_nat in * by lia.
  exists (Z.to_nat p.1.1), (Z.to_nat p.1.2), (Z.to_nat p.2),
         (Z.to_nat q.1.1), (Z.to_nat q.1.2), (Z.to_nat q.2).
  split; [lia|]. split; [lia|]. split; [lia|].
  unfold occupied, voxels in H1, H2. rewrite Hd in H1, H2.
  rewrite lookup_T_flatten in H1, H2 by lia.
  injection H1 as ->. injection H2 as ->.
  split; [done|]. split; [done|]. unfold voxels. by rewrite Hd.
Qed.

Lemma lat_edges_join_neighbours_witness :
  ∃ x1 y1 z1 x2 y2 z2 : nat,
    (x1 < 2 ∧ y1 < 2 ∧ z1 < 1)%nat ∧
    (x2 < 2 ∧ y2 < 2 ∧ z2 < 1)%nat ∧
    (x1 ≤ x2 + 1 ∧ x2 ≤ x1 + 1 ∧ y1 ≤ y2 + 1 ∧ y2 ≤ y1 + 1 ∧
     z1 ≤ z2 + 1 ∧ z2 ≤ z1 + 1)%nat ∧
    lat_get 2 1 [true; false; true; true] x1 y1 z1 = true ∧
    lat_get 2 1 [true; false; true; true] x2 y2 z2 = true ∧
    (1, 2) = (voxel_id (voxels (Lattice [2; 2]%nat [true; false; true; true]))
                (x1 + 2 * (y1 + 2 * z1)),
              voxel_id (voxels (Lattice [2; 2]%nat [true; false; true; true]))
                (x2 + 2 * (y2 + 2 * z2))).
Proof.
  apply (lat_edges_join_neighbours
           (Lattice [2; 2]%nat [true; false; true; true]) 2 2 1
           [(0, 1); (0, 2); (1, 2)] (1, 2)).
  - reflexivity.
  - reflexivity.
  - right. right. left.
Defined.

Lemma count_true_all (l : list bool) :
  Forall (λ b, b = true) l → count_true l = length l.
Proof.
  intros Hl. unfold count_true. f_equal. apply filter_all.
  by rewrite <-Forall_forall.
Qed.

Lemma voxel_id_full (flat : list bool) (q : nat) :
  Forall (λ b, b = true) flat → (q ≤ length flat)%nat →
  voxel_id flat q = Z.of_nat q.
Proof.
  intros Hall Hq. unfold voxel_id. f_equal.
  rewrite count_true_all by by apply Forall_take.
  rewrite length_take. lia.
Qed.

(** X9. On a lattice all of whose voxels are occupied nothing is discarded: the
    edge list is the dense template with every voxel number lowered by
    one, and it has (K - 1) * n1 + n2 rows for the counts [n1] and [n2] of
    the source, that is (K - 1) * (6 (I-1)(J-1) + 3 (I-1) + 3 (J-1) + 1)
    + 3 (I-1)(J-1) + (I-1) + (J-1). *)
Theorem lat_edges_full_lattice (lat : lattice) (ni nj nk : nat) :
  lat_dims lat = Some (ni, nj, nk) →
  (0 < ni)%nat → (0 < nj)%nat → (0 < nk)%nat →
  Forall (λ b, b = true) (voxels lat) →
  ∃ T,
    lat_template (Z.of_nat ni) (Z.of_nat nj) (Z.of_nat nk) = inr T ∧
    lat_edges lat = inr (eadd T (-1)) ∧
    Z.of_nat (length (eadd T (-1)))
    = (Z.of_nat nk - 1)
      * (6 * (Z.of_nat ni - 1) * (Z.of_nat nj - 1)
         + 3 * (Z.of_nat ni - 1) + 3 * (Z.of_nat nj - 1) + 1)
      + 3 * (Z.of_nat ni - 1) * (Z.of_nat nj - 1)
      + (Z.of_nat ni - 1) + (Z.of_nat nj - 1).
Proof.
  intros Hd Hi Hj Hk Hall.
  destruct (lat_template_neighbours ni nj nk) as (T & HT & Hlen & HQ); [lia..|].
  apply Forall_and in HQ as [Hgood _].
  exists T. split; [done|]. split.
  - rewrite (lat_edges_template _ _ _ _ _ Hd HT Hgood). f_equal.
    assert (length (voxels lat) = (nk * (nj * ni))%nat) as Hflat
      by (unfold voxels; by rewrite Hd, length_T_flatten).
    rewrite filter_all.
    + unfold eadd. apply Forall_fmap_ext. eapply Forall_impl; [exact Hgood|].
      intros e (? & ? & ?). unfold compact, voxel_of.
      rewrite !voxel_id_full by (done || nia). f_equal; lia.
    + intros e He. rewrite Forall_forall in Hgood.
      destruct (Hgood e He) as (? & ? & ?). apply keep_occupied.
      unfold occupied, voxel_of.
      rewrite Forall_lookup in Hall.
      split.
      * destruct (lookup_lt_is_Some_2 (voxels lat) (Z.to_nat (e.1 - 1)))
          as [b Hb]; [nia|]. by rewrite Hb, (Hall _ _ Hb).
      * destruct (lookup_lt_is_Some_2 (voxels lat) (Z.to_nat (e.2 - 1)))
          as [b Hb]; [nia|]. by rewrite Hb, (Hall _ _ Hb).
  - rewrite length_eadd, Hlen. unfold n1, n2. lia.
Qed.

Lemma lat_edges_full_lattice_witness :
  ∃ T,
    lat_template 2 2 1 = inr T ∧
    lat_edges (Lattice [2; 2; 1]%nat [true; true; true; true])
    = inr (eadd T (-1)) ∧
    Z.of_nat (length (eadd T (-1))) = 5.
Proof.
  apply (lat_edges_full_lattice
           (Lattice [2; 2; 1]%nat [true; true; true; true]) 2 2 1);
    [reflexivity|lia|lia|lia|].
  by repeat constructor.
Defined.

(** ** [mesh_average] *)

Section mesh_average_facts.
Context (read_surface : string → exn + polydata).

Lemma enumerate_cons {A} (x : A) (l : list A) :
  enumerate (x :: l) = (0%nat, x) :: zip (seq 1 (length l)) l.
Proof. done. Qed.

Lemma row_step_first (r : mesh_ref) (s : polydata) bound :
  surface_of read_surface r = inr s →
  row_step read_surface (0%nat, r) bound
  = inr (Some (get_cells s, get_points s)).
Proof. intros Hr. unfold row_step. simpl. by rewrite Hr. Qed.

Lemma row_step_next (k : nat) (r : mesh_ref) (s : polydata) tri coord :
  surface_of read_surface r = inr s → (0 < k)%nat →
  row_step read_surface (k, r) (Some (tri, coord))
  = inr (Some (tri ++ (tri_shift (Z.of_nat (length coord)) <$> get_cells s),
               coord ++ get_points s)).
Proof.
  intros Hr Hk. unfold row_step. simpl. rewrite Hr. simpl.
  by rewrite decide_False by lia.
Qed.

(** The loop over [j] once [tri] and [coord] are bound. *)
Lemma row_loop_tail (row : list mesh_ref) (ss : list polydata) (k : nat)
    (tri : list triangle) (coord : list point3) :
  Forall2 (λ r s, surface_of read_surface r = inr s) row ss →
  (0 < k)%nat →
  for_each (zip (seq k (length row)) row) (row_step read_surface)
    (Some (tri, coord))
  = inr (Some (foldl (λ (st : list triangle * list point3) s,
                        (st.1 ++ (tri_shift (Z.of_nat (length st.2))
                                    <$> get_cells s),
                         st.2 ++ get_points s)) (tri, coord) ss)).
Proof.
  intros Hrow. revert k tri coord.
  induction Hrow as [|r s row ss Hr _ IH]; intros k tri coord Hk; [done|].
  change (zip (seq k (length (r :: row))) (r :: row))
    with ((k, r) :: zip (seq (S k) (length row)) row).
  cbn [for_each]. rewrite (row_step_next k r s) by done.
  simpl. apply IH. lia.
Qed.

Lemma row_loop_surfaces bound (r : mesh_ref) (row : list mesh_ref)
    (s : polydata) (ss : list polydata) :
  surface_of read_surface r = inr s →
  Forall2 (λ r s, surface_of read_surface r = inr s) row ss →
  row_loop read_surface bound (r :: row)
  = inr (Some (foldl (λ (st : list triangle * list point3) s,
                        (st.1 ++ (tri_shift (Z.of_nat (length st.2))
                                    <$> get_cells s),
                         st.2 ++ get_points s))
                 (get_cells s, get_points s) ss)).
Proof.
  intros Hr Hrow. unfold row_loop. rewrite enumerate_cons.
  cbn [for_each]. rewrite (row_step_first r s) by done.
  simpl. apply row_loop_tail; [done|lia].
Qed.

Lemma merged_points (ss : list polydata) tri coord :
  (foldl (λ (st : list triangle * list point3) s,
            (st.1 ++ (tri_shift (Z.of_nat (length st.2)) <$> get_cells s),
             st.2 ++ get_points s)) (tri, coord) ss).2
  = coord ++ (ss ≫= get_points).
Proof.
  revert tri coord. induction ss as [|s ss IH]; intros tri coord; simpl.
  - by rewrite app_nil_r.
  - rewrite IH. by rewrite <-app_assoc.
Qed.

Lemma tri_shift_id (d : Z) (t : triangle) (n : Z) :
  (∀ v, v ∈ tri_vertices t → 0 ≤ v < n) → 0 ≤ d → d + n < 2 ^ 63 →
  tri_shift d t = (t.1.1 + d, t.1.2 + d, t.2 + d).
Proof.
  intros Hv Hd Hn. destruct t as [[a b] c]. unfold tri_shift. simpl.
  assert (0 ≤ a < n) by (apply Hv; left).
  assert (0 ≤ b < n) by (apply Hv; right; left).
  assert (0 ≤ c < n) by (apply Hv; right; right; left).
  rewrite !wrap64_id; [done|unfold int64; split..];
    change (2 ^ 63) with 9223372036854775808 in *; lia.
Qed.

Lemma merged_cells_code (ss : list polydata) tri coord :
  Forall valid_cells ss →
  Z.of_nat (length (coord ++ (ss ≫= get_points))) < 2 ^ 63 →
  (foldl (λ (st : list triangle * list point3) s,
            (st.1 ++ (tri_shift (Z.of_nat (length st.2)) <$> get_cells s),
             st.2 ++ get_points s)) (tri, coord) ss).1
  = tri ++ merged_cells (Z.of_nat (length coord)) ss.
Proof.
  revert tri coord. induction ss as [|s ss IH]; intros tri coord Hv Hlen; simpl.
  - by rewrite app_nil_r.
  - apply Forall_cons in Hv as [Hs Hv]. rewrite IH; [|done|].
    + rewrite <-app_assoc. f_equal. f_equal.
      * apply Forall_fmap_ext, Forall_forall. intros t Ht.
        apply (tri_shift_id _ _ (Z.of_nat (length (get_points s)))).
        -- intros v Hin. by apply (Hs t).
        -- lia.
        -- revert Hlen. rewrite bind_cons, !length_app. lia.
      * f_equal. rewrite length_app. lia.
    + revert Hlen. by rewrite bind_cons, <-app_assoc.
Qed.

Lemma merged_cells_valid (ss : list polydata) (off : Z) t v :
  Forall valid_cells ss → 0 ≤ off →
  t ∈ merged_cells off ss → v ∈ tri_vertices t →
  off ≤ v < off + Z.of_nat (length (ss ≫= get_points)).
Proof.
  revert off. induction ss as [|s ss IH]; intros off Hv Hoff Ht Hin; simpl in Ht.
  - by apply elem_of_nil in Ht.
  - apply Forall_cons in Hv as [Hs Hv]. rewrite bind_cons, length_app.
    apply elem_of_app in Ht as [Ht|Ht].
    + apply list_elem_of_fmap in Ht as (t0 & -> & Ht0).
      assert (0 ≤ t0.1.1 < Z.of_nat (length (get_points s))) as H1
        by (apply (Hs t0); [done|left]).
      assert (0 ≤ t0.1.2 < Z.of_nat (length (get_points s))) as H2
        by (apply (Hs t0); [done|right; left]).
      assert (0 ≤ t0.2 < Z.of_nat (length (get_points s))) as H3
        by (apply (Hs t0); [done|right; right; left]).
      unfold tri_vertices in Hin. simpl in Hin.
      rewrite !elem_of_cons, elem_of_nil in Hin.
      destruct Hin as [->|[->|[->|[]]]]; lia.
    + specialize (IH (off + Z.of_nat (length (get_points s))) Hv
                     ltac:(lia) Ht Hin). lia.
Qed.

(** X10. [mesh_average] refuses an array that is not 2-D with a [ValueError];
    a 2-D array without rows, or whose rows are empty, leaves the names
    [coord_all] or [coord] unbound, and the call ends in the error Python
    raises for that instead of returning an empty surface. *)
Theorem mesh_average_rejects_empty (f : Q → Q → Q)
    (filenames : name_array) (output_surfstat : bool) :
  (names_ndim filenames ≠ 2%nat →
   mesh_average read_surface f filenames output_surfstat
   = inl (ValueError "Filenames must be a 2-dimensional array.")) ∧
  (names_ndim filenames = 2%nat → names_rows filenames = [] →
   mesh_average read_surface f filenames output_surfstat
   = inl (NameError "coord_all")) ∧
  (names_ndim filenames = 2%nat →
   ∀ rest, names_rows filenames = [] :: rest →
   mesh_average read_surface f filenames output_surfstat
   = inl (NameError "coord")).
Proof.
  unfold mesh_average. split; [|split].
  - intros Hnd. by rewrite decide_True.
  - intros Hnd Hrows. rewrite decide_False by (intros ?; done).
    by rewrite Hrows.
  - intros Hnd rest Hrows. rewrite decide_False by (intros ?; done).
    by rewrite Hrows.
Qed.

Lemma qzero_1 : qzero 1 = false.
Proof. done. Qed.

Lemma average_step_first (f : Q → Q → Q) (row : list mesh_ref) tri c st :
  row_loop read_surface st.1 row = inr (Some (tri, c)) →
  average_step read_surface f (0%nat, row) st
  = inr (Some (tri, c), Some (1%Q, c)).
Proof. intros Hrow. unfold average_step. simpl. by rewrite Hrow. Qed.

Lemma average_step_next (f : Q → Q → Q) (i : nat) (row : list mesh_ref)
    tri c bound m coord_all coord_all' :
  (0 < i)%nat →
  row_loop read_surface bound row = inr (Some (tri, c)) →
  fun_arrays f coord_all c = inr coord_all' →
  average_step read_surface f (i, row) (bound, Some (m, coord_all))
  = inr (Some (tri, c), Some (f m 1%Q, coord_all')).
Proof.
  intros Hi Hrow Hfun. unfold average_step. simpl. rewrite Hrow. simpl.
  rewrite decide_False by lia. by rewrite Hfun.
Qed.

(** X11. A single row of surfaces whose cells refer to their own points: the
    surfaces are merged into one. The points are those of the surfaces one
    after the other (divided by [m], which is 1); the cells are those of
    the surfaces with the vertex indices of each raised by the number of
    points of the surfaces before it, so that every cell refers to the
    points it referred to before; every index is valid for the merged
    points. With [output_surfstat] the indices are 1-based and the
    coordinates come as three rows. *)
Theorem mesh_average_merges_row (f : Q → Q → Q)
    (row : list mesh_ref) (ss : list polydata) :
  Forall2 (λ r s, surface_of read_surface r = inr s) row ss →
  ss ≠ [] →
  Forall valid_cells ss →
  Z.of_nat (length (ss ≫= get_points)) < 2 ^ 62 →
  let tri := merged_cells 0 ss in
  let coord := (λ p : point3, (qdiv p.1.1 1, qdiv p.1.2 1, qdiv p.2 1))
                 <$> (ss ≫= get_points) in
  mesh_average read_surface f (NameArray 2 [row]) false
    = inr (OutPolyData (PolyData tri coord)) ∧
  mesh_average read_surface f (NameArray 2 [row]) true
    = inr (OutSurfStat
             ((λ t : triangle, (t.1.1 + 1, t.1.2 + 1, t.2 + 1)) <$> tri)
             [(λ p : point3, p.1.1) <$> coord;
              (λ p : point3, p.1.2) <$> coord;
              (λ p : point3, p.2) <$> coord]) ∧
  (∀ t v, t ∈ tri → v ∈ tri_vertices t →
          0 ≤ v < Z.of_nat (length coord)).
Proof.
  intros Hrow Hne Hvalid Hlen tri coord.
  destruct Hrow as [|r s row ss Hr Hrow]; [done|].
  assert (2 ^ 62 < 2 ^ 63) as Hpow by done.
  assert (row_loop read_surface None (r :: row)
          = inr (Some (tri, (s :: ss) ≫= get_points))) as Hloop.
  { rewrite (row_loop_surfaces None r row s ss) by done. do 2 f_equal.
    apply injective_projections.
    - rewrite (merged_cells_code ss); simpl.
      + unfold tri. simpl. f_equal.
        rewrite <-(list_fmap_id (get_cells s)) at 1.
        apply list_fmap_ext. intros _ [[a b] c] _. simpl.
        f_equal; [f_equal|]; lia.
      + by apply Forall_cons in Hvalid as [_ ?].
      + revert Hlen. rewrite bind_cons. lia.
    - by rewrite merged_points. }
  assert (∀ t v, t ∈ tri → v ∈ tri_vertices t →
            0 ≤ v < Z.of_nat (length ((s :: ss) ≫= get_points))) as Hidx.
  { intros t v Ht Hv.
    pose proof (merged_cells_valid (s :: ss) 0 t v Hvalid ltac:(lia) Ht Hv).
    lia. }
  assert (for_each (enumerate [r :: row]) (average_step read_surface f)
            (None, None)
          = inr (Some (tri, (s :: ss) ≫= get_points),
                 Some (1%Q, (s :: ss) ≫= get_points))) as Hst.
  { unfold enumerate. simpl zip. cbn [for_each].
    by rewrite (average_step_first f _ tri ((s :: ss) ≫= get_points)). }
  unfold mesh_average. simpl names_ndim. simpl names_rows. rewrite Hst.
  simpl. split; [done|]. split.
  - do 2 f_equal. apply Forall_fmap_ext, Forall_forall. intros t Ht.
    apply (tri_shift_id 1 t (Z.of_nat (length ((s :: ss) ≫= get_points)))).
    + intros v Hv. by apply (Hidx t).
    + lia.
    + lia.
  - intros t v Ht Hv. unfold coord. rewrite length_fmap. by apply (Hidx t).
Qed.


Lemma row_loop_bound (row : list mesh_ref) x bound :
  row_loop read_surface None row = inr (Some x) →
  row_loop read_surface bound row = inr (Some x).
Proof.
  destruct row as [|r row]; [done|]. unfold row_loop.
  rewrite enumerate_cons. cbn [for_each].
  assert (row_step read_surface (0%nat, r) bound
          = row_step read_surface (0%nat, r) None) as -> by done.
  done.
Qed.

Lemma fun_arrays_same (f : Q → Q → Q) (a b : list point3) :
  length a = length b →
  fun_arrays f a b = inr (zip_with (point_map2 f) a b).
Proof.
  intros Hlen. unfold fun_arrays. rewrite Hlen, bdim_same.
  by rewrite !stretch_id by done.
Qed.

Lemma point_at_zip_with (f : Q → Q → Q) (a b : list point3) (p : nat) :
  length a = length b → (p < length a)%nat →
  point_at (zip_with (point_map2 f) a b) p
  = point_map2 f (point_at a p) (point_at b p).
Proof.
  intros Hlen Hp. unfold point_at. rewrite lookup_zip_with.
  destruct (lookup_lt_is_Some_2 a p Hp) as [x ->].
  destruct (lookup_lt_is_Some_2 b p ltac:(lia)) as [y ->]. done.
Qed.

(** The loop over [i] after its first round, for [np.add]. *)
Lemma average_tail (π : point3 → Q) (rows : list (list mesh_ref))
    (C : list (list point3)) (N k : nat) bound (m : Q)
    (coord_all : list point3) :
  (∀ a b, π (point_map2 qadd a b) = qadd (π a) (π b)) →
  Forall2 (λ row c, ∃ tri, row_loop read_surface None row
                           = inr (Some (tri, c))) rows C →
  Forall (λ c, length c = N) C → length coord_all = N → (0 < k)%nat →
  ∃ bound' m' coord_all',
    for_each (zip (seq k (length rows)) rows)
      (average_step read_surface qadd) (bound, Some (m, coord_all))
    = inr (bound', Some (m', coord_all')) ∧
    (∀ tri c, (match last rows with
               | Some row => row_loop read_surface None row
               | None => inr bound
               end) = inr (Some (tri, c)) → ∃ c', bound' = Some (tri, c')) ∧
    Qeq m' (m + inject_Z (Z.of_nat (length rows))) ∧
    length coord_all' = N ∧
    ∀ p, (p < N)%nat →
      Qeq (π (point_at coord_all' p))
          (π (point_at coord_all p) + Qsum ((λ c, π (point_at c p)) <$> C)).
Proof.
  intros Hπ Hrows. revert k bound m coord_all.
  induction Hrows as [|row c rows C [tri Hrow] _ IH];
    intros k bound m coord_all HC Hlen Hk.
  - exists bound, m, coord_all. simpl. split; [done|]. split.
    + intros tri c [= ->]. eauto.
    + split; [ring|]. split; [done|]. intros p _. simpl. ring.
  - apply Forall_cons in HC as [Hc HC].
    change (zip (seq k (length (row :: rows))) (row :: rows))
      with ((k, row) :: zip (seq (S k) (length rows)) rows).
    cbn [for_each].
    rewrite (average_step_next qadd k row tri c bound m coord_all
               (zip_with (point_map2 qadd) coord_all c));
      [|done|by apply row_loop_bound|apply fun_arrays_same; lia].
    simpl.
    destruct (IH (S k) (Some (tri, c)) (qadd m 1)
                (zip_with (point_map2 qadd) coord_all c))
      as (bound' & m' & call' & Hrun & Hb & Hm & Hl & Hsum);
      [done|rewrite length_zip_with; lia|lia|].
    exists bound', m', call'. split; [done|]. split; [|split; [|split]].
    + intros tri' c' Hlast. apply (Hb tri' c').
      destruct rows as [|row' rows'].
      2:{ rewrite last_cons_cons in Hlast.
          destruct (last (row' :: rows')) eqn:E; [done|].
          by apply last_None in E. }
      simpl in *.
      by rewrite <-Hlast, Hrow.
    + rewrite Hm. unfold qadd. rewrite Qred_correct. cbn [length].
      rewrite Nat2Z.inj_succ, <-Z.add_1_l, inject_Z_plus. ring.
    + done.
    + intros p Hp. rewrite (Hsum p Hp).
      rewrite point_at_zip_with by lia. rewrite Hπ. unfold qadd.
      rewrite Qred_correct, <-Qplus_assoc. reflexivity.
Qed.

(** X12. With [np.add] and rows that yield the same number of points, the points
    of the result are the means over the rows, point by point, and the
    cells are those of the last row. *)
Theorem mesh_average_mean (rows : list (list mesh_ref))
    (C : list (list point3)) (N : nat) :
  rows ≠ [] →
  Forall2 (λ row c, ∃ tri, row_loop read_surface None row
                           = inr (Some (tri, c))) rows C →
  Forall (λ c, length c = N) C →
  ∃ tri coord,
    mesh_average read_surface qadd (NameArray 2 rows) false
      = inr (OutPolyData (PolyData tri coord)) ∧
    (∃ row c, last rows = Some row ∧
              row_loop read_surface None row = inr (Some (tri, c))) ∧
    length coord = N ∧
    ∀ p, (p < N)%nat →
      point_eq (point_at coord p) (point_mean ((λ c, point_at c p) <$> C)).
Proof.
  intros Hne Hrows HC.
  destruct Hrows as [|row c rows C [tri Hrow] Hrows]; [done|].
  apply Forall_cons in HC as [Hc HC].
  assert (∃ bound' m' coord_all',
    for_each (enumerate (row :: rows)) (average_step read_surface qadd)
      (None, None) = inr (bound', Some (m', coord_all')) ∧
    (∀ tri' c', (match last rows with
                 | Some row => row_loop read_surface None row
                 | None => inr (Some (tri, c))
                 end) = inr (Some (tri', c')) → ∃ c'', bound' = Some (tri', c'')) ∧
    Qeq m' (1 + inject_Z (Z.of_nat (length rows))) ∧
    length coord_all' = N ∧
    ∀ π : point3 → Q,
      (∀ a b, π (point_map2 qadd a b) = qadd (π a) (π b)) →
      ∀ p, (p < N)%nat →
        Qeq (π (point_at coord_all' p))
            (π (point_at c p) + Qsum ((λ c, π (point_at c p)) <$> C)))
    as (bound' & m' & call' & Hrun & Hb & Hm & Hl & Hsum).
  { rewrite enumerate_cons. cbn [for_each].
    rewrite (average_step_first qadd row tri c) by done. simpl.
    destruct (average_tail (λ p, p.1.1) rows C N 1 (Some (tri, c)) 1 c)
      as (bound' & m' & call' & Hrun & Hb & Hm & Hl & Hs1);
      [done|done|done|done|lia|].
    exists bound', m', call'. split; [done|]. split; [done|].
    split; [done|]. split; [done|]. intros π Hπ p Hp.
    destruct (average_tail π rows C N 1 (Some (tri, c)) 1 c)
      as (bound2 & m2 & call2 & Hrun2 & _ & _ & _ & Hs2);
      [done|done|done|done|lia|].
    rewrite Hrun in Hrun2. injection Hrun2 as _ _ <-. by apply Hs2. }
  assert (∃ tri' c', (match last rows with
                      | Some row => row_loop read_surface None row
                      | None => inr (Some (tri, c))
                      end) = inr (Some (tri', c')) ∧
                     ∃ row' , last (row :: rows) = Some row' ∧
                       row_loop read_surface None row' = inr (Some (tri', c')))
    as (tri' & c' & Hlast & row' & Hlr & Hrow').
  { destruct (last rows) as [lr|] eqn:El.
    - apply last_Some in El as [rows0 ->].
      apply Forall2_app_inv_l in Hrows
        as (C0 & C1 & _ & Hl1 & _).
      apply Forall2_cons_inv_l in Hl1 as (c1 & ? & [tri1 Hr1] & _ & _).
      exists tri1, c1. split; [done|]. exists lr. split; [|done].
      by rewrite app_comm_cons, last_snoc.
    - apply last_None in El as ->. exists tri, c. split; [done|].
      exists row. done. }
  destruct (Hb tri' c' Hlast) as [c'' ->].
  assert (¬ Qeq m' 0) as Hm0.
  { rewrite Hm. intros H0.
    assert (0 <= inject_Z (Z.of_nat (length rows)))%Q.
    { change 0%Q with (inject_Z 0). rewrite <-Zle_Qle. lia. }
    pose proof (Qplus_lt_le_compat 0 1 0 _ ltac:(done) H) as Hlt.
    rewrite H0 in Hlt. by apply Qlt_irrefl in Hlt. }
  exists tri', ((λ p : point3, (qdiv p.1.1 m', qdiv p.1.2 m', qdiv p.2 m'))
                  <$> call').
  split; [|split; [|split]].
  - unfold mesh_average. simpl names_ndim. simpl names_rows. rewrite Hrun.
    simpl. unfold qzero. 
    destruct (Qeq_bool m' 0) eqn:E; [by apply Qeq_bool_eq in E|done].
  - eauto.
  - by rewrite length_fmap.
  - intros p Hp.
    assert (point_at ((λ p : point3, (qdiv p.1.1 m', qdiv p.1.2 m', qdiv p.2 m'))
                        <$> call') p
            = (qdiv (point_at call' p).1.1 m', qdiv (point_at call' p).1.2 m',
               qdiv (point_at call' p).2 m')) as ->.
    { unfold point_at. rewrite list_lookup_fmap.
      destruct (lookup_lt_is_Some_2 call' p ltac:(lia)) as [x ->]. done. }
    assert (Qeq (inject_Z (Z.of_nat (length ((λ c0, point_at c0 p) <$> c :: C))))
                m') as Hn.
    { rewrite length_fmap, length_cons, Nat2Z.inj_succ, <-Z.add_1_l,
        inject_Z_plus, Hm.
      assert (length C = length rows) as -> by (symmetry; by eapply Forall2_length).
      done. }
    unfold point_eq, point_mean. cbv zeta. simpl fst. simpl snd.
    rewrite Hn. unfold qdiv. rewrite !Qred_correct.
    rewrite (Hsum (λ p, p.1.1)), (Hsum (λ p, p.1.2)), (Hsum (λ p, p.2))
      by done.
    rewrite <-!list_fmap_compose. done.
Qed.

End mesh_average_facts.

Lemma mesh_average_merges_row_witness :
  mesh_average (λ _, inl (ValueError "no such file")) qadd
    (NameArray 2
       [[Surface (PolyData [(0, 1, 2)] [(0, 0, 0); (1, 0, 0); (0, 1, 0)]%Q);
         Surface (PolyData [(0, 1, 2)] [(0, 0, 1); (1, 0, 1); (0, 1, 1)]%Q)]])
    false
  = inr (OutPolyData
           (PolyData [(0, 1, 2); (3, 4, 5)]
              [(0, 0, 0); (1, 0, 0); (0, 1, 0);
               (0, 0, 1); (1, 0, 1); (0, 1, 1)]%Q)).
Proof.
  apply (mesh_average_merges_row (λ _, inl (ValueError "no such file")) qadd
           [Surface (PolyData [(0, 1, 2)] [(0, 0, 0); (1, 0, 0); (0, 1, 0)]%Q);
            Surface (PolyData [(0, 1, 2)] [(0, 0, 1); (1, 0, 1); (0, 1, 1)]%Q)]
           [PolyData [(0, 1, 2)] [(0, 0, 0); (1, 0, 0); (0, 1, 0)]%Q;
            PolyData [(0, 1, 2)] [(0, 0, 1); (1, 0, 1); (0, 1, 1)]%Q]).
  - by repeat constructor.
  - done.
  - apply Forall_cons; split; [|apply Forall_cons; split; [|by apply Forall_nil]];
      intros t v Ht Hv; simpl in *;
      apply list_elem_of_singleton in Ht as ->;
      unfold tri_vertices in Hv; simpl in Hv;
      repeat (apply elem_of_cons in Hv as [->|Hv]; [lia|]);
      by apply elem_of_nil in Hv.
  - simpl. lia.
Defined.

Lemma mesh_average_mean_witness :
  let no_file := λ _ : string, inl (ValueError "no such file") in
  let a := PolyData [(0, 1, 2)] [(0, 0, 0); (1, 0, 0); (0, 1, 0)]%Q in
  let b := PolyData [(0, 2, 1)] [(2, 0, 0); (1, 4, 0); (0, 1, 6)]%Q in
  ∃ tri coord,
    mesh_average no_file qadd (NameArray 2 [[Surface a]; [Surface b]]) false
      = inr (OutPolyData (PolyData tri coord)) ∧
    (∃ row c, last [[Surface a]; [Surface b]] = Some row ∧
              row_loop no_file None row = inr (Some (tri, c))) ∧
    length coord = 3%nat ∧
    ∀ p, (p < 3)%nat →
      point_eq (point_at coord p)
        (point_mean ((λ c, point_at c p) <$> [get_points a; get_points b])).
Proof.
  intros no_file a b.
  apply (mesh_average_mean no_file [[Surface a]; [Surface b]]
           [get_points a; get_points b] 3).
  - done.
  - repeat constructor; by eexists.
  - by repeat constructor.
Defined.

(** ** Designs given as a number or as a 1-D array *)

Lemma rect_repmat_rows (row : vector) (n p : nat) :
  length row = p → rect n p (repmat_rows [row] n).
Proof.
  intros Hrow. unfold repmat_rows. split.
  - induction n as [|n IH]; [done|]. simpl. by rewrite IH.
  - induction n as [|n IH]; [by apply Forall_nil|]. simpl.
    apply Forall_cons. done.
Qed.

(** The special case of lines 83-86 computes the product it stands for: for
    a response of a single number, [pinvX * Y[0][0]] is [pinvX . Y]. *)
Lemma scaled_pinv_matmul (P : matrix) (y : Q) (p : nat) :
  rect p 1 P →
  (λ r : vector, (λ x, qmul x y) <$> r) <$> P = matmul P [[y]].
Proof.
  intros [_ HP]. unfold matmul. apply Forall_fmap_ext.
  eapply Forall_impl; [exact HP|]. intros r Hr. simpl in Hr.
  destruct r as [|a [|??]]; simplify_eq/=.
  unfold dotprod, qsum, qadd, qmul. simpl. f_equal.
  rewrite <-(Qred_complete (Qred (a * y)) (0 + Qred (a * y))).
  - symmetry. apply Qred_complete, Qred_correct.
  - ring.
Qed.

Section design_facts.
Context (pinv : matrix → matrix) (matrix_rank : matrix → Z).

(** One chunk of the univariate fit, whatever [M] was. The special case
    prints a line. *)
Lemma univariate_runs_any slm w Ml Mv ly lx coefl ssel Y X P n v p :
  (0 < n)%nat → (0 < v)%nat → (0 < p)%nat →
  rect n v Y → rect n p X → rect p n P →
  slm !! "V" = None →
  heap w !! ly = Some (Arr2 Y) → heap w !! lx = Some (Arr2 X) →
  heap w !! Ml = Some Mv →
  heap w !! coefl = Some (Arr2 (np_zeros p v)) →
  heap w !! ssel = Some (Arr2 (np_zeros 1 v)) →
  coefl ≠ ssel →
  let coef := matmul P Y in
  let res := residuals Y X coef in
  ∃ out,
    runs (univariate slm [n; v] Ml lx P coefl ssel 0 v ly) w
      (World (<[ssel := Arr2 [column_sse res]]>
                (<[coefl := Arr2 coef]> (heap w ++ [Arr2 res]))) out)
      (length (heap w)).
Proof.
  intros Hn Hv Hp HY HX HP HV Hly Hlx HMl Hcoef Hsse Hne coef res.
  assert (rect p v coef) as Hrc by by eapply rect_matmul.
  assert (rect n v (matmul X coef)) as Hrd by by eapply rect_matmul.
  assert (∃ out, runs
            (if bool_decide ([n; v] = [1; 1]%nat)
                && bool_decide (1 < default 0 (head (np_shape Mv)))%nat
             then
               y00 ← lift (r ← py_get Y 0; py_get r 0);
               let coef := (λ r : vector, (λ x, qmul x y00) <$> r) <$> P in
               print "s 1 1 ";;
               mret coef
             else lift (np_dot P Y)) w (World (heap w) out) coef)
    as (out & Hcoefrun).
  { destruct (bool_decide ([n; v] = [1; 1]%nat)
              && bool_decide (1 < default 0 (head (np_shape Mv)))%nat) eqn:E.
    - apply andb_true_iff in E as [[= -> ->]%bool_decide_eq_true _].
      destruct HY as [HYl HYr]. destruct Y as [|[|y [|??]] [|??]];
        simplify_eq/=; try (by apply Forall_cons in HYr as [? _]).
      exists (stdout w ++ ["s 1 1 "]).
      eapply runs_bind; [by apply runs_lift|]. cbv zeta.
      eapply runs_bind; [unfold runs; reflexivity|].
      unfold coef. rewrite <-(scaled_pinv_matmul P y p) by done.
      apply runs_ret.
    - exists (stdout w). destruct w as [h o]. simpl.
      apply runs_lift. by eapply np_dot_ok. }
  exists out.
  unfold univariate. rewrite HV.
  eapply runs_bind; [by apply runs_load2|].
  eapply runs_bind; [by apply runs_load|].
  eapply runs_bind; [exact Hcoefrun|].
  eapply runs_bind; [by apply runs_load2|].
  eapply runs_bind.
  { apply runs_lift. rewrite (np_dot_ok n p v) by done. simpl.
    by apply (broadcast2_same _ n v). }
  fold res. eapply runs_bind; [apply runs_alloc|].
  eapply runs_bind.
  { apply runs_load2. simpl. rewrite lookup_app_l; [done|].
    by eapply lookup_lt_Some. }
  eapply runs_bind.
  { apply runs_lift. apply (assign_cols_full p v); [apply rect_replicate|done..]. }
  eapply runs_bind; [apply runs_store|]. simpl.
  eapply runs_bind.
  { apply runs_load2. simpl. rewrite list_lookup_insert_ne by done.
    rewrite lookup_app_l; [done|]. by eapply lookup_lt_Some. }
  eapply runs_bind.
  { apply runs_lift. apply (assign_cols_full 1 v); [apply rect_replicate| |lia].
    split; [done|]. repeat constructor.
    apply (length_column_sse n); [|done]. by apply rect_zip_with. }
  eapply runs_bind; [apply runs_store|]. simpl.
  apply runs_ret.
Qed.

(** The call for a 2-D response, from the point where [M] has been bound. *)
Lemma fit_after_bind w w1 ly M Ml Mv Xl Y X P r n v p :
  (0 < n)%nat → (0 < v)%nat → (0 < p)%nat →
  rect n v Y → rect n p X → rect p n P →
  heap w !! ly = Some (Arr2 Y) →
  runs (bind_M pinv n M) w w1 (Some (Ml, Xl, P, r)) →
  heap w1 !! ly = Some (Arr2 Y) → heap w1 !! Xl = Some (Arr2 X) →
  heap w1 !! Ml = Some Mv →
  let coef := matmul P Y in
  let res := residuals Y X coef in
  ∃ out,
    runs (py_SurfStatLinMod pinv matrix_rank (ArgArr ly) M) w
      (World (heap w1 ++ [Arr2 coef; Arr2 [column_sse res]; Arr2 res]) out)
      (slm_result Xl (Z.of_nat n - matrix_rank X)
         (length (heap w1)) (S (length (heap w1)))).
Proof.
  intros Hn Hv Hp HY HX HP Hly Hbind Hly1 HXl HMl coef res.
  set (slm := slm_result Xl (Z.of_nat n - matrix_rank X)
                (length (heap w1)) (S (length (heap w1)))).
  set (h := heap w1 ++ [Arr2 (np_zeros p v); Arr2 (np_zeros 1 v)]).
  set (out := if mean_exceeds_spacing (np_square r) then stdout w1 ++ [warning]
              else stdout w1).
  assert (py_SurfStatLinMod pinv matrix_rank (ArgArr ly) M w
          = (univariate slm [n; v] Ml Xl P
               (length (heap w1)) (S (length (heap w1))) 0 v ly
             ≫= λ _, mret slm) (World h out)) as Hchunk.
  { unfold py_SurfStatLinMod.
    erewrite bind_runs_eq; last first.
    { unfold bind_Y. eapply runs_bind; [by apply runs_load|]. apply runs_ret. }
    simpl. rewrite (proj1 HY), (rect_ncols n v) by done.
    erewrite bind_runs_eq by exact Hbind. simpl.
    erewrite bind_runs_eq; last first.
    { instantiate (1 := ()). instantiate (1 := World (heap w1) out).
      unfold out.
      destruct (mean_exceeds_spacing (np_square r)); [done|by destruct w1]. }
    erewrite bind_runs_eq by by apply runs_load2.
    rewrite (rect_ncols n p) by done.
    erewrite bind_runs_eq by apply runs_alloc. simpl.
    erewrite bind_runs_eq by apply runs_alloc. simpl.
    rewrite Nat.min_id, length_app, Nat.add_1_r, <-app_assoc. simpl.
    unfold mbind, py_bind.
    by destruct (univariate _ _ _ _ _ _ _ _ _ _ _) as [? [?|?]]. }
  assert (length (heap w1) < length h)%nat as Hlen
    by (unfold h; rewrite length_app; simpl; lia).
  destruct (univariate_runs_any slm (World h out) Ml Mv
    ly Xl (length (heap w1)) (S (length (heap w1))) Y X P n v p)
    as (out' & Hu); try done; simpl.
  - unfold h. rewrite lookup_app_l; [done|by eapply lookup_lt_Some].
  - unfold h. rewrite lookup_app_l; [done|by eapply lookup_lt_Some].
  - unfold h. rewrite lookup_app_l; [done|by eapply lookup_lt_Some].
  - unfold h. by rewrite lookup_app_r, Nat.sub_diag.
  - unfold h. rewrite lookup_app_r by lia.
    by replace (S (length (heap w1)) - length (heap w1))%nat with 1%nat by lia.
  - exists out'. unfold runs. rewrite Hchunk.
    eapply runs_bind; [|apply runs_ret]. simpl in Hu.
    replace (heap w1 ++ [Arr2 coef; Arr2 [column_sse res]; Arr2 res])
      with (<[S (length (heap w1)):=Arr2 [column_sse res]]>
              (<[length (heap w1):=Arr2 coef]> (h ++ [Arr2 res]))); [exact Hu|].
    unfold h. rewrite <-!app_assoc. simpl.
    rewrite (insert_app_r_alt _ _ (length (heap w1))) by done.
    rewrite Nat.sub_diag. simpl.
    rewrite (insert_app_r_alt _ _ (S (length (heap w1)))) by lia.
    by replace (S (length (heap w1)) - length (heap w1))%nat with 1%nat by lia.
Qed.

Lemma bind_M_number w c n :
  (0 < n)%nat →
  rect 1 n (pinv (repmat_rows [[c]] n)) →
  ∃ r, runs (bind_M pinv n (ArgNum c)) w
         (World (heap w ++ [Arr2 [[c]]; Arr2 (repmat_rows [[c]] n)]) (stdout w))
         (Some (length (heap w), S (length (heap w)),
                pinv (repmat_rows [[c]] n), r)).
Proof.
  intros Hn HP. set (X := repmat_rows [[c]] n) in *.
  assert (rect n 1 X) as HX by by apply rect_repmat_rows.
  destruct (broadcast2_rect qmul 1 n n 1 n n (pinv X) (np_ones n 1))
    as (t & Ht & Hrt); [done|apply rect_replicate|lia|done|
                        apply bdim_1_l|apply bdim_1_r|].
  destruct (broadcast2_rect qsub n 1 n 1 n 1 (np_ones n 1) (matmul t X))
    as (r & Hr & _); [apply rect_replicate|by eapply rect_matmul|done|done|
                      apply bdim_same|apply bdim_same|].
  exists r. unfold bind_M.
  eapply runs_bind; [apply runs_alloc|].
  eapply runs_bind; [apply runs_alloc|]. simpl.
  rewrite length_app, Nat.add_1_r, <-app_assoc. simpl.
  eapply runs_bind; [|apply runs_ret].
  apply runs_lift. fold X. rewrite Ht. simpl.
  rewrite (np_dot_ok n n 1) by done. done.
Qed.

Lemma bind_M_vector w l m n p :
  (0 < n)%nat → (0 < p)%nat → length m = p →
  rect p n (pinv (repmat_rows [m] n)) →
  heap w !! l = Some (Arr1 m) →
  ∃ r, runs (bind_M pinv n (ArgArr l)) w
         (World (heap w ++ [Arr2 (repmat_rows [m] n)]) (stdout w))
         (Some (l, length (heap w), pinv (repmat_rows [m] n), r)).
Proof.
  intros Hn Hp Hm HP Hl. set (X := repmat_rows [m] n) in *.
  assert (rect n p X) as HX by by apply rect_repmat_rows.
  assert (rect p 1 (matmul (pinv X) (np_ones n 1))) as Ht
    by (eapply rect_matmul; [done|apply rect_replicate|done]).
  destruct (broadcast2_rect qsub n 1 n 1 n 1 (np_ones n 1)
              (matmul X (matmul (pinv X) (np_ones n 1))))
    as (r & Hr & _); [apply rect_replicate|by eapply rect_matmul|done|done|
                      apply bdim_same|apply bdim_same|].
  exists r. unfold bind_M.
  eapply runs_bind; [by apply runs_load|]. simpl.
  eapply runs_bind; [apply runs_alloc|].
  eapply runs_bind; [|apply runs_ret].
  apply runs_lift. fold X.
  rewrite (np_dot_ok p n 1) by (done || apply rect_replicate). simpl.
  rewrite (np_dot_ok n p 1) by done. done.
Qed.

Lemma repmat_rows_row (row : vector) (n : nat) :
  repmat_rows [row] n = replicate n row.
Proof.
  unfold repmat_rows. induction n as [|n IH]; [done|]. simpl. by rewrite IH.
Qed.

Lemma fit_result_arrays w1 Xl df (X coef res : matrix) (sse : vector) out :
  heap w1 !! Xl = Some (Arr2 X) →
  let w' := World (heap w1 ++ [Arr2 coef; Arr2 [sse]; Arr2 res]) out in
  let slm := slm_result Xl df (length (heap w1)) (S (length (heap w1))) in
  slm_array w' slm "X" = Some (Arr2 X) ∧
  slm_array w' slm "coef" = Some (Arr2 coef) ∧
  slm_array w' slm "SSE" = Some (Arr2 [sse]) ∧
  slm !! "df" = Some (PyInt df).
Proof.
  intros HXl w' slm.
  destruct (slm_result_lookup Xl df (length (heap w1)) (S (length (heap w1))))
    as (HX' & Hdf & Hc & Hs).
  unfold slm_array, slm, w'. rewrite HX', Hc, Hs. simpl.
  split; [rewrite lookup_app_l; [done|by eapply lookup_lt_Some]|].
  split; [by rewrite lookup_app_r, Nat.sub_diag|].
  split; [|done]. rewrite lookup_app_r by lia.
  by replace (S (length (heap w1)) - length (heap w1))%nat with 1%nat by lia.
Qed.

(** X13. A design given as a number [c] stands for the column of [n] entries
    [c], and a design given as a 1-D array [m] for the matrix of [n] rows
    [m], where [n] is the number of observations of the 2-D response: with
    that [X] the fitter returns coef = pinv(X) . Y, SSE = the column-wise sum
    of the squared residuals and df = n - rank(X), keeps [X] as a new array
    under the key ["X"], and changes nothing that was in the store. This
    includes the special case of the source for a response of a single
    number and a 1-D design of several entries. *)
Theorem fit_number_or_vector_design
    (w : world) (ly : loc) (Y : matrix) (n v : nat) :
  (0 < n)%nat → (0 < v)%nat → rect n v Y →
  heap w !! ly = Some (Arr2 Y) →
  (∀ c : Q,
     let X := replicate n [c] in
     let coef := matmul (pinv X) Y in
     rect 1 n (pinv X) →
     ∃ w' slm,
       py_SurfStatLinMod pinv matrix_rank (ArgArr ly) (ArgNum c) w
       = (w', inr slm) ∧
       slm_array w' slm "X" = Some (Arr2 X) ∧
       slm_array w' slm "coef" = Some (Arr2 coef) ∧
       slm_array w' slm "SSE" = Some (Arr2 [column_sse (residuals Y X coef)]) ∧
       slm !! "df" = Some (PyInt (Z.of_nat n - matrix_rank X)) ∧
       (∀ l a, heap w !! l = Some a → heap w' !! l = Some a)) ∧
  (∀ (lm : loc) (m : vector) (p : nat),
     let X := replicate n m in
     let coef := matmul (pinv X) Y in
     heap w !! lm = Some (Arr1 m) → length m = p → (0 < p)%nat →
     rect p n (pinv X) →
     ∃ w' slm,
       py_SurfStatLinMod pinv matrix_rank (ArgArr ly) (ArgArr lm) w
       = (w', inr slm) ∧
       slm_array w' slm "X" = Some (Arr2 X) ∧
       slm_array w' slm "coef" = Some (Arr2 coef) ∧
       slm_array w' slm "SSE" = Some (Arr2 [column_sse (residuals Y X coef)]) ∧
       slm !! "df" = Some (PyInt (Z.of_nat n - matrix_rank X)) ∧
       (∀ l a, heap w !! l = Some a → heap w' !! l = Some a)).
Proof.
  intros Hn Hv HY Hly. split.
  - intros c X coef HP. unfold coef, X in *. rewrite <-repmat_rows_row in *.
    destruct (bind_M_number w c n Hn HP) as (r & Hbind).
    destruct (fit_after_bind w _ ly (ArgNum c) _ (Arr2 [[c]]) _ Y
                (repmat_rows [[c]] n) _ r n v 1
                Hn Hv ltac:(lia) HY (rect_repmat_rows [c] n 1 eq_refl) HP
                Hly Hbind) as (out & Hrun); simpl.
    { rewrite lookup_app_l; [done|by eapply lookup_lt_Some]. }
    { rewrite lookup_app_r by lia.
      by replace (S (length (heap w)) - length (heap w))%nat with 1%nat by lia. }
    { by rewrite lookup_app_r, Nat.sub_diag by lia. }
    eexists _, _. split; [exact Hrun|].
    edestruct (fit_result_arrays
                 (World (heap w ++ [Arr2 [[c]]; Arr2 (repmat_rows [[c]] n)])
                    (stdout w)) (S (length (heap w))))
      as (H1 & H2 & H3 & H4).
    { simpl. rewrite lookup_app_r by lia.
      by replace (S (length (heap w)) - length (heap w))%nat with 1%nat by lia. }
    simpl in H1, H2, H3.
    split; [exact H1|]. split; [exact H2|]. split; [exact H3|].
    split; [exact H4|].
    intros l a Hl. simpl. rewrite <-app_assoc.
    rewrite lookup_app_l; [done|by eapply lookup_lt_Some].
  - intros lm m p X coef Hlm Hm Hp HP. unfold coef, X in *.
    rewrite <-repmat_rows_row in *.
    destruct (bind_M_vector w lm m n p Hn Hp Hm HP Hlm) as (r & Hbind).
    destruct (fit_after_bind w _ ly (ArgArr lm) _ (Arr1 m) _ Y
                (repmat_rows [m] n) _ r n v p
                Hn Hv Hp HY (rect_repmat_rows m n p Hm) HP
                Hly Hbind) as (out & Hrun); simpl.
    { rewrite lookup_app_l; [done|by eapply lookup_lt_Some]. }
    { by rewrite lookup_app_r, Nat.sub_diag by lia. }
    { rewrite lookup_app_l; [done|by eapply lookup_lt_Some]. }
    eexists _, _. split; [exact Hrun|].
    edestruct (fit_result_arrays
                 (World (heap w ++ [Arr2 (repmat_rows [m] n)]) (stdout w))
                 (length (heap w)))
      as (H1 & H2 & H3 & H4).
    { simpl. by rewrite lookup_app_r, Nat.sub_diag by lia. }
    simpl in H1, H2, H3.
    split; [exact H1|]. split; [exact H2|]. split; [exact H3|].
    split; [exact H4|].
    intros l a Hl. simpl. rewrite <-app_assoc.
    rewrite lookup_app_l; [done|by eapply lookup_lt_Some].
Qed.

End design_facts.

Lemma fit_number_or_vector_design_witness :
  let w := World [Arr2 [[3%Q]]; Arr1 [1; 2]%Q] [] in
  (∃ w' slm,
     fit (ArgArr 0) (ArgNum 1) w = (w', inr slm) ∧
     slm_array w' slm "X" = Some (Arr2 [[1%Q]]) ∧
     slm_array w' slm "coef" = Some (Arr2 [[3%Q]]) ∧
     slm_array w' slm "SSE" = Some (Arr2 [[0%Q]]) ∧
     slm !! "df" = Some (PyInt 0)) ∧
  (∃ w' slm,
     fit (ArgArr 0) (ArgArr 1) w = (w', inr slm) ∧
     slm_array w' slm "X" = Some (Arr2 [[1; 2]]%Q) ∧
     slm_array w' slm "coef" = Some (Arr2 [[3 # 5]; [6 # 5]]%Q) ∧
     slm_array w' slm "SSE" = Some (Arr2 [[0%Q]]) ∧
     slm !! "df" = Some (PyInt 0)).
Proof.
  intros w.
  destruct (fit_number_or_vector_design exact_pinv exact_rank
              w 0%nat [[3%Q]] 1 1
              ltac:(lia) ltac:(lia) ltac:(by repeat constructor) eq_refl)
    as [Hnum Hvec].
  split.
  - destruct (Hnum 1%Q ltac:(vm_compute; by repeat constructor))
      as (w' & slm & Hrun & HX & Hc & Hs & Hdf & _).
    exists w', slm. split; [exact Hrun|].
    split; [exact HX|].
    split; [rewrite Hc; by vm_compute|].
    split; [rewrite Hs; by vm_compute|].
    rewrite Hdf. by vm_compute.
  - destruct (Hvec 1%nat [1; 2]%Q 2%nat eq_refl eq_refl ltac:(lia)
                ltac:(vm_compute; by repeat constructor))
      as (w' & slm & Hrun & HX & Hc & Hs & Hdf & _).
    exists w', slm. split; [exact Hrun|].
    split; [exact HX|].
    split; [rewrite Hc; by vm_compute|].
    split; [rewrite Hs; by vm_compute|].
    rewrite Hdf. by vm_compute.
Defined.

(** ** The multivariate fit in general *)

Lemma rect_slice_last n v k j a : rect3 n v k a → rect n v (slice_last j a).
Proof.
  intros [Hn Ha]. unfold slice_last. split; [by rewrite length_fmap|].
  apply Forall_fmap. eapply Forall_impl; [done|]. intros m [Hm _]. simpl.
  by rewrite length_fmap.
Qed.

Lemma rect3_ncols n v k a : rect3 n v k a → (0 < n)%nat → ncols a = v.
Proof.
  intros [Hn Ha] ?. destruct a as [|m a]; simpl in *; [lia|].
  apply Forall_cons in Ha as [[? _] _]. done.
Qed.

Lemma assign_last_ok n v k j a val :
  rect3 n v k a → rect n v val → (0 < n)%nat →
  assign_last j a val
  = inr (zip_with (zip_with (λ cell x, <[j := x]> cell)) a val).
Proof.
  intros Ha Hval Hn. unfold assign_last, fits.
  rewrite (rect3_ncols n v k a), (proj1 Ha), (proj1 Hval),
    (rect_ncols n v val) by done.
  rewrite !bool_decide_eq_true_2 by auto. simpl.
  by rewrite broadcast_to_id.
Qed.

Lemma rect3_assign n v k j a val :
  rect3 n v k a → rect n v val →
  rect3 n v k (zip_with (zip_with (λ (cell : vector) x, <[j := x]> cell)) a val).
Proof.
  intros [Hn Ha] [Hvn Hval]. split; [rewrite length_zip_with; lia|].
  apply Forall_forall. intros m Hm.
  apply elem_of_lookup_zip_with in Hm as (i & x & y & -> & Hx & Hy).
  pose proof (proj1 (Forall_forall _ _) Ha x
                ltac:(by eapply list_elem_of_lookup_2)) as [Hxl Hxr].
  pose proof (proj1 (Forall_forall _ _) Hval y
                ltac:(by eapply list_elem_of_lookup_2)) as Hyl.
  simpl in Hyl. split; [rewrite length_zip_with; lia|].
  apply Forall_forall. intros cell Hc.
  apply elem_of_lookup_zip_with in Hc as (i' & c & q & -> & Hc & Hq).
  rewrite length_insert. rewrite Forall_forall in Hxr. apply Hxr.
  by eapply list_elem_of_lookup_2.
Qed.

Lemma slice_row_assign (k j j' : nat) (m : matrix) (row : vector) :
  Forall (λ cell, length cell = k) m → length m = length row → (j < k)%nat →
  (λ cell : vector, default 0%Q (cell !! j'))
    <$> zip_with (λ cell x, <[j := x]> cell) m row
  = if decide (j' = j) then row
    else (λ cell : vector, default 0%Q (cell !! j')) <$> m.
Proof.
  intros Hm. revert row. induction Hm as [|cell m Hc _ IH];
    intros [|x row] Hlen Hj; simplify_eq/=.
  - by destruct (decide _).
  - specialize (IH row ltac:(done) Hj). rewrite IH.
    destruct (decide (j' = j)) as [->|Hne].
    + by rewrite list_lookup_insert_eq by lia.
    + by rewrite list_lookup_insert_ne by done.
Qed.

Lemma slice_last_assign n v k j j' a val :
  rect3 n v k a → rect n v val → (j < k)%nat →
  slice_last j' (zip_with (zip_with (λ cell x, <[j := x]> cell)) a val)
  = if decide (j' = j) then val else slice_last j' a.
Proof.
  intros [Hn Ha] [Hvn Hval] Hj. unfold slice_last.
  revert n val Hn Hvn Hval. induction Ha as [|m a [Hm Hmr] _ IH];
    intros n [|row val] Hn Hvn Hval; simplify_eq/=.
  - by destruct (decide _).
  - apply Forall_cons in Hval as [Hrow Hval].
    rewrite (slice_row_assign k) by (done || lia).
    rewrite (IH (length a) val) by done.
    by destruct (decide _).
Qed.

Lemma rect3_zeros p v k : rect3 p v k (np_zeros3 p v k).
Proof.
  unfold np_zeros3. split; [by rewrite length_replicate|].
  apply Forall_replicate. apply rect_replicate.
Qed.

Lemma runs_load3 l a w : heap w !! l = Some (Arr3 a) → runs (load3 l) w w a.
Proof. intros H. eapply runs_bind; [by apply runs_load|]. apply runs_ret. Qed.

Lemma for_py_inv {S X} (Inv : list X → world → S → Prop) (xs : list X)
    (body : X → S → py S) (s : S) (w : world) :
  Inv [] w s →
  (∀ pre x post w s, xs = pre ++ x :: post → Inv pre w s →
     ∃ w' s', runs (body x s) w w' s' ∧ Inv (pre ++ [x]) w' s') →
  ∃ w' s', runs (for_py xs body s) w w' s' ∧ Inv xs w' s'.
Proof.
  intros H0 Hstep.
  assert (∀ pre post s w, xs = pre ++ post → Inv pre w s →
            ∃ w' s', runs (for_py post body s) w w' s' ∧ Inv (pre ++ post) w' s')
    as Hgen.
  { intros pre post. revert pre.
    induction post as [|x post IH]; intros pre s' w' Hxs Hinv.
    - exists w', s'. rewrite app_nil_r. split; [apply runs_ret|done].
    - destruct (Hstep pre x post w' s' Hxs Hinv) as (w1 & s1 & Hrun & Hinv1).
      destruct (IH (pre ++ [x]) s1 w1) as (w2 & s2 & Hrun2 & Hinv2);
        [by rewrite <-app_assoc|done|].
      exists w2, s2. split.
      + simpl. by eapply runs_bind.
      + by rewrite <-app_assoc in Hinv2. }
  by apply (Hgen [] xs).
Qed.

Lemma seq_split_at (k : nat) (pre post : list nat) (x : nat) :
  seq 0 k = pre ++ x :: post → x = length pre ∧ (x < k)%nat.
Proof.
  intros Hseq.
  assert (seq 0 k !! length pre = Some x) as Hx.
  { rewrite Hseq. by rewrite lookup_app_r, Nat.sub_diag by done. }
  apply lookup_seq in Hx. lia.
Qed.

Section multivariate_facts.
Context (pinv : matrix → matrix) (matrix_rank : matrix → Z).

(** The first loop of the multivariate fit: the coefficients, and the
    response overwritten by the residuals, component by component. *)
Lemma multivariate_coef_loop w ly lx Y X P n v k p :
  (0 < n)%nat → (0 < v)%nat → (0 < p)%nat →
  rect3 n v k Y → rect n p X → rect p n P →
  heap w !! ly = Some (Arr3 Y) → heap w !! lx = Some (Arr2 X) →
  ∃ w' coef Y3,
    runs (for_py (seq 0 k) (λ j coef,
            Y3 ← load3 ly;
            coef ← lift (c ← np_dot P (slice_last j Y3); assign_last j coef c);
            Y3 ← load3 ly;
            Y3 ← lift (d ← np_dot X (slice_last j coef);
                       res ← broadcast2 qsub (slice_last j Y3) d;
                       assign_last j Y3 res);
            store ly (Arr3 Y3);;
            mret coef) (np_zeros3 p v k)) w w' coef ∧
    heap w' = <[ly := Arr3 Y3]> (heap w) ∧ stdout w' = stdout w ∧
    rect3 n v k Y3 ∧ rect3 p v k coef ∧
    ∀ j, (j < k)%nat →
      slice_last j coef = matmul P (slice_last j Y) ∧
      slice_last j Y3
      = residuals (slice_last j Y) X (matmul P (slice_last j Y)).
Proof.
  intros Hn Hv Hp HY HX HP Hly Hlx.
  assert (ly ≠ lx) as Hne by (intros ->; congruence).
  pose proof (lookup_lt_Some _ _ _ Hly) as Hlt.
  set (Inv := λ (pre : list nat) (w' : world) (coef : list matrix),
    ∃ Y3, heap w' = <[ly := Arr3 Y3]> (heap w) ∧ stdout w' = stdout w ∧
          rect3 n v k Y3 ∧ rect3 p v k coef ∧
          (∀ j, (j < length pre)%nat →
             slice_last j coef = matmul P (slice_last j Y) ∧
             slice_last j Y3
             = residuals (slice_last j Y) X (matmul P (slice_last j Y))) ∧
          (∀ j, (length pre ≤ j)%nat → slice_last j Y3 = slice_last j Y)).
  match goal with |- context [for_py _ ?b _] => set (body := b) end.
  destruct (for_py_inv Inv (seq 0 k) body (np_zeros3 p v k) w)
    as (w' & coef & Hrun & Hinv); [| |exists w', coef].
  - exists Y. split; [by rewrite list_insert_id|]. split; [done|].
    split; [done|]. split; [apply rect3_zeros|].
    split; [simpl; lia|done].
  - intros pre j post w1 coef Hseq (Y3 & Hheap & Hout & HY3 & Hcoef & Hdone & Htodo).
    apply seq_split_at in Hseq as [-> Hj].
    assert (heap w1 !! ly = Some (Arr3 Y3)) as Hly1
      by (rewrite Hheap; by apply list_lookup_insert_eq).
    set (c := matmul P (slice_last (length pre) Y)).
    assert (rect p v c) as Hc
      by (eapply rect_matmul; [done|by apply (rect_slice_last n v k)|done]).
    set (coef' := zip_with (zip_with (λ (cell : vector) x,
                                        <[length pre := x]> cell)) coef c).
    set (res := residuals (slice_last (length pre) Y) X c).
    assert (rect n v res) as Hres.
    { apply rect_zip_with; [by apply (rect_slice_last n v k)|].
      by eapply rect_matmul. }
    set (Y3' := zip_with (zip_with (λ (cell : vector) x,
                                      <[length pre := x]> cell)) Y3 res).
    exists (World (<[ly := Arr3 Y3']> (heap w1)) (stdout w1)), coef'. split.
    + unfold body. eapply runs_bind; [by apply runs_load3|].
      eapply runs_bind.
      { apply runs_lift. rewrite (Htodo (length pre)) by done.
        rewrite (np_dot_ok p n v) by (done || by apply (rect_slice_last n v k)).
        simpl. by apply (assign_last_ok p v k). }
      eapply runs_bind; [by apply runs_load3|].
      eapply runs_bind.
      { apply runs_lift. unfold coef'.
        rewrite (slice_last_assign p v k) by done.
        rewrite decide_True by done.
        rewrite (np_dot_ok n p v) by done. simpl.
        rewrite (Htodo (length pre)) by done.
        rewrite (broadcast2_same _ n v);
          [|by apply (rect_slice_last n v k)|by eapply rect_matmul|done].
        simpl. by apply (assign_last_ok n v k). }
      eapply runs_bind; [apply runs_store|]. apply runs_ret.
    + exists Y3'. simpl. split.
      { rewrite Hheap. by rewrite list_insert_insert_eq. }
      split; [done|]. split; [by apply rect3_assign|].
      split; [by apply rect3_assign|]. split.
      * intros j. rewrite length_app. simpl. intros Hjlt.
        unfold coef', Y3'.
        rewrite (slice_last_assign p v k), (slice_last_assign n v k) by done.
        destruct (decide (j = length pre)) as [->|Hjne]; [done|].
        apply Hdone. lia.
      * intros j. rewrite length_app. simpl. intros Hjge. unfold Y3'.
        rewrite (slice_last_assign n v k) by done.
        rewrite decide_False by lia. apply Htodo. lia.
  - destruct Hinv as (Y3 & Hheap & Hout & HY3 & Hcoef & Hdone & _).
    exists Y3. split; [done|]. split; [done|]. split; [done|].
    split; [done|]. split; [done|].
    intros j Hj. apply Hdone. by rewrite length_seq.
Qed.

Lemma runs_print (msg : string) w :
  runs (print msg) w (World (heap w) (stdout w ++ [msg])) ().
Proof. done. Qed.

Lemma length_sum_axis1 (a : matrix) : length (sum_axis1 a) = length a.
Proof. unfold sum_axis1. by rewrite length_fmap. Qed.

(** One chunk of the multivariate fit when the number of observations is
    neither the number of vertices nor one. *)
Lemma multivariate_fails slm w ly lx coefl ssel Y X P n v k p :
  (0 < n)%nat → (0 < v)%nat → (0 < p)%nat → (0 < k)%nat →
  rect3 n v k Y → rect n p X → rect p n P →
  n ≠ v → n ≠ 1%nat →
  slm !! "V" = None →
  heap w !! ly = Some (Arr3 Y) → heap w !! lx = Some (Arr2 X) →
  ∃ w' Y3,
    fails (multivariate slm p k lx P coefl ssel 0 v ly) w w'
      (ValueError "could not broadcast input array") ∧
    heap w' = <[ly := Arr3 Y3]> (heap w) ∧
    stdout w' = stdout w ++ ["multivariate ..."] ∧
    ∀ j, (j < k)%nat →
      slice_last j Y3
      = residuals (slice_last j Y) X (matmul P (slice_last j Y)).
Proof.
  intros Hn Hv Hp Hk HY HX HP Hnv Hn1 HV Hly Hlx.
  destruct (multivariate_coef_loop
              (World (heap w) (stdout w ++ ["multivariate ..."]))
              ly lx Y X P n v k p)
    as (w' & coef & Y3 & Hrun & Hheap & Hout & HY3 & Hcoef & Hres); [done..|].
  simpl in Hheap, Hout.
  assert (ly < length (heap w))%nat as Hlt by by eapply lookup_lt_Some.
  exists w', Y3. split; [|split; [done|split; [done|]]].
  2:{ intros j Hj. by apply Hres. }
  unfold multivariate.
  eapply fails_bind_r; [apply runs_print|]. rewrite HV. cbv zeta.
  eapply fails_bind_r; [by apply runs_load2|].
  rewrite Nat.sub_0_r.
  eapply fails_bind_r; [exact Hrun|].
  apply fails_bind_l.
  assert (0 < k * (k + 1) / 2)%nat as Hk2
    by (apply Nat.div_str_pos; split; [lia|nia]).
  set (k2 := (k * (k + 1) / 2)%nat) in *.
  destruct k as [|k]; [lia|].
  change (seq 0 (S k)) with (0%nat :: seq 1 k). cbn [for_py].
  apply fails_bind_l.
  change (seq 0 (0 + 1)) with [0%nat]. cbn [for_py].
  apply fails_bind_l.
  eapply fails_bind_r.
  { apply runs_load3. rewrite Hheap. by apply list_lookup_insert_eq. }
  apply fails_bind_l, fails_lift.
  rewrite (broadcast2_same _ n v);
    [|by apply (rect_slice_last n v (S k))..|done].
  simpl. unfold assign_row, np_zeros.
  rewrite lookup_replicate_2 by done.
  rewrite length_sum_axis1, length_zip_with, length_replicate.
  rewrite (proj1 (rect_slice_last n v (S k) 0 Y3 HY3)), Nat.min_id.
  by rewrite bool_decide_eq_false_2 by lia.
Qed.

Lemma rect3_shape n v k Y :
  rect3 n v k Y → (0 < n)%nat → (0 < v)%nat → np_shape (Arr3 Y) = [n; v; k].
Proof.
  intros [Hn HY] ??. destruct Y as [|m Y]; simpl in *; [lia|].
  apply Forall_cons in HY as [Hm _]. f_equal; [done|].
  f_equal; [apply Hm|]. f_equal. by apply (rect_ncols v k).
Qed.

(** X14. A response with several components per vertex (a 3-D array of n
    observations, v vertices and k > 1 components) whose number of
    observations is neither the number of vertices nor one cannot be
    fitted: the call ends in numpy's [ValueError] for shapes that do not
    fit, raised when the first row of SSE is stored. By then the fitter has
    replaced every component of the caller's response by its residuals; the
    design is as it was. *)
Theorem multivariate_fit_needs_square
    (w : world) (ly lx : loc) (Y : list matrix) (X : matrix) (n v k p : nat) :
  (1 < k)%nat → (0 < n)%nat → (0 < v)%nat → (0 < p)%nat →
  rect3 n v k Y → rect n p X → rect p n (pinv X) →
  heap w !! ly = Some (Arr3 Y) → heap w !! lx = Some (Arr2 X) →
  n ≠ v → n ≠ 1%nat →
  ∃ w' res,
    py_SurfStatLinMod pinv matrix_rank (ArgArr ly) (ArgArr lx) w
    = (w', inl (ValueError "could not broadcast input array")) ∧
    heap w' !! ly = Some (Arr3 res) ∧
    (∀ j, (j < k)%nat →
       slice_last j res
       = residuals (slice_last j Y) X (matmul (pinv X) (slice_last j Y))) ∧
    heap w' !! lx = Some (Arr2 X).
Proof.
  intros Hk Hn Hv Hp HY HX HP Hly Hlx Hnv Hn1.
  assert (ly ≠ lx) as Hne by (intros ->; congruence).
  pose proof (lookup_lt_Some _ _ _ Hly) as Hlt.
  destruct (bind_M_design pinv w lx X n n p) as (r & Hbind); [by auto..|].
  set (out := if mean_exceeds_spacing (np_square r) then stdout w ++ [warning]
              else stdout w).
  set (slm := slm_result lx (Z.of_nat n - matrix_rank X)
                (length (heap w)) (S (length (heap w)))).
  destruct (multivariate_fails slm
              (World (heap w ++ [Arr3 (np_zeros3 p v k);
                                 Arr2 (np_zeros (k * (k + 1) / 2) v)]) out)
              ly lx (length (heap w)) (S (length (heap w))) Y X (pinv X)
              n v k p)
    as (w' & Y3 & Hf & Hheap & _ & Hres); try done; try lia.
  { simpl. rewrite lookup_app_l; [done|by eapply lookup_lt_Some]. }
  { simpl. rewrite lookup_app_l; [done|by eapply lookup_lt_Some]. }
  simpl in Hheap.
  exists w', Y3. split; [|split; [|split; [done|]]].
  - change (fails (py_SurfStatLinMod pinv matrix_rank (ArgArr ly) (ArgArr lx))
              w w' (ValueError "could not broadcast input array")).
    unfold py_SurfStatLinMod.
    eapply fails_bind_r.
    { unfold bind_Y. eapply runs_bind; [by apply runs_load|]. apply runs_ret. }
    rewrite (rect3_shape n v k) by done.
    eapply fails_bind_r; [exact Hbind|]. cbv zeta.
    eapply fails_bind_r.
    { instantiate (1 := ()). instantiate (1 := World (heap w) out). unfold out.
      destruct (mean_exceeds_spacing (np_square r)); [done|by destruct w]. }
    eapply fails_bind_r; [by apply runs_load2|].
    rewrite (rect_ncols n p X) by done.
    rewrite !(decide_False (P := k = 1%nat)) by lia.
    eapply fails_bind_r; [apply runs_alloc|].
    eapply fails_bind_r; [apply runs_alloc|].
    apply fails_bind_l. change (seq 0 1) with [0%nat]. cbn [for_py].
    apply fails_bind_l.
    rewrite !(decide_False (P := k = 1%nat)) by lia.
    simpl. rewrite Nat.min_id, length_app, Nat.add_1_r, <-app_assoc. simpl.
    exact Hf.
  - rewrite Hheap. apply list_lookup_insert_eq. rewrite length_app. lia.
  - rewrite Hheap, list_lookup_insert_ne by done.
    rewrite lookup_app_l; [done|by eapply lookup_lt_Some].
Qed.

End multivariate_facts.

Lemma multivariate_fit_needs_square_witness :
  let Y := [[[1; 0]; [2; 0]]; [[3; 0]; [5; 0]]; [[3; 0]; [5; 0]]]%Q in
  let X := [[1]; [1]; [1]]%Q in
  ∃ w' res,
    fit (ArgArr 0) (ArgArr 1) (World [Arr3 Y; Arr2 X] [])
    = (w', inl (ValueError "could not broadcast input array")) ∧
    heap w' !! 0%nat = Some (Arr3 res) ∧
    (∀ j, (j < 2)%nat →
       slice_last j res
       = residuals (slice_last j Y) X
           (matmul (exact_pinv X) (slice_last j Y))) ∧
    heap w' !! 1%nat = Some (Arr2 X).
Proof.
  intros Y X.
  apply (multivariate_fit_needs_square exact_pinv exact_rank
           (World [Arr3 Y; Arr2 X] []) 0%nat 1%nat Y X 3 2 2 1);
    try lia; try done.
  - split; [done|]. repeat constructor.
  - by repeat constructor.
  - vm_compute. by repeat constructor.
Defined.

(** ** The mask and the kinds of mesh object *)

Lemma count_true_fmap_lt {A} (f : A → bool) (l : list A) (x : A) :
  x ∈ l → f x = false → (count_true (f <$> l) < length l)%nat.
Proof.
  intros Hx Hf. rewrite <-length_bool_index_fmap.
  induction l as [|y l IH]; [by apply elem_of_nil in Hx|].
  assert (∀ l' : list A, (length (bool_index (f <$> l') l') ≤ length l')%nat)
    as Hle.
  { induction l' as [|z l' IH']; [done|]. csimpl.
    destruct (f z); simpl; lia. }
  csimpl. apply elem_of_cons in Hx as [<-|Hx].
  - rewrite Hf. specialize (Hle l). simpl. lia.
  - specialize (IH Hx). destruct (f y); simpl; lia.
Qed.

Lemma length_mask_edges_lt (edges : list edge) (mask : list bool) (e : edge) :
  e ∈ edges → masked_out mask e.1 ∨ masked_out mask e.2 →
  (length (_mask_edges edges mask).1 < length edges)%nat.
Proof.
  intros He Hout. unfold _mask_edges. simpl.
  rewrite length_make_contiguous, <-list_fmap_compose.
  rewrite length_bool_index_fmap.
  apply (count_true_fmap_lt _ _ e); [done|]. simpl.
  rewrite <-!elem_of_missing in Hout.
  repeat case_bool_decide; simpl; tauto.
Qed.

(** X15. For an [SLM] object that holds its mesh only through [surf],
    [mesh_edges] calls itself on that surface without the mask: the result
    is the unmasked edge list. For a BrainSpace surface behind [surf] and a
    mask that drops an end of one of its edges, the call returns all the
    edges, where the call on the surface itself returns fewer. *)
Theorem mesh_edges_slm_surf_ignores_mask (s : surface) (mask : list bool) :
  mesh_edges (SLM None None (Some s)) (Some mask) = mesh_edges s None ∧
  (∀ edg e,
     s = BSPolyData edg → e ∈ edg →
     masked_out mask e.1 ∨ masked_out mask e.2 →
     mesh_edges (SLM None None (Some s)) (Some mask) = inr edg ∧
     ∃ edges, mesh_edges s (Some mask) = inr edges ∧
              (length edges < length edg)%nat).
Proof.
  split; [done|]. intros edg e -> He Hmasked. split; [done|].
  eexists. split; [done|]. by apply (length_mask_edges_lt _ _ e).
Qed.

Lemma mesh_edges_slm_surf_ignores_mask_witness :
  mesh_edges (SLM None None (Some (BSPolyData [(0, 1); (1, 2)])))
    (Some [true; true; false]) = inr [(0, 1); (1, 2)] ∧
  ∃ edges,
    mesh_edges (BSPolyData [(0, 1); (1, 2)]) (Some [true; true; false])
    = inr edges ∧
    (length edges < length [(0, 1); (1, 2)])%nat.
Proof.
  apply (proj2 (mesh_edges_slm_surf_ignores_mask
                  (BSPolyData [(0, 1); (1, 2)]) [true; true; false])
           [(0, 1); (1, 2)] (1, 2) eq_refl).
  - right. left.
  - right. split; [simpl; lia|reflexivity].
Defined.

Lemma masked_edges_bounds (edges : list edge) (mask : list bool) :
  valid_edges mask edges → (∀ e, e ∈ edges → e.1 < e.2) →
  (∀ e, e ∈ (_mask_edges edges mask).1 →
        0 ≤ e.1 ∧ e.1 < e.2 ∧ e.2 < Z.of_nat (count_true mask)) ∧
  length (_mask_edges edges mask).1 = length (surviving mask edges).
Proof.
  intros Hvalid Hlt.
  set (kept := surviving mask edges).
  assert (∀ e, e ∈ kept → mask_at mask e.1 ∧ mask_at mask e.2) as Hkept.
  { intros e He. by apply list_elem_of_filter in He as [? _]. }
  assert ((_mask_edges edges mask).1
          = (λ e, (renumber kept e.1, renumber kept e.2)) <$> kept) as Hout.
  { rewrite mask_edges_kept by done. apply make_contiguous_spec.
    intros e [[? _] [? _]]%Hkept. done. }
  assert (Z.of_nat (length (remove_dups (flatten_edges kept)))
          ≤ Z.of_nat (count_true mask)) as Hm.
  { apply inj_le, distinct_kept_vertices; [apply NoDup_remove_dups|].
    intros v Hv. rewrite elem_of_remove_dups in Hv.
    apply elem_of_flatten_edges in Hv as (e & He & [<-|<-]);
      by apply Hkept in He as [??]. }
  rewrite Hout. split; [|by rewrite length_fmap].
  intros e (e' & -> & He')%list_elem_of_fmap. simpl.
  pose proof (renumber_bound kept e'.1) as H1.
  pose proof (renumber_bound kept e'.2) as H2.
  rewrite elem_of_flatten_edges in H1, H2.
  assert (e'.1 < e'.2) as Hlt'.
  { apply Hlt. by apply list_elem_of_filter in He' as [_ ?]. }
  assert (renumber kept e'.1 < renumber kept e'.2).
  { apply renumber_lt; [|done]. apply elem_of_flatten_edges. eauto. }
  split; [destruct H1; eauto; lia|]. split; [done|].
  destruct H2; eauto; lia.
Qed.

Lemma lat_edges_range (lat : lattice) (edges : list edge) (e : edge) :
  lat_edges lat = inr edges → e ∈ edges →
  0 ≤ e.1 ∧ e.1 < e.2 ∧ e.2 < Z.of_nat (count_true (voxels lat)).
Proof.
  intros Hrun He.
  destruct (lat_dims lat) as [[[ni nj] nk]|] eqn:Hd.
  2:{ destruct (lat_edges_no_dims _ Hd) as [x Hx]. congruence. }
  destruct (decide (ni = 0 ∨ nj = 0 ∨ nk = 0)%nat) as [Hz|Hpos].
  { rewrite (lat_edges_zero _ _ _ _ _ Hd Hz Hrun) in He.
    by apply elem_of_nil in He. }
  destruct (lat_template_good ni nj nk) as (T & HT & Hgood); [lia..|].
  rewrite (lat_edges_template _ _ _ _ _ Hd HT Hgood) in Hrun.
  injection Hrun as <-.
  apply list_elem_of_fmap in He as (e' & -> & [Hk He']%list_elem_of_filter).
  apply keep_occupied in Hk as [H1 H2].
  rewrite Forall_forall in Hgood. destruct (Hgood e' He') as (? & ? & ?).
  assert (voxel_of e'.1 < voxel_of e'.2)%nat as Hlt by (unfold voxel_of; lia).
  pose proof (voxel_id_lt _ _ _ H1 Hlt).
  pose proof (voxel_id_bound _ _ H1). pose proof (voxel_id_bound _ _ H2).
  simpl. lia.
Qed.

(** X16. A lattice handed to [mesh_edges] in a dictionary, with a mask that
    has a flag for each occupied voxel: the mask is read by the compact
    numbers of the occupied voxels, not by positions in the lattice. The
    call returns the edges both of whose voxels the mask keeps, renumbered:
    as many rows as there are such edges, each with its smaller index
    first and both indices below the number of voxels the mask keeps. *)
Theorem mesh_edges_masked_lattice
    (d : gmap string pyobj) (lat : lattice) (edg : list edge)
    (mask : list bool) :
  d !! "tri" = None → d !! "lat" = Some (LatArray lat) →
  lat_edges lat = inr edg →
  (count_true (voxels lat) ≤ length mask)%nat →
  ∃ edges,
    mesh_edges (Dict d) (Some mask) = inr edges ∧
    length edges = length (surviving mask edg) ∧
    ∀ e, e ∈ edges →
      0 ≤ e.1 ∧ e.1 < e.2 ∧ e.2 < Z.of_nat (count_true mask).
Proof.
  intros Htri Hlat Hrun Hlen. eexists. split.
  { simpl. unfold dict_edges. rewrite Htri, Hlat, Hrun. done. }
  destruct (masked_edges_bounds edg mask) as [Hb Hl].
  - intros e He. pose proof (lat_edges_range _ _ _ Hrun He). lia.
  - intros e He. pose proof (lat_edges_range _ _ _ Hrun He). lia.
  - split; [done|]. exact Hb.
Qed.

Lemma mesh_edges_masked_lattice_witness :
  ∃ edges,
    mesh_edges (Dict {[ "lat" := LatArray
                          (Lattice [2; 2]%nat [true; true; false; true]) ]})
      (Some [true; false; true]) = inr edges ∧
    length edges
    = length (surviving [true; false; true] [(0, 1); (0, 2); (1, 2)]) ∧
    ∀ e, e ∈ edges →
      0 ≤ e.1 ∧ e.1 < e.2 ∧
      e.2 < Z.of_nat (count_true [true; false; true]).
Proof.
  apply (mesh_edges_masked_lattice
           {[ "lat" := LatArray (Lattice [2; 2]%nat [true; true; false; true]) ]}
           (Lattice [2; 2]%nat [true; true; false; true])
           [(0, 1); (0, 2); (1, 2)] [true; false; true]).
  - reflexivity.
  - reflexivity.
  - vm_compute. reflexivity.
  - vm_compute. lia.
Defined.

(** ** The multivariate fit of a square response *)

Lemma packed_row_double (a : nat) : (2 * (a * (a + 1) / 2) = a * (a + 1))%nat.
Proof.
  induction a as [|a IH]; [done|].
  replace (S a * (S a + 1))%nat with (a * (a + 1) + (S a) * 2)%nat by lia.
  rewrite Nat.div_add by done. lia.
Qed.

Lemma packed_row_lt (j1 j2 k : nat) :
  (j2 ≤ j1)%nat → (j1 < k)%nat → (packed_row j1 j2 < k * (k + 1) / 2)%nat.
Proof.
  intros. unfold packed_row.
  pose proof (packed_row_double j1). pose proof (packed_row_double k). nia.
Qed.

Lemma packed_row_inj (a b j1 j2 : nat) :
  (b ≤ a)%nat → (j2 ≤ j1)%nat →
  packed_row a b = packed_row j1 j2 → a = j1 ∧ b = j2.
Proof.
  intros ?? Heq. unfold packed_row in Heq.
  pose proof (packed_row_double a). pose proof (packed_row_double j1).
  assert (a = j1) by nia. subst. lia.
Qed.

Lemma assign_cols3_full p v k a val :
  rect3 p v k a → rect3 p v k val → (0 < p)%nat → (0 < v)%nat →
  assign_cols3 a 0 v val = inr val.
Proof.
  intros Ha Hval Hp Hv. unfold assign_cols3.
  rewrite (rect3_shape p v k val), (rect3_ncols p v k a), (proj1 Ha) by done.
  rewrite Nat.min_0_l, Nat.min_id, Nat.sub_0_r.
  assert (ncols (default [] (head a)) = k) as ->.
  { destruct Ha as [Hl Ha]. destruct a as [|m a]; simpl in *; [lia|].
    apply Forall_cons in Ha as [Hm _]. by apply (rect_ncols v k). }
  rewrite bool_decide_eq_true_2 by done. f_equal.
  destruct Ha as [Hla Ha], Hval as [Hlv Hval]. clear Hp. subst p.
  revert val Hlv Hval. induction a as [|row a IH]; intros [|vrow val] ? Hval;
    simplify_eq/=; [done|].
  apply Forall_cons in Ha as [[Hrow _] Ha].
  apply Forall_cons in Hval as [? Hval].
  rewrite drop_ge by lia. rewrite app_nil_r. f_equal. by apply IH.
Qed.

(** The second loop of the multivariate fit, for as many observations as
    vertices: no row index leaves the array, and the row of a pair holds
    the sums along the second axis. *)
Lemma multivariate_sse_loop w ly Y3 n k :
  (0 < n)%nat → rect3 n n k Y3 → heap w !! ly = Some (Arr3 Y3) →
  ∃ SSE j,
    runs (for_py (seq 0 k) (λ j1 st,
            for_py (seq 0 (j1 + 1)) (λ j2 '(SSE, j),
              Y3 ← load3 ly;
              SSE ← lift (prod ← broadcast2 qmul (slice_last j1 Y3)
                                    (slice_last j2 Y3);
                          assign_row j SSE (sum_axis1 prod));
              mret (SSE, S j)) st)
            (np_zeros (k * (k + 1) / 2) n, 0%nat)) w w (SSE, j) ∧
    rect (k * (k + 1) / 2) n SSE ∧
    ∀ j1 j2, (j2 ≤ j1)%nat → (j1 < k)%nat →
      SSE !! packed_row j1 j2
      = Some (sum_axis1 (zip_with (zip_with qmul)
                           (slice_last j1 Y3) (slice_last j2 Y3))).
Proof.
  intros Hn HY Hly.
  set (k2 := (k * (k + 1) / 2)%nat).
  set (row := λ j1 j2 : nat,
         sum_axis1 (zip_with (zip_with qmul)
                      (slice_last j1 Y3) (slice_last j2 Y3))).
  assert (∀ j1 j2, length (row j1 j2) = n) as Hrow.
  { intros j1 j2. unfold row.
    rewrite length_sum_axis1, length_zip_with.
    rewrite !(proj1 (rect_slice_last n n k _ Y3 HY)). lia. }
  set (Inv := λ (a c : nat) (w' : world) (st : matrix * nat),
         w' = w ∧ st.2 = packed_row a c ∧ rect k2 n st.1 ∧
         ∀ j1 j2, (j2 ≤ j1)%nat → (j1 < a ∨ j1 = a ∧ j2 < c)%nat →
           st.1 !! packed_row j1 j2 = Some (row j1 j2)).
  match goal with
  | |- context [for_py _ ?b _] => set (body := b)
  end.
  destruct (for_py_inv (λ pre, Inv (length pre) 0%nat) (seq 0 k) body
              (np_zeros k2 n, 0%nat) w) as (w' & [SSE j] & Hrun & Hfin).
  - split; [done|]. split; [done|]. split; [apply rect_replicate|].
    intros; simpl in *; lia.
  - intros pre j1 post w1 st Hseq Hinv.
    apply seq_split_at in Hseq as [-> Hj1].
    unfold body.
    match goal with
    | |- context [for_py _ ?b _] => set (inner := b)
    end.
    destruct (for_py_inv (λ pre2, Inv (length pre) (length pre2))
                (seq 0 (length pre + 1)) inner st w1)
      as (w2 & st2 & Hrun & Hfin); [done| |].
    + intros pre2 j2 post2 w2 [SSE j] Hseq2 (-> & Hj & HS & Hrows).
      apply seq_split_at in Hseq2 as [-> Hj2]. simpl in Hj, HS, Hrows.
      pose proof (packed_row_lt (length pre) (length pre2) k
                    ltac:(lia) Hj1) as Hlt.
      destruct (lookup_lt_is_Some_2 SSE j) as [r Hr];
        [rewrite (proj1 HS); fold k2 in Hlt; lia|].
      assert (length r = n) as Hlr.
      { destruct HS as [_ HS]. rewrite Forall_forall in HS.
        apply HS. by eapply list_elem_of_lookup_2. }
      eexists w, (_, _). split.
      * unfold inner. eapply runs_bind; [by apply runs_load3|].
        eapply runs_bind; [|apply runs_ret].
        apply runs_lift.
        rewrite (broadcast2_same _ n n);
          [|by apply (rect_slice_last n n k)..|done].
        simpl. unfold assign_row. rewrite Hr.
        fold (row (length pre) (length pre2)).
        rewrite Hrow, Hlr, bool_decide_eq_true_2 by auto.
        rewrite stretch_id by apply Hrow. done.
      * split; [done|]. simpl. rewrite length_app. simpl.
        split; [unfold packed_row in *; lia|]. split.
        { destruct HS as [HSl HS]. split; [by rewrite length_insert|].
          apply Forall_insert; [done|apply Hrow]. }
        intros a b Hba Hab.
        destruct (decide (a = length pre ∧ b = length pre2)) as [[-> ->]|Hne].
        -- rewrite <-Hj. apply list_lookup_insert_eq.
           rewrite (proj1 HS). fold k2 in Hlt. lia.
        -- rewrite list_lookup_insert_ne.
           ++ apply Hrows; [done|lia].
           ++ rewrite Hj. intros Heq.
              apply packed_row_inj in Heq; [|lia|lia]. lia.
    + destruct Hfin as (-> & Hj & HS & Hrows).
      exists w, st2. split; [done|].
      rewrite length_app, length_seq in *. simpl.
      split; [done|]. split.
      { rewrite Hj. unfold packed_row.
        pose proof (packed_row_double (length pre)).
        pose proof (packed_row_double (length pre + 1)). nia. }
      split; [done|]. intros a b Hba Hab. apply Hrows; [done|lia].
  - destruct Hfin as (-> & Hj & HS & Hrows). simpl in *.
    rewrite length_seq in *.
    exists SSE, j. split; [done|]. split; [done|].
    intros j1 j2 ??. apply Hrows; [done|lia].
Qed.

Section multivariate_square.
Context (pinv : matrix → matrix) (matrix_rank : matrix → Z).

(** One chunk of the multivariate fit for as many observations as
    vertices. *)
Lemma multivariate_runs slm w ly lx coefl ssel Y X P n k p :
  (0 < n)%nat → (0 < p)%nat → (0 < k)%nat →
  rect3 n n k Y → rect n p X → rect p n P →
  slm !! "V" = None →
  heap w !! ly = Some (Arr3 Y) → heap w !! lx = Some (Arr2 X) →
  heap w !! coefl = Some (Arr3 (np_zeros3 p n k)) →
  heap w !! ssel = Some (Arr2 (np_zeros (k * (k + 1) / 2) n)) →
  ly ≠ coefl →
  ∃ w' Y3 coef SSE,
    runs (multivariate slm p k lx P coefl ssel 0 n ly) w w' ly ∧
    heap w'
    = <[ssel := Arr2 SSE]>
        (<[coefl := Arr3 coef]> (<[ly := Arr3 Y3]> (heap w))) ∧
    stdout w' = stdout w ++ ["multivariate ..."] ∧
    rect (k * (k + 1) / 2) n SSE ∧
    (∀ j, (j < k)%nat →
       slice_last j coef = matmul P (slice_last j Y) ∧
       slice_last j Y3
       = residuals (slice_last j Y) X (matmul P (slice_last j Y))) ∧
    (∀ j1 j2, (j2 ≤ j1)%nat → (j1 < k)%nat →
       SSE !! packed_row j1 j2
       = Some (sum_axis1 (zip_with (zip_with qmul)
                            (slice_last j1 Y3) (slice_last j2 Y3)))).
Proof.
  intros Hn Hp Hk HY HX HP HV Hly Hlx Hcl Hsl Hne.
  assert (ly ≠ ssel) as Hne2 by (intros ->; congruence).
  assert (coefl ≠ ssel) as Hne3 by (intros ->; congruence).
  pose proof (lookup_lt_Some _ _ _ Hly) as Hlt.
  pose proof (lookup_lt_Some _ _ _ Hcl) as Hltc.
  destruct (multivariate_coef_loop
              (World (heap w) (stdout w ++ ["multivariate ..."]))
              ly lx Y X P n n k p)
    as (w1 & coef & Y3 & Hrun1 & Hheap1 & Hout1 & HY3 & Hcoef & Hres);
    [done..|].
  simpl in Hheap1, Hout1.
  destruct (multivariate_sse_loop w1 ly Y3 n k) as (SSE & j & Hrun2 & HS & Hrows);
    [done|done|by rewrite Hheap1; apply list_lookup_insert_eq|].
  assert (0 < k * (k + 1) / 2)%nat as Hk2
    by (apply Nat.div_str_pos; split; [lia|nia]).
  eexists _, Y3, coef, SSE. split; [|split; [|split; [|split; [done|by split]]]].
  - unfold multivariate.
    eapply runs_bind; [apply runs_print|]. rewrite HV. cbv zeta.
    eapply runs_bind; [by apply runs_load2|].
    rewrite Nat.sub_0_r.
    eapply runs_bind; [exact Hrun1|].
    eapply runs_bind; [exact Hrun2|]. cbv beta iota.
    eapply runs_bind.
    { apply runs_load3. rewrite Hheap1, list_lookup_insert_ne by done.
      exact Hcl. }
    eapply runs_bind.
    { apply runs_lift. apply (assign_cols3_full p n k); [|done..].
      apply rect3_zeros. }
    eapply runs_bind; [apply runs_store|].
    eapply runs_bind.
    { apply runs_load2. simpl. rewrite Hheap1.
      rewrite !list_lookup_insert_ne by done. exact Hsl. }
    eapply runs_bind.
    { apply runs_lift. apply (assign_cols_full (k * (k + 1) / 2) n);
        [apply rect_replicate|done..]. }
    eapply runs_bind; [apply runs_store|]. apply runs_ret.
  - simpl. by rewrite Hheap1.
  - simpl. done.
Qed.

(** X17. A response with several components per vertex and as many
    observations as vertices (n x n x k, k > 1) is fitted: the call
    returns, and on return the coefficients of component j are
    pinv(X) . Y[:, :, j], the caller's response holds the residuals in
    place of Y, and SSE has k (k + 1) / 2 rows of n entries. The row of the
    pair (j1, j2), j2 <= j1, is row j1 (j1 + 1) / 2 + j2; its entry i is the
    sum over the vertices of the products of the residuals of observation i
    in components j1 and j2. *)
Theorem multivariate_square_fit
    (w : world) (ly lx : loc) (Y : list matrix) (X : matrix) (n k p : nat) :
  (1 < k)%nat → (0 < n)%nat → (0 < p)%nat →
  rect3 n n k Y → rect n p X → rect p n (pinv X) →
  heap w !! ly = Some (Arr3 Y) → heap w !! lx = Some (Arr2 X) →
  ∃ w' slm res coef sse,
    py_SurfStatLinMod pinv matrix_rank (ArgArr ly) (ArgArr lx) w
    = (w', inr slm) ∧
    heap w' !! ly = Some (Arr3 res) ∧
    slm_array w' slm "coef" = Some (Arr3 coef) ∧
    slm_array w' slm "SSE" = Some (Arr2 sse) ∧
    rect (k * (k + 1) / 2) n sse ∧
    (∀ j, (j < k)%nat →
       slice_last j coef = matmul (pinv X) (slice_last j Y) ∧
       slice_last j res
       = residuals (slice_last j Y) X (matmul (pinv X) (slice_last j Y))) ∧
    (∀ j1 j2, (j2 ≤ j1)%nat → (j1 < k)%nat →
       sse !! packed_row j1 j2
       = Some (sum_axis1 (zip_with (zip_with qmul)
                            (slice_last j1 res) (slice_last j2 res)))).
Proof.
  intros Hk Hn Hp HY HX HP Hly Hlx.
  pose proof (lookup_lt_Some _ _ _ Hly) as Hlt.
  destruct (bind_M_design pinv w lx X n n p) as (r & Hbind); [by auto..|].
  set (out := if mean_exceeds_spacing (np_square r) then stdout w ++ [warning]
              else stdout w).
  set (slm := slm_result lx (Z.of_nat n - matrix_rank X)
                (length (heap w)) (S (length (heap w)))).
  destruct (multivariate_runs slm
              (World (heap w ++ [Arr3 (np_zeros3 p n k);
                                 Arr2 (np_zeros (k * (k + 1) / 2) n)]) out)
              ly lx (length (heap w)) (S (length (heap w))) Y X (pinv X)
              n k p)
    as (w' & Y3 & coef & SSE & Hrun & Hheap & _ & HS & Hfit & Hrows);
    try done; try lia.
  { simpl. rewrite lookup_app_l; [done|by eapply lookup_lt_Some]. }
  { simpl. rewrite lookup_app_l; [done|by eapply lookup_lt_Some]. }
  { simpl. by rewrite lookup_app_r, Nat.sub_diag by done. }
  { simpl. rewrite lookup_app_r by lia.
    by replace (S (length (heap w)) - length (heap w))%nat with 1%nat by lia. }
  simpl in Hheap.
  exists w', slm, Y3, coef, SSE.
  split; [|split; [|split; [|split; [|split; [done|by split]]]]].
  - change (runs (py_SurfStatLinMod pinv matrix_rank (ArgArr ly) (ArgArr lx))
              w w' slm).
    unfold py_SurfStatLinMod.
    eapply runs_bind.
    { unfold bind_Y. eapply runs_bind; [by apply runs_load|]. apply runs_ret. }
    rewrite (rect3_shape n n k) by done.
    eapply runs_bind; [exact Hbind|]. cbv zeta.
    eapply runs_bind.
    { instantiate (1 := ()). instantiate (1 := World (heap w) out). unfold out.
      destruct (mean_exceeds_spacing (np_square r)); [done|by destruct w]. }
    eapply runs_bind; [by apply runs_load2|].
    rewrite (rect_ncols n p X) by done.
    rewrite !(decide_False (P := k = 1%nat)) by lia.
    eapply runs_bind; [apply runs_alloc|].
    eapply runs_bind; [apply runs_alloc|].
    cbn [heap stdout]. rewrite length_app, Nat.add_1_r, <-app_assoc.
    cbn [length app]. fold slm.
    eapply runs_bind; [|apply runs_ret].
    change (seq 0 1) with [0%nat]. cbn [for_py].
    eapply runs_bind; [|apply runs_ret].
    rewrite !(decide_False (P := k = 1%nat)) by lia.
    rewrite Nat.mul_0_l, Nat.add_0_l, Nat.min_id.
    exact Hrun.
  - rewrite Hheap. rewrite !list_lookup_insert_ne by lia.
    apply list_lookup_insert_eq. rewrite length_app. lia.
  - unfold slm_array, slm, slm_result.
    rewrite lookup_insert_ne by done. rewrite lookup_insert_eq.
    rewrite Hheap. rewrite list_lookup_insert_ne by lia.
    apply list_lookup_insert_eq.
    rewrite length_insert, length_app. simpl. lia.
  - unfold slm_array, slm, slm_result. rewrite lookup_insert_eq.
    rewrite Hheap. apply list_lookup_insert_eq.
    rewrite !length_insert, length_app. simpl. lia.
Qed.

End multivariate_square.

Lemma multivariate_square_fit_witness :
  let Y := [[[1; 0]; [2; 0]]; [[3; 0]; [5; 0]]]%Q in
  let X := [[1]; [1]]%Q in
  ∃ w' slm res coef sse,
    fit (ArgArr 0) (ArgArr 1) (World [Arr3 Y; Arr2 X] []) = (w', inr slm) ∧
    heap w' !! 0%nat = Some (Arr3 res) ∧
    slm_array w' slm "coef" = Some (Arr3 coef) ∧
    slm_array w' slm "SSE" = Some (Arr2 sse) ∧
    rect (2 * (2 + 1) / 2) 2 sse ∧
    (∀ j, (j < 2)%nat →
       slice_last j coef = matmul (exact_pinv X) (slice_last j Y) ∧
       slice_last j res
       = residuals (slice_last j Y) X
           (matmul (exact_pinv X) (slice_last j Y))) ∧
    (∀ j1 j2, (j2 ≤ j1)%nat → (j1 < 2)%nat →
       sse !! packed_row j1 j2
       = Some (sum_axis1 (zip_with (zip_with qmul)
                            (slice_last j1 res) (slice_last j2 res)))).
Proof.
  intros Y X.
  apply (multivariate_square_fit exact_pinv exact_rank
           (World [Arr3 Y; Arr2 X] []) 0%nat 1%nat Y X 2 2 1);
    try lia; try done.
  - split; [done|]. repeat constructor.
  - by repeat constructor.
  - vm_compute. by repeat constructor.
Defined.

(** ** [mesh_average] with [np.fmin] and [np.fmax] *)

Lemma np_fmin_spec (a b : Q) :
  (np_fmin a b = a ∨ np_fmin a b = b) ∧
  (np_fmin a b <= a)%Q ∧ (np_fmin a b <= b)%Q.
Proof.
  unfold np_fmin. destruct (Qle_bool a b) eqn:E.
  - apply Qle_bool_iff in E. split; [by left|]. split; [apply Qle_refl|done].
  - assert (¬ (a <= b)%Q) as Hn by (rewrite <-Qle_bool_iff; congruence).
    apply Qnot_le_lt, Qlt_le_weak in Hn.
    split; [by right|]. split; [done|apply Qle_refl].
Qed.

Lemma np_fmax_spec (a b : Q) :
  (np_fmax a b = a ∨ np_fmax a b = b) ∧
  (a <= np_fmax a b)%Q ∧ (b <= np_fmax a b)%Q.
Proof.
  unfold np_fmax. destruct (Qle_bool a b) eqn:E.
  - apply Qle_bool_iff in E. split; [by right|]. split; [done|apply Qle_refl].
  - assert (¬ (a <= b)%Q) as Hn by (rewrite <-Qle_bool_iff; congruence).
    apply Qnot_le_lt, Qlt_le_weak in Hn.
    split; [by left|]. split; [apply Qle_refl|done].
Qed.

Lemma foldl_fmin_least (a : Q) (l : list Q) : least (foldl np_fmin a l) (a :: l).
Proof.
  revert a. induction l as [|b l IH]; intros a; simpl.
  - split; [exists a; split; [left|reflexivity]|].
    intros y ->%list_elem_of_singleton. apply Qle_refl.
  - destruct (IH (np_fmin a b)) as [(y & Hy & Heq) Hle].
    destruct (np_fmin_spec a b) as (Hsel & Ha & Hb). split.
    + apply elem_of_cons in Hy as [->|Hy].
      * destruct Hsel as [Hs|Hs].
        -- exists a. split; [left|]. rewrite Heq, Hs. reflexivity.
        -- exists b. split; [right; left|]. rewrite Heq, Hs. reflexivity.
      * exists y. split; [by do 2 right|done].
    + intros z Hz.
      assert ((foldl np_fmin (np_fmin a b) l <= np_fmin a b)%Q) as H0
        by (apply Hle; left).
      apply elem_of_cons in Hz as [->|Hz]; [by eapply Qle_trans|].
      apply elem_of_cons in Hz as [->|Hz]; [by eapply Qle_trans|].
      apply Hle. by right.
Qed.

Lemma foldl_fmax_greatest (a : Q) (l : list Q) :
  greatest (foldl np_fmax a l) (a :: l).
Proof.
  revert a. induction l as [|b l IH]; intros a; simpl.
  - split; [exists a; split; [left|reflexivity]|].
    intros y ->%list_elem_of_singleton. apply Qle_refl.
  - destruct (IH (np_fmax a b)) as [(y & Hy & Heq) Hle].
    destruct (np_fmax_spec a b) as (Hsel & Ha & Hb). split.
    + apply elem_of_cons in Hy as [->|Hy].
      * destruct Hsel as [Hs|Hs].
        -- exists a. split; [left|]. rewrite Heq, Hs. reflexivity.
        -- exists b. split; [right; left|]. rewrite Heq, Hs. reflexivity.
      * exists y. split; [by do 2 right|done].
    + intros z Hz.
      assert ((np_fmax a b <= foldl np_fmax (np_fmax a b) l)%Q) as H0
        by (apply Hle; left).
      apply elem_of_cons in Hz as [->|Hz]; [by eapply Qle_trans|].
      apply elem_of_cons in Hz as [->|Hz]; [by eapply Qle_trans|].
      apply Hle. by right.
Qed.

Lemma coordinate_foldl (f : Q → Q → Q) (i : nat) (a : point3)
    (l : list point3) :
  coordinate i (foldl (point_map2 f) a l)
  = foldl f (coordinate i a) (coordinate i <$> l).
Proof.
  revert a. induction l as [|b l IH]; intros a; [done|]. simpl.
  rewrite IH. f_equal. by destruct i as [|[|i]].
Qed.

Lemma qdiv_1 (x : Q) : Qeq (qdiv x 1) x.
Proof. unfold qdiv. rewrite Qred_correct. field. Qed.

Section mesh_average_fold.
Context (read_surface : string → exn + polydata).

(** The loop over [i] after its first round, for a function that leaves
    [m] at 1. *)
Lemma average_tail_fold (f : Q → Q → Q) (rows : list (list mesh_ref))
    (C : list (list point3)) (N k : nat) bound (coord_all : list point3) :
  f 1%Q 1%Q = 1%Q →
  Forall2 (λ row c, ∃ tri, row_loop read_surface None row
                           = inr (Some (tri, c))) rows C →
  Forall (λ c, length c = N) C → length coord_all = N → (0 < k)%nat →
  is_Some bound →
  ∃ bound' coord_all',
    for_each (zip (seq k (length rows)) rows)
      (average_step read_surface f) (bound, Some (1%Q, coord_all))
    = inr (bound', Some (1%Q, coord_all')) ∧
    is_Some bound' ∧
    length coord_all' = N ∧
    ∀ p, (p < N)%nat →
      point_at coord_all' p
      = foldl (point_map2 f) (point_at coord_all p)
          ((λ c, point_at c p) <$> C).
Proof.
  intros Hf Hrows. revert k bound coord_all.
  induction Hrows as [|row c rows C [tri Hrow] _ IH];
    intros k bound coord_all HC Hlen Hk Hb.
  - exists bound, coord_all. done.
  - apply Forall_cons in HC as [Hc HC].
    change (zip (seq k (length (row :: rows))) (row :: rows))
      with ((k, row) :: zip (seq (S k) (length rows)) rows).
    cbn [for_each].
    rewrite (average_step_next read_surface f k row tri c bound 1 coord_all
               (zip_with (point_map2 f) coord_all c));
      [|done|by apply row_loop_bound|apply fun_arrays_same; lia].
    simpl. rewrite Hf.
    destruct (IH (S k) (Some (tri, c)) (zip_with (point_map2 f) coord_all c))
      as (bound' & call' & Hrun & Hb' & Hl & Hfold);
      [done|rewrite length_zip_with; lia|lia|done|].
    exists bound', call'. split; [done|]. split; [done|]. split; [done|].
    intros p Hp. rewrite (Hfold p Hp). simpl.
    by rewrite point_at_zip_with by lia.
Qed.

(** The call for a function that leaves [m] at 1. *)
Lemma mesh_average_fold (f : Q → Q → Q) (rows : list (list mesh_ref))
    (c : list point3) (C : list (list point3)) (N : nat) :
  f 1%Q 1%Q = 1%Q →
  Forall2 (λ row c, ∃ tri, row_loop read_surface None row
                           = inr (Some (tri, c))) rows (c :: C) →
  Forall (λ c, length c = N) (c :: C) →
  ∃ tri coord,
    mesh_average read_surface f (NameArray 2 rows) false
      = inr (OutPolyData (PolyData tri coord)) ∧
    length coord = N ∧
    ∀ p i, (p < N)%nat →
      Qeq (coordinate i (point_at coord p))
          (foldl f (coordinate i (point_at c p))
             ((λ c, coordinate i (point_at c p)) <$> C)).
Proof.
  intros Hf Hrows HC.
  apply Forall2_cons_inv_r in Hrows as (row & rows' & [tri Hrow] & Hrows & ->).
  apply Forall_cons in HC as [Hc HC].
  destruct (average_tail_fold f rows' C N 1 (Some (tri, c)) c)
    as (bound' & call' & Hrun & [[tri' c'] ->] & Hl & Hfold); [done..|lia|done|].
  exists tri', ((λ p : point3, (qdiv p.1.1 1, qdiv p.1.2 1, qdiv p.2 1))
                  <$> call').
  split; [|split].
  - unfold mesh_average. simpl names_ndim. simpl names_rows.
    rewrite decide_False by (intros ?; done).
    rewrite enumerate_cons. cbn [for_each].
    rewrite (average_step_first read_surface f row tri c) by done. simpl.
    rewrite Hrun. done.
  - by rewrite length_fmap.
  - intros p i Hp.
    assert (point_at ((λ p : point3, (qdiv p.1.1 1, qdiv p.1.2 1, qdiv p.2 1))
                        <$> call') p
            = (qdiv (point_at call' p).1.1 1, qdiv (point_at call' p).1.2 1,
               qdiv (point_at call' p).2 1)) as ->.
    { unfold point_at. rewrite list_lookup_fmap.
      destruct (lookup_lt_is_Some_2 call' p ltac:(lia)) as [x ->]. done. }
    assert (Qeq (coordinate i (qdiv (point_at call' p).1.1 1,
                               qdiv (point_at call' p).1.2 1,
                               qdiv (point_at call' p).2 1))
                (coordinate i (point_at call' p))) as ->.
    { destruct i as [|[|i]]; simpl; apply qdiv_1. }
    rewrite (Hfold p Hp), coordinate_foldl, <-list_fmap_compose. reflexivity.
Qed.

(** X18. With [np.fmin] (with [np.fmax]) and rows that yield the same
    number of points, [mesh_average] returns, and every coordinate of every
    point of the result is the least (the greatest) of that coordinate of
    that point over the rows: [m] stays 1, so nothing is divided away. *)
Theorem mesh_average_min_max (rows : list (list mesh_ref))
    (C : list (list point3)) (N : nat) :
  rows ≠ [] →
  Forall2 (λ row c, ∃ tri, row_loop read_surface None row
                           = inr (Some (tri, c))) rows C →
  Forall (λ c, length c = N) C →
  (∃ tri coord,
     mesh_average read_surface np_fmin (NameArray 2 rows) false
       = inr (OutPolyData (PolyData tri coord)) ∧
     length coord = N ∧
     ∀ p i, (p < N)%nat →
       least (coordinate i (point_at coord p))
         ((λ c, coordinate i (point_at c p)) <$> C)) ∧
  (∃ tri coord,
     mesh_average read_surface np_fmax (NameArray 2 rows) false
       = inr (OutPolyData (PolyData tri coord)) ∧
     length coord = N ∧
     ∀ p i, (p < N)%nat →
       greatest (coordinate i (point_at coord p))
         ((λ c, coordinate i (point_at c p)) <$> C)).
Proof.
  intros Hne Hrows HC.
  destruct C as [|c C]; [by apply Forall2_nil_inv_r in Hrows|].
  split.
  - destruct (mesh_average_fold np_fmin rows c C N) as (tri & coord & Hrun & Hl & Hco);
      [done..|].
    exists tri, coord. split; [done|]. split; [done|]. intros p i Hp.
    specialize (Hco p i Hp). rewrite fmap_cons.
    destruct (foldl_fmin_least (coordinate i (point_at c p))
                ((λ c, coordinate i (point_at c p)) <$> C))
      as [(y & Hy & Heq) Hle].
    split.
    + exists y. split; [done|]. by rewrite Hco.
    + intros z Hz. rewrite Hco. by apply Hle.
  - destruct (mesh_average_fold np_fmax rows c C N) as (tri & coord & Hrun & Hl & Hco);
      [done..|].
    exists tri, coord. split; [done|]. split; [done|]. intros p i Hp.
    specialize (Hco p i Hp). rewrite fmap_cons.
    destruct (foldl_fmax_greatest (coordinate i (point_at c p))
                ((λ c, coordinate i (point_at c p)) <$> C))
      as [(y & Hy & Heq) Hle].
    split.
    + exists y. split; [done|]. by rewrite Hco.
    + intros z Hz. rewrite Hco. by apply Hle.
Qed.

End mesh_average_fold.

Lemma mesh_average_min_max_witness :
  let no_file := λ _ : string, inl (ValueError "no such file") in
  let a := PolyData [(0, 1, 2)] [(0, 0, 0); (1, 0, 0); (0, 1, 0)]%Q in
  let b := PolyData [(0, 2, 1)] [(2, 0, 0); (1, 4, 0); (0, 1, 6)]%Q in
  (∃ tri coord,
     mesh_average no_file np_fmin (NameArray 2 [[Surface a]; [Surface b]]) false
       = inr (OutPolyData (PolyData tri coord)) ∧
     length coord = 3%nat ∧
     ∀ p i, (p < 3)%nat →
       least (coordinate i (point_at coord p))
         ((λ c, coordinate i (point_at c p))
            <$> [get_points a; get_points b])) ∧
  (∃ tri coord,
     mesh_average no_file np_fmax (NameArray 2 [[Surface a]; [Surface b]]) false
       = inr (OutPolyData (PolyData tri coord)) ∧
     length coord = 3%nat ∧
     ∀ p i, (p < 3)%nat →
       greatest (coordinate i (point_at coord p))
         ((λ c, coordinate i (point_at c p))
            <$> [get_points a; get_points b])).
Proof.
  intros no_file a b.
  apply (mesh_average_min_max no_file [[Surface a]; [Surface b]]
           [get_points a; get_points b] 3).
  - done.
  - repeat constructor; by eexists.
  - by repeat constructor.
Defined.

(** ** The lattice branch: every block stays in the template *)

Lemma assign_rows_lookup (T : list edge) (start n : Z) (val : list edge) :
  0 ≤ start → 0 ≤ n → length val = Z.to_nat n →
  (Z.to_nat start + Z.to_nat n ≤ length T)%nat →
  ∃ T', assign_rows start n val T = inr T' ∧ length T' = length T ∧
        ∀ r, T' !! r
             = if decide (Z.to_nat start ≤ r < Z.to_nat start + Z.to_nat n)%nat
               then val !! (r - Z.to_nat start)%nat else T !! r.
Proof.
  intros Hs Hn Hval Hfit. unfold assign_rows.
  assert (length (vadd (np_arange 0 n) start) = Z.to_nat n) as Hidx.
  { unfold vadd, np_arange. rewrite !length_fmap, length_seq. f_equal. lia. }
  rewrite Hidx, decide_True by done.
  rewrite (mapM_inr _ Z.to_nat); last first.
  { intros i. unfold vadd, np_arange. rewrite <-list_fmap_compose.
    intros (t & -> & [_ Ht]%elem_of_seq)%list_elem_of_fmap. simpl.
    apply py_index_in_range. lia. }
  simpl. eexists. split; [done|].
  assert (Z.to_nat <$> vadd (np_arange 0 n) start
          = seq (Z.to_nat start) (length val)) as ->.
  { unfold vadd, np_arange. rewrite <-!list_fmap_compose.
    rewrite (seq_add_fmap (Z.to_nat start)), Hval.
    replace (Z.to_nat (n - 0)) with (Z.to_nat n) by lia.
    apply list_fmap_ext. intros _ t _. simpl. lia. }
  split.
  - apply (foldl_insert_lookup T (Z.to_nat start) val 0). lia.
  - intros r.
    destruct (foldl_insert_lookup T (Z.to_nat start) val r) as [_ ->]; [lia|].
    rewrite Hval. done.
Qed.

(** Rows written earlier, at positions [W], survive an assignment to other
    positions; the rows assigned are there afterwards. *)
Lemma assign_rows_covers (S : edge → Prop) (W : nat → Prop)
    (T : list edge) (start n : Z) (val : list edge) :
  0 ≤ start → 0 ≤ n → length val = Z.to_nat n →
  (Z.to_nat start + Z.to_nat n ≤ length T)%nat →
  (∀ r, W r → ¬ (Z.to_nat start ≤ r < Z.to_nat start + Z.to_nat n)%nat) →
  (∀ e, S e → ∃ r, W r ∧ T !! r = Some e) →
  ∃ T', assign_rows start n val T = inr T' ∧ length T' = length T ∧
        ∀ e, S e ∨ e ∈ val →
          ∃ r, (W r ∨ (Z.to_nat start ≤ r < Z.to_nat start + Z.to_nat n)%nat)
               ∧ T' !! r = Some e.
Proof.
  intros Hs Hn Hval Hfit Hdisj Hcov.
  destruct (assign_rows_lookup T start n val) as (T' & HT' & Hl & Hlook);
    [done..|].
  exists T'. split; [done|]. split; [done|].
  intros e [He|He].
  - destruct (Hcov e He) as (r & Hr & HTr). exists r. split; [by left|].
    rewrite Hlook. by rewrite decide_False by by apply Hdisj.
  - apply list_elem_of_lookup in He as [t Ht].
    pose proof (lookup_lt_Some _ _ _ Ht) as Hlt.
    exists (Z.to_nat start + t)%nat. split; [right; lia|].
    rewrite Hlook, decide_True by lia.
    by replace (Z.to_nat start + t - Z.to_nat start)%nat with t by lia.
Qed.

Lemma NoDup_colon_2 (s e : Z) : NoDup (colon s e 2).
Proof.
  unfold colon. apply NoDup_fmap_2; [|apply NoDup_seq].
  intros a b ?. lia.
Qed.

Section cover.
Context (nI nJ nK : nat).
Context (HI : (0 < nI)%nat) (HJ : (0 < nJ)%nat) (HK : (0 < nK)%nat).

Let N1 := n1 (Z.of_nat nI) (Z.of_nat nJ).
Let N2 := n2 (Z.of_nat nI) (Z.of_nat nJ).
Let IJ := Z.of_nat nI * Z.of_nat nJ.
Let size := (Z.of_nat nK - 1) * N1 + N2.

Lemma fill_blocks_covers (block : list edge) (ks : list Z)
    (S : edge → Prop) (W : nat → Prop) (T : list edge) :
  length block = Z.to_nat N1 → NoDup ks →
  (∀ k, k ∈ ks → 1 ≤ k ≤ Z.of_nat nK - 1) →
  length T = Z.to_nat size →
  (∀ r, W r → ∀ k, k ∈ ks → ¬ ((k - 1) * N1 ≤ Z.of_nat r < k * N1)) →
  (∀ e, S e → ∃ r, W r ∧ T !! r = Some e) →
  ∃ T',
    for_each ks (λ k edg,
      assign_rows ((k - 1) * N1) N1 (eadd block ((k - 1) * IJ)) edg) T
    = inr T' ∧
    length T' = Z.to_nat size ∧
    ∀ e, S e ∨ (∃ k, k ∈ ks ∧ e ∈ eadd block ((k - 1) * IJ)) →
      ∃ r, (W r ∨ ∃ k, k ∈ ks ∧ (k - 1) * N1 ≤ Z.of_nat r < k * N1)
           ∧ T' !! r = Some e.
Proof.
  intros Hlen. revert S W T.
  induction ks as [|k ks IH]; intros S W T Hnd Hks HT Hdisj Hcov.
  - exists T. split; [done|]. split; [done|].
    intros e [He|(k & []%elem_of_nil & _)].
    destruct (Hcov e He) as (r & ? & ?). exists r. split; [by left|done].
  - pose proof (N1_pos nI nJ nK HI HJ HK) as HN1.
    pose proof (N2_nonneg nI nJ nK HI HJ HK) as HN2. fold N1 in HN1. fold N2 in HN2.
    apply NoDup_cons in Hnd as [Hk_notin Hnd].
    assert (1 ≤ k ≤ Z.of_nat nK - 1) as Hk by (apply Hks; left).
    destruct (assign_rows_covers S W T ((k - 1) * N1) N1
                (eadd block ((k - 1) * IJ))) as (T1 & HT1 & Hl1 & Hcov1).
    + nia.
    + lia.
    + by rewrite length_eadd.
    + rewrite HT. unfold size. nia.
    + intros r Hr Hin. apply (Hdisj r Hr k); [left|]. nia.
    + done.
    + destruct (IH (λ e, S e ∨ e ∈ eadd block ((k - 1) * IJ))
                  (λ r, W r ∨ (Z.to_nat ((k - 1) * N1) ≤ r
                               < Z.to_nat ((k - 1) * N1) + Z.to_nat N1)%nat) T1)
        as (T' & HT' & Hl' & Hcov'); [done| |congruence| |done|].
      * intros; apply Hks; by right.
      * intros r [Hr|Hr] k' Hk'.
        -- apply Hdisj; [done|by right].
        -- assert (k' ≠ k) by (intros ->; done).
           assert (1 ≤ k' ≤ Z.of_nat nK - 1) by (apply Hks; by right).
           nia.
      * exists T'. simpl. rewrite HT1. simpl. split; [done|]. split; [done|].
        intros e He.
        destruct (Hcov' e) as (r & Hr & HTr).
        { destruct He as [?|(k' & [->|?]%elem_of_cons & He)];
            [by left; left|by left; right|right; eauto]. }
        exists r. split; [|done].
        destruct Hr as [[?|?]|(k' & ? & ?)].
        -- by left.
        -- right. exists k. split; [left|nia].
        -- right. exists k'. split; [by right|done].
Qed.

Lemma elem_of_block f k (a b : list edge) e :
  e ∈ eadd (edg0 (Z.of_nat nI) (Z.of_nat nJ) f ++ a ++ b ++ [(IJ, 2 * IJ)])
           ((k - 1) * IJ) ↔
  e ∈ eadd (edg0 (Z.of_nat nI) (Z.of_nat nJ) f) ((k - 1) * IJ) ∨
  e ∈ eadd a ((k - 1) * IJ) ∨ e ∈ eadd b ((k - 1) * IJ) ∨
  e = (IJ + (k - 1) * IJ, 2 * IJ + (k - 1) * IJ).
Proof.
  unfold eadd. rewrite !fmap_app, !elem_of_app. simpl.
  rewrite list_elem_of_singleton. tauto.
Qed.

Lemma template_step_covers (f : Z) (S : edge → Prop) (W : nat → Prop)
    (T : list edge) :
  f = 0 ∨ f = 1 →
  length T = Z.to_nat size →
  (∀ r, W r →
     (∀ k, k ∈ colon (1 + f) (Z.of_nat nK - 1) 2 →
           ¬ ((k - 1) * N1 ≤ Z.of_nat r < k * N1)) ∧
     ((Z.of_nat nK + 1) `mod` 2 = f →
      ¬ ((Z.of_nat nK - 1) * N1 ≤ Z.of_nat r))) →
  (∀ e, S e → ∃ r, W r ∧ T !! r = Some e) →
  ∃ T',
    template_step (Z.of_nat nI) (Z.of_nat nJ) (Z.of_nat nK) f T = inr T' ∧
    length T' = Z.to_nat size ∧
    ∀ e,
      S e ∨
      (∃ k, k ∈ colon (1 + f) (Z.of_nat nK - 1) 2 ∧
            (e ∈ eadd (edg0 (Z.of_nat nI) (Z.of_nat nJ) f) ((k - 1) * IJ) ∨
             e ∈ eadd (edg1 (Z.of_nat nI) (Z.of_nat nJ) f) ((k - 1) * IJ) ∨
             e ∈ eadd (edg2 (Z.of_nat nI) (Z.of_nat nJ) f) ((k - 1) * IJ) ∨
             e = (IJ + (k - 1) * IJ, 2 * IJ + (k - 1) * IJ))) ∨
      ((Z.of_nat nK + 1) `mod` 2 = f ∧
       e ∈ eadd (edg0 (Z.of_nat nI) (Z.of_nat nJ) f)
                ((Z.of_nat nK - 1) * IJ)) →
      ∃ r,
        (W r ∨
         (∃ k, k ∈ colon (1 + f) (Z.of_nat nK - 1) 2 ∧
               (k - 1) * N1 ≤ Z.of_nat r < k * N1) ∨
         ((Z.of_nat nK + 1) `mod` 2 = f ∧
          (Z.of_nat nK - 1) * N1 ≤ Z.of_nat r)) ∧
        T' !! r = Some e.
Proof.
  intros Hf HT Hdisj Hcov.
  pose proof (N1_pos nI nJ nK HI HJ HK) as HN1.
  pose proof (N2_nonneg nI nJ nK HI HJ HK) as HN2.
  pose proof (length_edg0 nI nJ HI HJ f Hf) as Hl0.
  pose proof (length_edg1_edg2 nI nJ HI HJ f Hf) as Hl12.
  fold N1 in Hl12, HN1. fold N2 in Hl0, HN2.
  set (S1 := λ e, S e ∨
    ∃ k, k ∈ colon (1 + f) (Z.of_nat nK - 1) 2 ∧
         (e ∈ eadd (edg0 (Z.of_nat nI) (Z.of_nat nJ) f) ((k - 1) * IJ) ∨
          e ∈ eadd (edg1 (Z.of_nat nI) (Z.of_nat nJ) f) ((k - 1) * IJ) ∨
          e ∈ eadd (edg2 (Z.of_nat nI) (Z.of_nat nJ) f) ((k - 1) * IJ) ∨
          e = (IJ + (k - 1) * IJ, 2 * IJ + (k - 1) * IJ))).
  set (W1 := λ r, W r ∨ ∃ k, k ∈ colon (1 + f) (Z.of_nat nK - 1) 2 ∧
                              (k - 1) * N1 ≤ Z.of_nat r < k * N1).
  assert (∃ T1,
    (if decide (f ≠ 0) then
       for_each (colon 2 (Z.of_nat nK - 1) 2) (λ k edg,
         assign_rows ((k - 1) * N1) N1
           (eadd (edg0 (Z.of_nat nI) (Z.of_nat nJ) f
                  ++ edg2 (Z.of_nat nI) (Z.of_nat nJ) f
                  ++ edg1 (Z.of_nat nI) (Z.of_nat nJ) f ++ [(IJ, 2 * IJ)])
                 ((k - 1) * IJ)) edg) T
     else
       for_each (colon 1 (Z.of_nat nK - 1) 2) (λ k edg,
         assign_rows ((k - 1) * N1) N1
           (eadd (edg0 (Z.of_nat nI) (Z.of_nat nJ) f
                  ++ edg1 (Z.of_nat nI) (Z.of_nat nJ) f
                  ++ edg2 (Z.of_nat nI) (Z.of_nat nJ) f ++ [(IJ, 2 * IJ)])
                 ((k - 1) * IJ)) edg) T) = inr T1 ∧
    length T1 = Z.to_nat size ∧
    ∀ e, S1 e → ∃ r, W1 r ∧ T1 !! r = Some e) as (T1 & HT1 & Hlen1 & Hcov1).
  { destruct Hf as [-> | ->].
    - destruct (decide ((0:Z) ≠ 0)) as [?|_]; [done|].
      edestruct (fill_blocks_covers
                  (edg0 (Z.of_nat nI) (Z.of_nat nJ) 0
                   ++ edg1 (Z.of_nat nI) (Z.of_nat nJ) 0
                   ++ edg2 (Z.of_nat nI) (Z.of_nat nJ) 0 ++ [(IJ, 2 * IJ)])
                  (colon 1 (Z.of_nat nK - 1) 2) S W T)
        as (T1 & HT1 & Hl1 & Hc1);
        [rewrite !length_app; simpl; lia|apply NoDup_colon_2| |done| |done|].
      + intros k Hk%elem_of_colon_2. lia.
      + intros r Hr k Hk. by apply (proj1 (Hdisj r Hr)).
      + exists T1. split; [done|]. split; [done|].
        intros e He. apply Hc1. destruct He as [?|(k & Hk & He)]; [by left|].
        right. exists k. split; [done|]. apply elem_of_block. tauto.
    - destruct (decide ((1:Z) ≠ 0)) as [_|[]]; [|done].
      edestruct (fill_blocks_covers
                  (edg0 (Z.of_nat nI) (Z.of_nat nJ) 1
                   ++ edg2 (Z.of_nat nI) (Z.of_nat nJ) 1
                   ++ edg1 (Z.of_nat nI) (Z.of_nat nJ) 1 ++ [(IJ, 2 * IJ)])
                  (colon 2 (Z.of_nat nK - 1) 2) S W T)
        as (T1 & HT1 & Hl1 & Hc1);
        [rewrite !length_app; simpl; lia|apply NoDup_colon_2| |done| |done|].
      + intros k Hk%elem_of_colon_2. lia.
      + intros r Hr k Hk. by apply (proj1 (Hdisj r Hr)).
      + exists T1. split; [done|]. split; [done|].
        intros e He. apply Hc1. destruct He as [?|(k & Hk & He)]; [by left|].
        right. exists k. split; [done|]. apply elem_of_block. tauto. }
  unfold template_step. cbv zeta. fold N1 N2 IJ. rewrite HT1. simpl.
  destruct (decide ((Z.of_nat nK + 1) `mod` 2 = f)) as [Htop|Htop].
  - replace (np_arange 0 N2)
      with (np_arange 0 (Z.of_nat (length (edg0 (Z.of_nat nI) (Z.of_nat nJ) f))))
      by (by rewrite Hl0).
    rewrite mapM_py_get_all. simpl.
    destruct (assign_rows_covers S1 W1 T1 ((Z.of_nat nK - 1) * N1) N2
                (eadd (edg0 (Z.of_nat nI) (Z.of_nat nJ) f)
                      ((Z.of_nat nK - 1) * IJ))) as (T2 & HT2 & Hlen2 & Hcov2).
    + nia.
    + done.
    + rewrite length_eadd. lia.
    + rewrite Hlen1. unfold size. nia.
    + intros r [Hr|(k & Hk & Hr)] Hin.
      * apply (proj2 (Hdisj r Hr) Htop). nia.
      * apply elem_of_colon_2 in Hk. nia.
    + done.
    + exists T2. split; [done|]. split; [congruence|].
      intros e He.
      destruct (Hcov2 e) as (r & Hr & HTr).
      { unfold S1. destruct He as [?|[?|[_ ?]]]; [by left; left|by left; right|by right]. }
      exists r. split; [|done]. unfold W1 in Hr.
      destruct Hr as [[?|?]|?]; [by left|by right; left|right; right].
      split; [done|lia].
  - exists T1. split; [done|]. split; [done|].
    intros e He.
    destruct (Hcov1 e) as (r & Hr & HTr).
    { unfold S1. destruct He as [?|[?|[? _]]]; [by left|by right|done]. }
    exists r. split; [|done]. unfold W1 in Hr.
    destruct Hr as [?|?]; [by left|by right; left].
Qed.

(** Every row of every block is a row of the template: for each slice
    boundary [k] the three blocks of the parity of [k] and the row of the
    last voxel, and the bottom-slice block of the top slice. *)
Lemma lat_template_covers (T : list edge) :
  lat_template (Z.of_nat nI) (Z.of_nat nJ) (Z.of_nat nK) = inr T →
  (∀ k e, 1 ≤ k ≤ Z.of_nat nK - 1 →
     let f := (k + 1) `mod` 2 in
     e ∈ eadd (edg0 (Z.of_nat nI) (Z.of_nat nJ) f) ((k - 1) * IJ) ∨
     e ∈ eadd (edg1 (Z.of_nat nI) (Z.of_nat nJ) f) ((k - 1) * IJ) ∨
     e ∈ eadd (edg2 (Z.of_nat nI) (Z.of_nat nJ) f) ((k - 1) * IJ) ∨
     e = (IJ + (k - 1) * IJ, 2 * IJ + (k - 1) * IJ) →
     e ∈ T) ∧
  (∀ e,
     e ∈ eadd (edg0 (Z.of_nat nI) (Z.of_nat nJ) ((Z.of_nat nK + 1) `mod` 2))
              ((Z.of_nat nK - 1) * IJ) →
     e ∈ T).
Proof.
  pose proof (N1_pos nI nJ nK HI HJ HK) as HN1.
  pose proof (N2_nonneg nI nJ nK HI HJ HK) as HN2.
  fold N1 in HN1. fold N2 in HN2.
  unfold lat_template. cbv zeta. fold N1 N2 size.
  destruct (decide (size < 0)) as [Hneg|_]; [unfold size in Hneg; nia|].
  change (np_arange 0 2) with [0; 1]. simpl.
  destruct (template_step_covers 0 (λ _, False) (λ _, False)
              (replicate (Z.to_nat size) (0, 0)))
    as (T1 & HT1 & Hl1 & Hc1); [by left|by rewrite length_replicate|done|done|].
  rewrite HT1. simpl.
  destruct (template_step_covers 1
              (λ e, False ∨
                 (∃ k, k ∈ colon (1 + 0) (Z.of_nat nK - 1) 2 ∧
                   (e ∈ eadd (edg0 (Z.of_nat nI) (Z.of_nat nJ) 0) ((k - 1) * IJ) ∨
                    e ∈ eadd (edg1 (Z.of_nat nI) (Z.of_nat nJ) 0) ((k - 1) * IJ) ∨
                    e ∈ eadd (edg2 (Z.of_nat nI) (Z.of_nat nJ) 0) ((k - 1) * IJ) ∨
                    e = (IJ + (k - 1) * IJ, 2 * IJ + (k - 1) * IJ))) ∨
                 ((Z.of_nat nK + 1) `mod` 2 = 0 ∧
                  e ∈ eadd (edg0 (Z.of_nat nI) (Z.of_nat nJ) 0)
                           ((Z.of_nat nK - 1) * IJ)))
              (λ r, False ∨
                 (∃ k, k ∈ colon (1 + 0) (Z.of_nat nK - 1) 2 ∧
                       (k - 1) * N1 ≤ Z.of_nat r < k * N1) ∨
                 ((Z.of_nat nK + 1) `mod` 2 = 0 ∧
                  (Z.of_nat nK - 1) * N1 ≤ Z.of_nat r)) T1)
    as (T2 & HT2 & Hl2 & Hc2); [by right|done| |done|].
  { intros r [[]|[(k & Hk%elem_of_colon_2 & Hr)|[Hmod Hr]]]; split.
    - intros k' Hk'%elem_of_colon_2 Hr'.
      assert (k ≠ k') as Hne.
      { intros ->. destruct Hk as [_ Hk], Hk' as [_ Hk']. revert Hk Hk'. clear.
        intros. zify; Z.to_euclidean_division_equations; lia. }
      nia.
    - intros _ ?. nia.
    - intros k' Hk'%elem_of_colon_2 Hr'. nia.
    - intros Hmod'. rewrite Hmod in Hmod'. done. }
  rewrite HT2. intros [= <-]. split.
  - intros k e Hk He. set (f := (k + 1) `mod` 2) in *.
    assert (f = 0 ∨ f = 1) as Hf
      by (unfold f; pose proof (Z.mod_pos_bound (k + 1) 2); lia).
    destruct (Hc2 e) as (r & _ & Hr); [|by eapply list_elem_of_lookup_2].
    destruct Hf as [Hf|Hf]; rewrite Hf in He.
    + left. right. left. exists k. split; [|done].
      apply elem_of_colon_2. split; [lia|]. revert Hf. unfold f. clear.
      intros. zify; Z.to_euclidean_division_equations; lia.
    + right. left. exists k. split; [|done].
      apply elem_of_colon_2. split.
      * assert (k ≠ 1) by (intros ->; revert Hf; unfold f; clear; done). lia.
      * revert Hf. unfold f. clear.
        intros. zify; Z.to_euclidean_division_equations; lia.
  - intros e He.
    assert ((Z.of_nat nK + 1) `mod` 2 = 0 ∨ (Z.of_nat nK + 1) `mod` 2 = 1) as Hf
      by (pose proof (Z.mod_pos_bound (Z.of_nat nK + 1) 2); lia).
    destruct (Hc2 e) as (r & _ & Hr); [|by eapply list_elem_of_lookup_2].
    destruct Hf as [Hf|Hf]; rewrite Hf in He.
    + left. right. right. done.
    + right. right. done.
Qed.

End cover.

(** ** The lattice branch: the rows of face neighbours *)

Lemma elem_of_eadd_pairs (ts : list (list Z * Z * Z)) (d : Z)
    (t : list Z * Z * Z) (z : Z) (e : edge) :
  t ∈ ts → z ∈ t.1.1 → e = (z + t.1.2 + d, z + t.2 + d) →
  e ∈ eadd (ts ≫= pairs) d.
Proof.
  intros Ht Hz ->. unfold eadd. apply list_elem_of_fmap.
  exists (z + t.1.2, z + t.2). split; [done|].
  apply list_elem_of_bind. exists t. split; [|done].
  unfold pairs. apply list_elem_of_fmap. by exists z.
Qed.

Section face_rows.
Context (nI nJ : nat).

Lemma where_ij_intro (P : Z → Z → bool) (x y : Z) :
  0 ≤ x < Z.of_nat nI → 0 ≤ y < Z.of_nat nJ → P (x + 1) (y + 1) = true →
  x + Z.of_nat nI * y
  ∈ where_ij (grid_i (Z.of_nat nI) (Z.of_nat nJ))
             (grid_j (Z.of_nat nI) (Z.of_nat nJ)) P.
Proof.
  intros Hx Hy HP. rewrite where_ij_grid, list_elem_of_fmap.
  exists (Z.to_nat x + Z.to_nat y * nI)%nat. split; [nia|].
  apply list_elem_of_filter.
  assert ((Z.to_nat x + Z.to_nat y * nI) `mod` nI = Z.to_nat x)%nat as Hm.
  { rewrite Nat.Div0.mod_add. apply Nat.mod_small. lia. }
  assert ((Z.to_nat x + Z.to_nat y * nI) `div` nI = Z.to_nat y)%nat as Hq.
  { rewrite Nat.div_add by lia. rewrite Nat.div_small by lia. done. }
  split.
  - rewrite Hm, Hq. by rewrite !Z2Nat.id by lia.
  - apply elem_of_seq. nia.
Qed.

Ltac index_set :=
  apply where_ij_intro; [lia|lia|];
  unfold par; rewrite !andb_true_iff, !bool_decide_eq_true;
  repeat split; try lia;
  zify; Z.to_euclidean_division_equations; lia.

Ltac row ts i zc :=
  eapply (elem_of_eadd_pairs _ _ _ zc);
  [apply (list_elem_of_lookup_2 ts i); reflexivity
  |simpl; first [unfold c1|unfold c2|unfold c11|unfold c21|unfold c12
                |unfold c22]; index_set
  |simpl; f_equal; lia].

(** Two voxels of a slice next to each other along the first axis. *)
Lemma edg0_first_axis (f x y d : Z) :
  f = 0 ∨ f = 1 →
  0 ≤ x → x + 1 < Z.of_nat nI → 0 ≤ y < Z.of_nat nJ →
  (1 + (x + Z.of_nat nI * y) + d, 1 + (x + 1 + Z.of_nat nI * y) + d)
  ∈ eadd (edg0 (Z.of_nat nI) (Z.of_nat nJ) f) d.
Proof.
  intros Hf Hx Hx' Hy. rewrite edg0_triples, eadd_eadd.
  set (ts := triples0 (Z.of_nat nI) (Z.of_nat nJ) f).
  destruct (decide ((x + 1 + (y + 1)) `mod` 2 = f)) as [Hp|Hp];
    destruct (decide (y + 1 < Z.of_nat nJ)) as [Hj|Hj].
  - row ts 0%nat (x + Z.of_nat nI * y).
  - row ts 8%nat (x + Z.of_nat nI * y).
  - row ts 3%nat (x + 1 + Z.of_nat nI * y).
  - row ts 9%nat (x + 1 + Z.of_nat nI * y).
Qed.

(** Two voxels of a slice next to each other along the second axis. *)
Lemma edg0_second_axis (f x y d : Z) :
  f = 0 ∨ f = 1 →
  0 ≤ x < Z.of_nat nI → 0 ≤ y → y + 1 < Z.of_nat nJ →
  (1 + (x + Z.of_nat nI * y) + d, 1 + (x + Z.of_nat nI * (y + 1)) + d)
  ∈ eadd (edg0 (Z.of_nat nI) (Z.of_nat nJ) f) d.
Proof.
  intros Hf Hx Hy Hy'. rewrite edg0_triples, eadd_eadd.
  set (ts := triples0 (Z.of_nat nI) (Z.of_nat nJ) f).
  destruct (decide ((x + 1 + (y + 1)) `mod` 2 = f)) as [Hp|Hp];
    destruct (decide (x + 1 < Z.of_nat nI)) as [Hi|Hi].
  - row ts 1%nat (x + Z.of_nat nI * y).
  - row ts 6%nat (x + Z.of_nat nI * y).
  - row ts 4%nat (x + 1 + Z.of_nat nI * y).
  - row ts 7%nat (x + Z.of_nat nI * (y + 1)).
Qed.

(** A voxel and the one above it in the next slice. *)
Lemma edg12_third_axis (f x y d : Z) :
  f = 0 ∨ f = 1 →
  0 ≤ x < Z.of_nat nI → 0 ≤ y < Z.of_nat nJ →
  let IJ := Z.of_nat nI * Z.of_nat nJ in
  let e := (1 + (x + Z.of_nat nI * y) + d,
            1 + (x + Z.of_nat nI * y) + IJ + d) in
  e ∈ eadd (edg0 (Z.of_nat nI) (Z.of_nat nJ) f) d ∨
  e ∈ eadd (edg1 (Z.of_nat nI) (Z.of_nat nJ) f) d ∨
  e ∈ eadd (edg2 (Z.of_nat nI) (Z.of_nat nJ) f) d ∨
  e = (IJ + d, 2 * IJ + d).
Proof.
  intros Hf Hx Hy IJ e. unfold e, IJ.
  rewrite edg1_triples, edg2_triples, !eadd_eadd.
  set (t1 := triples1 (Z.of_nat nI) (Z.of_nat nJ) f).
  set (t2 := triples2 (Z.of_nat nI) (Z.of_nat nJ) f).
  destruct (decide (x + 1 < Z.of_nat nI)) as [Hi|Hi];
    destruct (decide (y + 1 < Z.of_nat nJ)) as [Hj|Hj];
    destruct (decide ((x + 1 + (y + 1)) `mod` 2 = f)) as [Hp|Hp].
  - right. left. row t1 0%nat (x + Z.of_nat nI * y).
  - right. right. left. row t2 0%nat (x + 1 + Z.of_nat nI * y).
  - right. left. row t1 5%nat (x + Z.of_nat nI * y).
  - right. right. left. row t2 5%nat (x + 1 + Z.of_nat nI * y).
  - right. left. row t1 3%nat (x + Z.of_nat nI * y).
  - right. right. left. row t2 3%nat (x + Z.of_nat nI * (y + 1)).
  - right. right. right. f_equal; nia.
  - right. right. right. f_equal; nia.
Qed.

End face_rows.

(** The template holds the row of every two grid points next to each
    other along an axis. *)
Lemma lat_template_face_rows (nI nJ nK : nat) (T : list edge) (p q : point) :
  lat_template (Z.of_nat nI) (Z.of_nat nJ) (Z.of_nat nK) = inr T →
  in_grid (Z.of_nat nI) (Z.of_nat nJ) (Z.of_nat nK) p →
  in_grid (Z.of_nat nI) (Z.of_nat nJ) (Z.of_nat nK) q →
  q = (p.1.1 + 1, p.1.2, p.2) ∨ q = (p.1.1, p.1.2 + 1, p.2) ∨
  q = (p.1.1, p.1.2, p.2 + 1) →
  (1 + grid_number (Z.of_nat nI) (Z.of_nat nJ) p,
   1 + grid_number (Z.of_nat nI) (Z.of_nat nJ) q) ∈ T.
Proof.
  intros HT Hp Hq Hpq. destruct p as [[x y] z].
  destruct Hp as (Hx & Hy & Hz). simpl in *.
  destruct (lat_template_covers nI nJ nK ltac:(lia) ltac:(lia) ltac:(lia) T HT)
    as [Hblocks Htop].
  set (IJ := Z.of_nat nI * Z.of_nat nJ).
  assert (∀ k, (k + 1) `mod` 2 = 0 ∨ (k + 1) `mod` 2 = 1) as Hpar.
  { intros k. pose proof (Z.mod_pos_bound (k + 1) 2). lia. }
  assert (∀ e, (∀ f, f = 0 ∨ f = 1 →
                e ∈ eadd (edg0 (Z.of_nat nI) (Z.of_nat nJ) f) (z * IJ)) →
               e ∈ T) as Hslice.
  { intros e He. destruct (decide (z + 1 ≤ Z.of_nat nK - 1)) as [Hk|Hk].
    - apply (Hblocks (z + 1) e); [lia|]. left.
      replace (z + 1 - 1) with z by lia. apply He, Hpar.
    - apply Htop. replace (Z.of_nat nK - 1) with z by lia. apply He, Hpar. }
  unfold grid_number. destruct Hpq as [-> | [-> | ->]];
    destruct Hq as (Hx' & Hy' & Hz'); simpl in *.
  - apply Hslice. intros f Hf.
    pose proof (edg0_first_axis nI nJ f x y (z * IJ) Hf) as He.
    replace (1 + (x + Z.of_nat nI * (y + Z.of_nat nJ * z)))
      with (1 + (x + Z.of_nat nI * y) + z * IJ) by (unfold IJ; lia).
    replace (1 + (x + 1 + Z.of_nat nI * (y + Z.of_nat nJ * z)))
      with (1 + (x + 1 + Z.of_nat nI * y) + z * IJ) by (unfold IJ; lia).
    apply He; lia.
  - apply Hslice. intros f Hf.
    pose proof (edg0_second_axis nI nJ f x y (z * IJ) Hf) as He.
    replace (1 + (x + Z.of_nat nI * (y + Z.of_nat nJ * z)))
      with (1 + (x + Z.of_nat nI * y) + z * IJ) by (unfold IJ; lia).
    replace (1 + (x + Z.of_nat nI * (y + 1 + Z.of_nat nJ * z)))
      with (1 + (x + Z.of_nat nI * (y + 1)) + z * IJ) by (unfold IJ; lia).
    apply He; lia.
  - apply (Hblocks (z + 1)); [lia|].
    replace (z + 1 - 1) with z by lia.
    pose proof (edg12_third_axis nI nJ ((z + 1 + 1) `mod` 2) x y (z * IJ)
                  (Hpar (z + 1)) Hx Hy) as He.
    cbv zeta in He. fold IJ in He.
    replace (1 + (x + Z.of_nat nI * (y + Z.of_nat nJ * z)))
      with (1 + (x + Z.of_nat nI * y) + z * IJ) by (unfold IJ; lia).
    replace (1 + (x + Z.of_nat nI * (y + Z.of_nat nJ * (z + 1))))
      with (1 + (x + Z.of_nat nI * y) + IJ + z * IJ) by (unfold IJ; lia).
    exact He.
Qed.

(** X19. Two occupied voxels of a lattice that share a face (their subscripts
    differ by one along one axis and agree along the others) are always
    joined: the edge list has the row of their compact numbers, the voxel
    with the smaller subscript first. *)
Theorem lat_edges_join_face_neighbours
    (lat : lattice) (ni nj nk : nat) (edges : list edge)
    (x1 y1 z1 x2 y2 z2 : nat) :
  lat_dims lat = Some (ni, nj, nk) →
  lat_edges lat = inr edges →
  (x2 < ni ∧ y2 < nj ∧ z2 < nk)%nat →
  (x2 = S x1 ∧ y2 = y1 ∧ z2 = z1) ∨ (x2 = x1 ∧ y2 = S y1 ∧ z2 = z1) ∨
  (x2 = x1 ∧ y2 = y1 ∧ z2 = S z1) →
  lat_get nj nk (lat_buffer lat) x1 y1 z1 = true →
  lat_get nj nk (lat_buffer lat) x2 y2 z2 = true →
  (voxel_id (voxels lat) (x1 + ni * (y1 + nj * z1)),
   voxel_id (voxels lat) (x2 + ni * (y2 + nj * z2))) ∈ edges.
Proof.
  intros Hd Hrun Hin Hadj H1 H2.
  assert (x1 < ni ∧ y1 < nj ∧ z1 < nk)%nat as Hin1 by lia.
  destruct (lat_template_good ni nj nk) as (T & HT & Hgood); [lia..|].
  rewrite (lat_edges_template _ _ _ _ _ Hd HT Hgood) in Hrun.
  injection Hrun as <-.
  set (p := (Z.of_nat x1, Z.of_nat y1, Z.of_nat z1)).
  set (q := (Z.of_nat x2, Z.of_nat y2, Z.of_nat z2)).
  assert ((1 + grid_number (Z.of_nat ni) (Z.of_nat nj) p,
           1 + grid_number (Z.of_nat ni) (Z.of_nat nj) q) ∈ T) as He.
  { apply (lat_template_face_rows ni nj nk T p q HT).
    - unfold in_grid, p. simpl. lia.
    - unfold in_grid, q. simpl. lia.
    - unfold p, q. simpl.
      destruct Hadj as [[-> [-> ->]]|[[-> [-> ->]]|[-> [-> ->]]]].
      + left. repeat (f_equal; try lia).
      + right. left. repeat (f_equal; try lia).
      + right. right. repeat (f_equal; try lia). }
  assert (voxel_of (1 + grid_number (Z.of_nat ni) (Z.of_nat nj) p)
          = (x1 + ni * (y1 + nj * z1))%nat) as Hv1.
  { rewrite grid_number_nat by (unfold p; simpl; lia).
    unfold p. simpl. by rewrite !Nat2Z.id. }
  assert (voxel_of (1 + grid_number (Z.of_nat ni) (Z.of_nat nj) q)
          = (x2 + ni * (y2 + nj * z2))%nat) as Hv2.
  { rewrite grid_number_nat by (unfold q; simpl; lia).
    unfold q. simpl. by rewrite !Nat2Z.id. }
  apply list_elem_of_fmap.
  exists (1 + grid_number (Z.of_nat ni) (Z.of_nat nj) p,
          1 + grid_number (Z.of_nat ni) (Z.of_nat nj) q).
  split.
  - unfold compact. cbn [fst snd]. by rewrite Hv1, Hv2.
  - apply list_elem_of_filter. split; [|done].
    apply keep_occupied. cbn [fst snd]. rewrite Hv1, Hv2.
    unfold occupied, voxels. rewrite Hd.
    rewrite !lookup_T_flatten by lia. by rewrite H1, H2.
Qed.

Lemma lat_edges_join_face_neighbours_witness :
  (voxel_id (voxels (Lattice [2; 2]%nat [true; false; true; true]))
     (1 + 2 * (0 + 2 * 0)),
   voxel_id (voxels (Lattice [2; 2]%nat [true; false; true; true]))
     (1 + 2 * (1 + 2 * 0)))
  ∈ [(0, 1); (0, 2); (1, 2)].
Proof.
  apply (lat_edges_join_face_neighbours
           (Lattice [2; 2]%nat [true; false; true; true]) 2 2 1
           [(0, 1); (0, 2); (1, 2)] 1 0 0 1 1 0).
  - reflexivity.
  - vm_compute. reflexivity.
  - lia.
  - right. left. done.
  - reflexivity.
  - reflexivity.
Defined.

(** ** The lattice branch: the template, block by block *)

Section blocks.
Context (nI nJ nK : nat).
Context (HI : (0 < nI)%nat) (HJ : (0 < nJ)%nat) (HK : (0 < nK)%nat).

Let N1 := n1 (Z.of_nat nI) (Z.of_nat nJ).
Let N2 := n2 (Z.of_nat nI) (Z.of_nat nJ).
Let IJ := Z.of_nat nI * Z.of_nat nJ.
Let size := (Z.of_nat nK - 1) * N1 + N2.

Lemma fill_blocks_at (block : list edge) (ks : list Z) (T : list edge) :
  length block = Z.to_nat N1 →
  (∀ k, k ∈ ks → 1 ≤ k ≤ Z.of_nat nK - 1) →
  length T = Z.to_nat size →
  ∃ T',
    for_each ks (λ k edg,
      assign_rows ((k - 1) * N1) N1 (eadd block ((k - 1) * IJ)) edg) T
    = inr T' ∧
    length T' = Z.to_nat size ∧
    (∀ k t, k ∈ ks → (t < Z.to_nat N1)%nat →
       T' !! (Z.to_nat ((k - 1) * N1) + t)%nat
       = eadd block ((k - 1) * IJ) !! t) ∧
    (∀ r, (∀ k, k ∈ ks → ¬ ((k - 1) * N1 ≤ Z.of_nat r < k * N1)) →
       T' !! r = T !! r).
Proof.
  intros Hlen. revert T.
  induction ks as [|k ks IH]; intros T Hks HT.
  - exists T. split; [done|]. split; [done|]. split; [|done].
    intros k t []%elem_of_nil.
  - pose proof (N1_pos nI nJ nK HI HJ HK) as HN1.
    pose proof (N2_nonneg nI nJ nK HI HJ HK) as HN2. fold N1 in HN1. fold N2 in HN2.
    assert (1 ≤ k ≤ Z.of_nat nK - 1) as Hk by (apply Hks; left).
    destruct (assign_rows_lookup T ((k - 1) * N1) N1
                (eadd block ((k - 1) * IJ))) as (T1 & HT1 & Hl1 & Hlook1).
    { nia. } { lia. } { by rewrite length_eadd. }
    { rewrite HT. unfold size. nia. }
    destruct (IH T1) as (T' & HT' & Hl' & Hin & Hout);
      [intros; apply Hks; by right|congruence|].
    exists T'. simpl. rewrite HT1. simpl. split; [done|]. split; [done|]. split.
    + intros k' t Hk' Ht.
      destruct (decide (k' ∈ ks)) as [?|Hnotin]; [by apply Hin|].
      apply elem_of_cons in Hk' as [->|?]; [|done].
      rewrite Hout.
      * rewrite Hlook1, decide_True by lia. f_equal. lia.
      * intros k' Hk' Hr. assert (k' ≠ k) by (intros ->; done).
        assert (1 ≤ k' ≤ Z.of_nat nK - 1) by (apply Hks; by right). nia.
    + intros r Hr. rewrite Hout by (intros k' ?; apply Hr; by right).
      rewrite Hlook1, decide_False; [done|].
      specialize (Hr k ltac:(left)). nia.
Qed.

Lemma template_block_parity (f k : Z) :
  k ∈ colon (1 + f) (Z.of_nat nK - 1) 2 → f = 0 ∨ f = 1 →
  (k + 1) `mod` 2 = f.
Proof.
  intros [? ?]%elem_of_colon_2 Hf. zify; Z.to_euclidean_division_equations; lia.
Qed.

Lemma length_template_block (k : Z) :
  length (template_block (Z.of_nat nI) (Z.of_nat nJ) k) = Z.to_nat N1.
Proof.
  assert ((k + 1) `mod` 2 = 0 ∨ (k + 1) `mod` 2 = 1) as Hf
    by (pose proof (Z.mod_pos_bound (k + 1) 2); lia).
  pose proof (length_edg1_edg2 nI nJ HI HJ _ Hf) as Hl. fold N1 in Hl.
  unfold template_block. cbv zeta. rewrite length_eadd.
  destruct (decide _); rewrite !length_app; simpl; lia.
Qed.

Lemma length_top_block :
  length (top_block (Z.of_nat nI) (Z.of_nat nJ) (Z.of_nat nK)) = Z.to_nat N2.
Proof.
  assert ((Z.of_nat nK + 1) `mod` 2 = 0 ∨ (Z.of_nat nK + 1) `mod` 2 = 1) as Hf
    by (pose proof (Z.mod_pos_bound (Z.of_nat nK + 1) 2); lia).
  pose proof (length_edg0 nI nJ HI HJ _ Hf) as Hl. fold N2 in Hl.
  unfold top_block. rewrite length_eadd. lia.
Qed.

(** One round of [for f in range(0, 2)]: the blocks of the slice boundaries
    of parity class [f] and, when the top slice is of that class, its
    block are in place; every other row is as it was. *)
Lemma template_step_at (f : Z) (T : list edge) :
  f = 0 ∨ f = 1 →
  length T = Z.to_nat size →
  ∃ T',
    template_step (Z.of_nat nI) (Z.of_nat nJ) (Z.of_nat nK) f T = inr T' ∧
    length T' = Z.to_nat size ∧
    (∀ k t, k ∈ colon (1 + f) (Z.of_nat nK - 1) 2 → (t < Z.to_nat N1)%nat →
       T' !! (Z.to_nat ((k - 1) * N1) + t)%nat
       = template_block (Z.of_nat nI) (Z.of_nat nJ) k !! t) ∧
    ((Z.of_nat nK + 1) `mod` 2 = f →
     ∀ t, (t < Z.to_nat N2)%nat →
       T' !! (Z.to_nat ((Z.of_nat nK - 1) * N1) + t)%nat
       = top_block (Z.of_nat nI) (Z.of_nat nJ) (Z.of_nat nK) !! t) ∧
    (∀ r, (∀ k, k ∈ colon (1 + f) (Z.of_nat nK - 1) 2 →
                ¬ ((k - 1) * N1 ≤ Z.of_nat r < k * N1)) →
          ((Z.of_nat nK + 1) `mod` 2 = f →
           Z.of_nat r < (Z.of_nat nK - 1) * N1) →
          T' !! r = T !! r).
Proof.
  intros Hf HT.
  pose proof (N1_pos nI nJ nK HI HJ HK) as HN1.
  pose proof (N2_nonneg nI nJ nK HI HJ HK) as HN2.
  pose proof (length_edg0 nI nJ HI HJ f Hf) as Hl0.
  pose proof (length_edg1_edg2 nI nJ HI HJ f Hf) as Hl12.
  fold N1 in Hl12, HN1. fold N2 in Hl0, HN2.
  assert (∃ T1,
    (if decide (f ≠ 0) then
       for_each (colon 2 (Z.of_nat nK - 1) 2) (λ k edg,
         assign_rows ((k - 1) * N1) N1
           (eadd (edg0 (Z.of_nat nI) (Z.of_nat nJ) f
                  ++ edg2 (Z.of_nat nI) (Z.of_nat nJ) f
                  ++ edg1 (Z.of_nat nI) (Z.of_nat nJ) f ++ [(IJ, 2 * IJ)])
                 ((k - 1) * IJ)) edg) T
     else
       for_each (colon 1 (Z.of_nat nK - 1) 2) (λ k edg,
         assign_rows ((k - 1) * N1) N1
           (eadd (edg0 (Z.of_nat nI) (Z.of_nat nJ) f
                  ++ edg1 (Z.of_nat nI) (Z.of_nat nJ) f
                  ++ edg2 (Z.of_nat nI) (Z.of_nat nJ) f ++ [(IJ, 2 * IJ)])
                 ((k - 1) * IJ)) edg) T) = inr T1 ∧
    length T1 = Z.to_nat size ∧
    (∀ k t, k ∈ colon (1 + f) (Z.of_nat nK - 1) 2 → (t < Z.to_nat N1)%nat →
       T1 !! (Z.to_nat ((k - 1) * N1) + t)%nat
       = template_block (Z.of_nat nI) (Z.of_nat nJ) k !! t) ∧
    (∀ r, (∀ k, k ∈ colon (1 + f) (Z.of_nat nK - 1) 2 →
                ¬ ((k - 1) * N1 ≤ Z.of_nat r < k * N1)) →
          T1 !! r = T !! r)) as (T1 & HT1 & Hlen1 & Hin1 & Hout1).
  { destruct Hf as [-> | ->].
    - destruct (decide ((0:Z) ≠ 0)) as [?|_]; [done|].
      edestruct (fill_blocks_at
                  (edg0 (Z.of_nat nI) (Z.of_nat nJ) 0
                   ++ edg1 (Z.of_nat nI) (Z.of_nat nJ) 0
                   ++ edg2 (Z.of_nat nI) (Z.of_nat nJ) 0 ++ [(IJ, 2 * IJ)])
                  (colon 1 (Z.of_nat nK - 1) 2) T)
        as (T1 & HT1 & Hl1 & Hin & Hout);
        [rewrite !length_app; simpl; lia| |done|].
      + intros k Hk%elem_of_colon_2. lia.
      + exists T1. split; [done|]. split; [done|]. split; [|done].
        intros k t Hk Ht. rewrite (Hin k t Hk Ht).
        unfold template_block. cbv zeta.
        rewrite (template_block_parity 0 k Hk) by by left.
        by destruct (decide ((0:Z) ≠ 0)).
    - destruct (decide ((1:Z) ≠ 0)) as [_|[]]; [|done].
      edestruct (fill_blocks_at
                  (edg0 (Z.of_nat nI) (Z.of_nat nJ) 1
                   ++ edg2 (Z.of_nat nI) (Z.of_nat nJ) 1
                   ++ edg1 (Z.of_nat nI) (Z.of_nat nJ) 1 ++ [(IJ, 2 * IJ)])
                  (colon 2 (Z.of_nat nK - 1) 2) T)
        as (T1 & HT1 & Hl1 & Hin & Hout);
        [rewrite !length_app; simpl; lia| |done|].
      + intros k Hk%elem_of_colon_2. lia.
      + exists T1. split; [done|]. split; [done|]. split; [|done].
        intros k t Hk Ht. rewrite (Hin k t Hk Ht).
        unfold template_block. cbv zeta.
        rewrite (template_block_parity 1 k Hk) by by right.
        destruct (decide ((1:Z) ≠ 0)) as [_|Hn]; [done|by destruct Hn]. }
  unfold template_step. cbv zeta. fold N1 N2 IJ. rewrite HT1. simpl.
  destruct (decide ((Z.of_nat nK + 1) `mod` 2 = f)) as [Htop|Htop].
  - replace (np_arange 0 N2)
      with (np_arange 0 (Z.of_nat (length (edg0 (Z.of_nat nI) (Z.of_nat nJ) f))))
      by (by rewrite Hl0).
    rewrite mapM_py_get_all. simpl.
    destruct (assign_rows_lookup T1 ((Z.of_nat nK - 1) * N1) N2
                (eadd (edg0 (Z.of_nat nI) (Z.of_nat nJ) f)
                      ((Z.of_nat nK - 1) * IJ))) as (T2 & HT2 & Hlen2 & Hlook2).
    { nia. } { done. } { rewrite length_eadd. lia. }
    { rewrite Hlen1. unfold size. nia. }
    exists T2. split; [done|]. split; [congruence|]. split; [|split].
    + intros k t Hk Ht. rewrite Hlook2, decide_False; [by apply Hin1|].
      apply elem_of_colon_2 in Hk. nia.
    + intros _ t Ht. rewrite Hlook2, decide_True by lia.
      unfold top_block. rewrite Htop. fold IJ. f_equal. lia.
    + intros r Hr Hr'. rewrite Hlook2, decide_False by (specialize (Hr' Htop); lia).
      by apply Hout1.
  - exists T1. split; [done|]. split; [done|]. split; [done|].
    split; [done|]. intros r Hr _. by apply Hout1.
Qed.

Lemma lat_template_at (T : list edge) :
  lat_template (Z.of_nat nI) (Z.of_nat nJ) (Z.of_nat nK) = inr T →
  length T = Z.to_nat size ∧
  (∀ k t, 1 ≤ k ≤ Z.of_nat nK - 1 → (t < Z.to_nat N1)%nat →
     T !! (Z.to_nat ((k - 1) * N1) + t)%nat
     = template_block (Z.of_nat nI) (Z.of_nat nJ) k !! t) ∧
  (∀ t, (t < Z.to_nat N2)%nat →
     T !! (Z.to_nat ((Z.of_nat nK - 1) * N1) + t)%nat
     = top_block (Z.of_nat nI) (Z.of_nat nJ) (Z.of_nat nK) !! t).
Proof.
  pose proof (N1_pos nI nJ nK HI HJ HK) as HN1.
  pose proof (N2_nonneg nI nJ nK HI HJ HK) as HN2.
  fold N1 in HN1. fold N2 in HN2.
  unfold lat_template. cbv zeta. fold N1 N2 size.
  destruct (decide (size < 0)) as [Hneg|_]; [unfold size in Hneg; nia|].
  change (np_arange 0 2) with [0; 1]. simpl.
  destruct (template_step_at 0 (replicate (Z.to_nat size) (0, 0)))
    as (T1 & HT1 & Hl1 & Hin1 & Htop1 & _);
    [by left|by rewrite length_replicate|].
  rewrite HT1. simpl.
  destruct (template_step_at 1 T1) as (T2 & HT2 & Hl2 & Hin2 & Htop2 & Hout2);
    [by right|done|].
  rewrite HT2. intros [= <-]. split; [done|]. split.
  - intros k t Hk Ht.
    destruct (decide ((k - 1) `mod` 2 = 0)) as [Hpar|Hpar].
    + rewrite Hout2.
      * apply Hin1; [|done]. apply elem_of_colon_2. split; [lia|].
        by replace (k - (1 + 0)) with (k - 1) by lia.
      * intros k' Hk'%elem_of_colon_2 Hr.
        assert (k ≠ k') as Hne.
        { intros ->. destruct Hk' as [_ Hk']. revert Hpar Hk'. clear.
          intros. zify; Z.to_euclidean_division_equations; lia. }
        nia.
      * intros _. nia.
    + apply Hin2; [|done]. apply elem_of_colon_2. split.
      * assert (k ≠ 1) by (intros ->; by apply Hpar). lia.
      * revert Hpar. clear. intros.
        zify; Z.to_euclidean_division_equations; lia.
  - intros t Ht.
    destruct (decide ((Z.of_nat nK + 1) `mod` 2 = 0)) as [Hpar|Hpar].
    + rewrite Hout2.
      * by apply Htop1.
      * intros k' Hk'%elem_of_colon_2 Hr. nia.
      * intros Hpar'. rewrite Hpar in Hpar'. done.
    + apply Htop2; [|done].
      pose proof (Z.mod_pos_bound (Z.of_nat nK + 1) 2). lia.
Qed.

(** X20. The edge template of a lattice with at least one voxel along each
    axis is the blocks the source assigns, one after the other: for each
    slice boundary 1, ..., K - 1 in turn the [n1] rows of that boundary,
    then the [n2] rows of the top slice. The two passes of the loop over [f]
    write every row once; no block overwrites another and no row of the
    zero-filled array is left. *)
Theorem lat_template_blocks_in_place (T : list edge) :
  lat_template (Z.of_nat nI) (Z.of_nat nJ) (Z.of_nat nK) = inr T →
  T = (np_arange 1 (Z.of_nat nK)
         ≫= template_block (Z.of_nat nI) (Z.of_nat nJ))
      ++ top_block (Z.of_nat nI) (Z.of_nat nJ) (Z.of_nat nK).
Proof.
  intros HT.
  destruct (lat_template_at T HT) as (Hlen & Hblocks & Htop).
  pose proof (N1_pos nI nJ nK HI HJ HK) as HN1.
  pose proof (N2_nonneg nI nJ nK HI HJ HK) as HN2.
  fold N1 in HN1. fold N2 in HN2.
  set (blocks := np_arange 1 (Z.of_nat nK)
                   ≫= template_block (Z.of_nat nI) (Z.of_nat nJ)).
  assert (length blocks = ((nK - 1) * Z.to_nat N1)%nat) as Hlb.
  { unfold blocks.
    rewrite (length_bind_const _ (Z.to_nat N1)) by apply length_template_block.
    unfold np_arange. rewrite length_fmap, length_seq. f_equal. lia. }
  apply (list_eq_same_length _ _ (length T)); [|done|].
  { rewrite length_app, Hlb, length_top_block, Hlen. unfold size. nia. }
  intros i x y Hi Hx Hy.
  destruct (decide (i < (nK - 1) * Z.to_nat N1)%nat) as [Hlow|Hhigh].
  - set (a := (i / Z.to_nat N1)%nat). set (t := (i mod Z.to_nat N1)%nat).
    assert (i = a * Z.to_nat N1 + t)%nat as Hi'.
    { unfold a, t. pose proof (Nat.div_mod_eq i (Z.to_nat N1)). lia. }
    assert (t < Z.to_nat N1)%nat as Ht
      by (unfold t; apply Nat.mod_upper_bound; lia).
    assert (a < nK - 1)%nat as Ha by nia.
    assert (T !! i
            = template_block (Z.of_nat nI) (Z.of_nat nJ) (1 + Z.of_nat a) !! t)
      as HTi.
    { rewrite <-(Hblocks (1 + Z.of_nat a) t) by lia. f_equal. nia. }
    rewrite HTi in Hx.
    rewrite lookup_app_l in Hy by lia.
    assert (blocks !! i = Some x) as Hb.
    { rewrite Hi'. unfold blocks.
      apply (lookup_bind_const _ _ _ _ _ (1 + Z.of_nat a));
        [apply length_template_block| |done].
      unfold np_arange. rewrite list_lookup_fmap, lookup_seq_lt by lia. done. }
    congruence.
  - rewrite lookup_app_r in Hy by lia. rewrite Hlb in Hy.
    rewrite Hlen in Hi. unfold size in Hi.
    assert (i - (nK - 1) * Z.to_nat N1 < Z.to_nat N2)%nat as Ht by nia.
    rewrite <-(Htop _ Ht) in Hy.
    replace (Z.to_nat ((Z.of_nat nK - 1) * N1)
             + (i - (nK - 1) * Z.to_nat N1))%nat with i in Hy by nia.
    congruence.
Qed.

End blocks.

Lemma lat_template_blocks_in_place_witness :
  [(1, 2); (1, 3); (1, 4); (2, 4); (3, 4); (1, 5); (1, 6); (1, 7); (2, 6);
   (4, 6); (3, 7); (4, 7); (4, 8); (5, 6); (5, 7); (6, 7); (6, 8); (7, 8)]
  = (np_arange 1 2 ≫= template_block 2 2) ++ top_block 2 2 2.
Proof.
  apply (lat_template_blocks_in_place 2 2 2); [lia..|].
  vm_compute. reflexivity.
Defined.
